(** * TetrisMind: the placement search and board-evaluation engine

    A shallow embedding of [tetris_ai.py]: the shape library
    ([rotate], [build_rotations]), the board model ([valid_move],
    [lock_piece], [remove_lines], [get_heights_and_holes]), the heuristic
    ([evaluate], in binary64 arithmetic) and the search ([hard_drop],
    [best_move]); then the drawing functions ([draw_grid], [draw_piece])
    as the lists of the rectangles they draw, and the bag and the loop of
    the script ([next_piece], the body of [while running]) as a function
    on the variables of the game.

    Python lists are Rocq lists; Python ints are [Z]; Python floats are the
    kernel's binary64 floats.  An [IndexError] and a loop that does not
    come back are results of their own in the monad [res]. *)

From Stdlib Require Import ZArith List Bool Lia Floats Sorted.
From stdpp Require Import base list gmap.
Import ListNotations.

Local Open Scope Z_scope.
Set Warnings "-inexact-float".

(** * The program *)

(** ** Results of Python code *)

Inductive error : Type :=
| IndexError   (* a subscript out of range *)
| OutOfFuel    (* the loop was cut off by the fuel: no result yet *)
| BadRef.      (* a reference to no object of the heap: never in Python *)

Inductive res (A : Type) : Type :=
| Ok (a : A)
| Err (e : error).

Arguments Ok {A} a.
Arguments Err {A} e.

(** [do x <- m; k] runs [m] and gives its result to [k]; an error of [m]
    is the error of the whole. *)
Definition bind {A B : Type} (m : res A) (k : A -> res B) : res B :=
  match m with
  | Ok a => k a
  | Err e => Err e
  end.

Notation "'do' x <- m ; k" := (bind m (fun x => k))
  (at level 10, x name, m at level 100, k at level 200).

(** ** Python list subscripts

    [l[i]] with a negative [i] counts from the end; outside
    [-len(l) .. len(l)-1] it raises [IndexError]. *)

Definition py_pos {A : Type} (l : list A) (i : Z) : option nat :=
  let n := Z.of_nat (length l) in
  let j := if i <? 0 then i + n else i in
  if (0 <=? j) && (j <? n) then Some (Z.to_nat j) else None.

Definition py_index {A : Type} (l : list A) (i : Z) : res A :=
  match py_pos l i with
  | Some j => match l !! j with Some a => Ok a | None => Err IndexError end
  | None => Err IndexError
  end.

Definition py_setitem {A : Type} (l : list A) (i : Z) (v : A) : res (list A) :=
  match py_pos l i with
  | Some j => Ok (<[j := v]> l)
  | None => Err IndexError
  end.

(** ** Configuration *)

Definition COLS : Z := 10.
Definition ROWS : Z := 20.

(** A grid is a list of rows of cell values: 0 is empty, [k+1] is a cell of
    the piece of index [k].  A shape is a matrix of 0/1 cells.  A cell is
    "truthy" when it is not 0. *)

Abbreviation grid := (list (list Z)) (only parsing).
Abbreviation shape := (list (list Z)) (only parsing).

Definition truthy (v : Z) : bool := negb (v =? 0).

(** ** Shapes *)

(** The piece names ['I'], ['O'], ['T'], ['S'], ['Z'], ['J'], ['L'], the keys
    of [SHAPES_BASE]. *)
Inductive piece : Type := pI | pO | pT | pS | pZ | pJ | pL.

Definition SHAPES_BASE (p : piece) : shape :=
  match p with
  | pI => [[1;1;1;1]]
  | pO => [[1;1];[1;1]]
  | pT => [[0;1;0];[1;1;1]]
  | pS => [[0;1;1];[1;1;0]]
  | pZ => [[1;1;0];[0;1;1]]
  | pJ => [[1;0;0];[1;1;1]]
  | pL => [[0;0;1];[1;1;1]]
  end.

(** [zip] of a row [r] and the columns already zipped: it stops at the
    shorter of the two. *)
Fixpoint zip_cons {A : Type} (r : list A) (cols : list (list A)) : list (list A) :=
  match r, cols with
  | x :: r', c :: cols' => (x :: c) :: zip_cons r' cols'
  | _, _ => []
  end.

(** [zip] applied to the rows as its arguments (the star call): the list
    of the columns, as long as the shortest row. *)
Fixpoint zip_star {A : Type} (rows : list (list A)) : list (list A) :=
  match rows with
  | [] => []
  | [r] => map (fun x => [x]) r
  | r :: rest => zip_cons r (zip_star rest)
  end.

(** [rotate]: the columns of the shape read bottom row first, that is
    [zip] applied to the rows of [shape[::-1]]. *)
Definition rotate (sh : shape) : shape := zip_star (rev sh).

Definition shape_eqb (a b : shape) : bool :=
  bool_decide (a = b).

(** The loop of [build_rotations]: [n] iterations left, [break] when [cur]
    is already among [rots]. *)
Fixpoint build_loop (n : nat) (rots : list shape) (cur : shape) : list shape :=
  match n with
  | O => rots
  | S n' =>
      if existsb (shape_eqb cur) rots then rots
      else build_loop n' (rots ++ [cur]) (rotate cur)
  end.

Definition build_rotations (base : shape) : list shape :=
  build_loop 4 [] base.

Definition ROTATIONS (p : piece) : list shape := build_rotations (SHAPES_BASE p).

Definition PIECES : list piece := [pI; pO; pT; pS; pZ; pJ; pL].

Definition PIECE_TO_IDX (p : piece) : Z :=
  match p with
  | pI => 0 | pO => 1 | pT => 2 | pS => 3 | pZ => 4 | pJ => 5 | pL => 6
  end.

(** ** Board model *)

Definition create_grid : grid :=
  replicate (Z.to_nat ROWS) (replicate (Z.to_nat COLS) 0).

(** The test of one occupied cell of the shape in [valid_move]:
    [nx < 0 or nx >= cols or ny >= rows or (ny >= 0 and g[ny][nx])]. *)
Definition blocked (g : grid) (nx ny : Z) : res bool :=
  if (nx <? 0) || (nx >=? COLS) || (ny >=? ROWS) then Ok true
  else if ny >=? 0 then
    do r <- py_index g ny;
    do v <- py_index r nx;
    Ok (truthy v)
  else Ok false.

(** The inner loop of [valid_move] over the cells of a shape row, from
    column [x] on. *)
Fixpoint valid_cells (g : grid) (ox oy y x : Z) (cells : list Z) : res bool :=
  match cells with
  | [] => Ok true
  | cell :: rest =>
      if truthy cell then
        do b <- blocked g (x + ox) (y + oy);
        if b then Ok false else valid_cells g ox oy y (x + 1) rest
      else valid_cells g ox oy y (x + 1) rest
  end.

(** The outer loop of [valid_move] over the shape rows, from row [y] on. *)
Fixpoint valid_rows (g : grid) (ox oy y : Z) (sh : shape) : res bool :=
  match sh with
  | [] => Ok true
  | r :: rest =>
      do b <- valid_cells g ox oy y 0 r;
      if b then valid_rows g ox oy (y + 1) rest else Ok false
  end.

Definition valid_move (g : grid) (sh : shape) (offset : Z * Z) : res bool :=
  let '(ox, oy) := offset in
  valid_rows g ox oy 0 sh.

(** [grid[r][c] = v] *)
Definition set_cell (g : grid) (r c v : Z) : res grid :=
  do old <- py_index g r;
  do new <- py_setitem old c v;
  py_setitem g r new.

Fixpoint lock_cells (g : grid) (ox oy y x : Z) (cells : list Z) (v : Z) : res grid :=
  match cells with
  | [] => Ok g
  | cell :: rest =>
      if truthy cell then
        do g' <- set_cell g (y + oy) (x + ox) v;
        lock_cells g' ox oy y (x + 1) rest v
      else lock_cells g ox oy y (x + 1) rest v
  end.

Fixpoint lock_rows (g : grid) (ox oy y : Z) (sh : shape) (v : Z) : res grid :=
  match sh with
  | [] => Ok g
  | r :: rest =>
      do g' <- lock_cells g ox oy y 0 r v;
      lock_rows g' ox oy (y + 1) rest v
  end.

(** [lock_piece] writes [color_idx + 1] into the grid; the grid after the
    call is the result. *)
Definition lock_piece (g : grid) (sh : shape) (offset : Z * Z) (color_idx : Z) : res grid :=
  let '(ox, oy) := offset in
  lock_rows g ox oy 0 sh (color_idx + 1).

(** [any(c == 0 for c in row)] *)
Definition has_zero (r : list Z) : bool := existsb (fun c => c =? 0) r.

Definition remove_lines (g : grid) : grid * Z :=
  let new_grid := List.filter has_zero g in
  let lines := ROWS - Z.of_nat (length new_grid) in
  if truthy lines
  then (replicate (Z.to_nat lines) (replicate (Z.to_nat COLS) 0) ++ new_grid, lines)
  else (new_grid, lines).

(** A [for] loop with no [break]: the body runs on each element in turn
    and hands its state to the next run. *)
Fixpoint for_each {A St : Type} (xs : list A) (body : A -> St -> res St) (st : St)
  : res St :=
  match xs with
  | [] => Ok st
  | x :: xs' =>
      do st' <- body x st;
      for_each xs' body st'
  end.

(** [enumerate(l)] *)
Definition enumerate {A : Type} (l : list A) : list (nat * A) :=
  combine (seq 0 (length l)) l.

(** The state of the scan of one column in [get_heights_and_holes]:
    the list [heights], the flag [block_found] and the counter [holes_col]. *)
Abbreviation scan_state := (list Z * bool * Z)%type (only parsing).

(** The body of the loop [for r in range(ROWS)] for column [c]. *)
Definition scan_cell (g : grid) (c r : Z) (st : scan_state) : res scan_state :=
  let '(heights, block_found, holes_col) := st in
  do line <- py_index g r;
  do v <- py_index line c;
  if truthy v then
    if negb block_found then
      do heights' <- py_setitem heights c (ROWS - r);
      Ok (heights', true, holes_col)
    else Ok st
  else
    if block_found then Ok (heights, block_found, holes_col + 1)
    else Ok st.

(** The body of the loop [for c in range(COLS)], on [heights] and
    [total_holes]. *)
Definition scan_col (g : grid) (c : Z) (st : list Z * Z) : res (list Z * Z) :=
  let '(heights, total_holes) := st in
  do st' <- for_each (seqZ 0 ROWS) (scan_cell g c) (heights, false, 0);
  let '(heights', _, holes_col) := st' in
  Ok (heights', total_holes + holes_col).

Definition get_heights_and_holes (g : grid) : res (list Z * Z) :=
  for_each (seqZ 0 COLS) (scan_col g) (replicate (Z.to_nat COLS) 0, 0).

(** The body of the loop of [bumpiness_from_heights], on the sum [s]. *)
Definition bump_step (heights : list Z) (i : Z) (s : Z) : res Z :=
  do a <- py_index heights i;
  do b <- py_index heights (i + 1);
  Ok (s + Z.abs (a - b)).

Definition bumpiness_from_heights (heights : list Z) : res Z :=
  for_each (seqZ 0 (COLS - 1)) (bump_step heights) 0.

(** [sum(heights)] *)
Definition aggregate_height (heights : list Z) : Z :=
  fold_left Z.add heights 0.

(** ** The heuristic, in binary64 *)

(** A Python int as a float operand: the nearest binary64 value (the int
    itself below 2^53 in absolute value).  The embedding is that of Python
    for ints below 2^63 in absolute value, far above any count of a
    board. *)
Definition float_of_int (z : Z) : float :=
  if z <? 0 then (- of_uint63 (Uint63.of_Z (- z)))%float
  else of_uint63 (Uint63.of_Z z).

Definition evaluate (g : grid) (lines : Z) : res float :=
  do hh <- get_heights_and_holes g;
  let '(heights, holes) := hh in
  do bump <- bumpiness_from_heights heights;
  Ok (-0.51066 * float_of_int (aggregate_height heights)
      + 0.760666 * float_of_int lines
      - 0.35663 * float_of_int holes
      - 0.184483 * float_of_int bump)%float.

(** ** The search *)

(** The loop of [hard_drop] from [row] on.  [fuel] bounds the number of
    tests of the loop condition; [Err OutOfFuel] says the loop was still
    running when the fuel ran out. *)
Fixpoint hard_drop_loop (fuel : nat) (g : grid) (sh : shape) (col row : Z) : res Z :=
  match fuel with
  | O => Err OutOfFuel
  | S fuel' =>
      do ok <- valid_move g sh (col, row + 1);
      if ok then hard_drop_loop fuel' g sh col (row + 1) else Ok row
  end.

Definition hard_drop (fuel : nat) (g : grid) (sh : shape) (col : Z) : res Z :=
  hard_drop_loop fuel g sh col 0.

(** [best_score], [best_col], [best_rot] *)
Abbreviation best_state := (float * Z * nat)%type (only parsing).

(** The body of the inner loop of [best_move] for one candidate column.
    The copy [temp] of the grid is the grid as a value. *)
Definition try_candidate (fuel : nat) (g : grid) (color_idx : Z)
    (rot_idx : nat) (sh : shape) (col : Z) (best : best_state) : res best_state :=
  do row <- hard_drop fuel g sh col;
  do ok <- valid_move g sh (col, row);
  if negb ok then Ok best
  else
    do temp <- lock_piece g sh (col, row) color_idx;
    let '(temp', lines) := remove_lines temp in
    do score <- evaluate temp' lines;
    let '(best_score, _, _) := best in
    if (best_score <? score)%float then Ok (score, col, rot_idx) else Ok best.

(** The body of the outer loop of [best_move] for one rotation:
    [for col in range(max_col)] runs [try_candidate]. *)
Definition try_rotation (fuel : nat) (g : grid) (color_idx : Z)
    (rot : nat * list (list Z)) (best : best_state) : res best_state :=
  let '(rot_idx, sh) := rot in
  do first_row <- py_index sh 0;
  let width := Z.of_nat (length first_row) in
  let max_col := COLS - width + 1 in
  for_each (seqZ 0 max_col) (try_candidate fuel g color_idx rot_idx sh) best.

Definition best_move (fuel : nat) (g : grid) (piece_name : piece)
    (rotations_list : list shape) : res (Z * nat) :=
  let color_idx := PIECE_TO_IDX piece_name in
  do best <- for_each (enumerate rotations_list) (try_rotation fuel g color_idx)
               (neg_infinity, 0, 0%nat);
  let '(_, best_col, best_rot) := best in
  Ok (best_col, best_rot).

(** ** The board as shared objects

    In Python a grid is a list object whose items are references to row
    objects, and [lock_piece] writes into the row objects it is given.
    Here the row objects live in a heap, a grid is the list of the
    addresses of its rows, and the functions that write thread the heap.
    The functions that only read ([valid_move], [hard_drop], [evaluate])
    see the rows through [deref].  Nothing in [best_move] assigns to an
    item of an outer list, so the outer lists are values. *)

Abbreviation heap := (gmap nat (list Z)).

Definition read_row (h : heap) (l : nat) : res (list Z) :=
  match h !! l with
  | Some r => Ok r
  | None => Err BadRef
  end.

(** The grid of address list [g], as a value. *)
Fixpoint deref (h : heap) (g : list nat) : res (list (list Z)) :=
  match g with
  | [] => Ok []
  | l :: g' =>
      do r <- read_row h l;
      do rest <- deref h g';
      Ok (r :: rest)
  end.

(** A new row object. *)
Definition alloc (h : heap) (r : list Z) : nat * heap :=
  let l := fresh (dom h) in (l, <[l := r]> h).

(** [[r[:] for r in g]]: a new row object for each row of [g]. *)
Fixpoint copy_rows (h : heap) (g : list nat) : res (list nat * heap) :=
  match g with
  | [] => Ok ([], h)
  | l :: g' =>
      do r <- read_row h l;
      do rest <- copy_rows (snd (alloc h r)) g';
      Ok (fst (alloc h r) :: fst rest, snd rest)
  end.

(** [grid[r][c] = v]: the row object of address [grid[r]] is written. *)
Definition set_cell_h (h : heap) (g : list nat) (r c v : Z) : res heap :=
  do l <- py_index g r;
  do old <- read_row h l;
  do new <- py_setitem old c v;
  Ok (<[l := new]> h).

Fixpoint lock_cells_h (h : heap) (g : list nat) (ox oy y x : Z) (cells : list Z)
    (v : Z) : res heap :=
  match cells with
  | [] => Ok h
  | cell :: rest =>
      if truthy cell then
        do h' <- set_cell_h h g (y + oy) (x + ox) v;
        lock_cells_h h' g ox oy y (x + 1) rest v
      else lock_cells_h h g ox oy y (x + 1) rest v
  end.

Fixpoint lock_rows_h (h : heap) (g : list nat) (ox oy y : Z) (sh : shape) (v : Z)
  : res heap :=
  match sh with
  | [] => Ok h
  | r :: rest =>
      do h' <- lock_cells_h h g ox oy y 0 r v;
      lock_rows_h h' g ox oy (y + 1) rest v
  end.

Definition lock_piece_h (h : heap) (g : list nat) (sh : shape) (offset : Z * Z)
    (color_idx : Z) : res heap :=
  let '(ox, oy) := offset in
  lock_rows_h h g ox oy 0 sh (color_idx + 1).

(** [[row for row in grid if any(c == 0 for c in row)]]: the kept rows are
    the same objects. *)
Fixpoint keep_rows (h : heap) (g : list nat) : res (list nat) :=
  match g with
  | [] => Ok []
  | l :: g' =>
      do r <- read_row h l;
      do rest <- keep_rows h g';
      Ok (if has_zero r then l :: rest else rest)
  end.

(** [[[0]*COLS for _ in range(n)]]: [n] new row objects. *)
Fixpoint alloc_rows (h : heap) (n : nat) : list nat * heap :=
  match n with
  | O => ([], h)
  | S n' =>
      let a := alloc h (replicate (Z.to_nat COLS) 0) in
      let rest := alloc_rows (snd a) n' in
      (fst a :: fst rest, snd rest)
  end.

Definition remove_lines_h (h : heap) (g : list nat) : res (list nat * Z * heap) :=
  do new_grid <- keep_rows h g;
  let lines := ROWS - Z.of_nat (length new_grid) in
  if truthy lines
  then
    let fresh_rows := alloc_rows h (Z.to_nat lines) in
    Ok (fst fresh_rows ++ new_grid, lines, snd fresh_rows)
  else Ok (new_grid, lines, h).

Definition valid_move_h (h : heap) (g : list nat) (sh : shape) (offset : Z * Z)
  : res bool :=
  do gv <- deref h g;
  valid_move gv sh offset.

Definition hard_drop_h (fuel : nat) (h : heap) (g : list nat) (sh : shape) (col : Z)
  : res Z :=
  do gv <- deref h g;
  hard_drop fuel gv sh col.

Definition evaluate_h (h : heap) (g : list nat) (lines : Z) : res float :=
  do gv <- deref h g;
  evaluate gv lines.

(** The body of the inner loop of [best_move]; the state of the loop is
    the best so far and the heap. *)
Definition try_candidate_h (fuel : nat) (g : list nat) (color_idx : Z)
    (rot_idx : nat) (sh : shape) (col : Z) (st : best_state * heap)
  : res (best_state * heap) :=
  let '(best, h) := st in
  do row <- hard_drop_h fuel h g sh col;
  do ok <- valid_move_h h g sh (col, row);
  if negb ok then Ok (best, h)
  else
    do copied <- copy_rows h g;
    let '(temp, h1) := copied in
    do h2 <- lock_piece_h h1 temp sh (col, row) color_idx;
    do cleared <- remove_lines_h h2 temp;
    let '(temp', lines, h3) := cleared in
    do score <- evaluate_h h3 temp' lines;
    let '(best_score, _, _) := best in
    if (best_score <? score)%float then Ok ((score, col, rot_idx), h3)
    else Ok (best, h3).

Definition try_rotation_h (fuel : nat) (g : list nat) (color_idx : Z)
    (rot : nat * list (list Z)) (st : best_state * heap)
  : res (best_state * heap) :=
  let '(rot_idx, sh) := rot in
  do first_row <- py_index sh 0;
  let width := Z.of_nat (length first_row) in
  let max_col := COLS - width + 1 in
  for_each (seqZ 0 max_col) (try_candidate_h fuel g color_idx rot_idx sh) st.

(** [best_move] on the heap [h], for the grid of address list [g]: the
    pair returned and the heap after the call. *)
Definition best_move_h (fuel : nat) (h : heap) (g : list nat) (piece_name : piece)
    (rotations_list : list shape) : res (Z * nat * heap) :=
  let color_idx := PIECE_TO_IDX piece_name in
  do st <- for_each (enumerate rotations_list) (try_rotation_h fuel g color_idx)
             ((neg_infinity, 0, 0%nat), h);
  let '((_, best_col, best_rot), h') := st in
  Ok (best_col, best_rot, h').

(** ** Drawing

    [draw_grid] paints the board on a pygame surface.  The surface is the
    list of the [pygame.draw.rect] calls made on it, in order: each call
    with its colour, the rectangle (left, top, width, height) and the
    line width (0 to fill the rectangle). *)

Abbreviation color := (Z * Z * Z)%type (only parsing).

Definition CELL_SIZE : Z := 30.
Definition WIDTH : Z := COLS * CELL_SIZE.
Definition HEIGHT : Z := ROWS * CELL_SIZE.

Definition COLORS (p : piece) : color :=
  match p with
  | pI => (0, 255, 255)
  | pO => (255, 255, 0)
  | pT => (128, 0, 128)
  | pS => (0, 255, 0)
  | pZ => (255, 0, 0)
  | pJ => (0, 0, 255)
  | pL => (255, 165, 0)
  end.

Definition BLACK : color := (0, 0, 0).
Definition GRAY : color := (40, 40, 40).
Definition WHITE : color := (255, 255, 255).

Definition COLOR_LIST : list color := map COLORS PIECES.

Record draw_rect := Rect {
  rect_color : color;
  rect_left : Z;
  rect_top : Z;
  rect_width : Z;
  rect_height : Z;
  line_width : Z }.

(** The body of the loop [for x in range(COLS)] of [draw_grid], for the
    row [row] of index [y]. *)
Definition draw_cell (row : list Z) (y x : Z) (surface : list draw_rect)
  : res (list draw_rect) :=
  do val <- py_index row x;
  do c <- (if val =? 0 then Ok BLACK else py_index COLOR_LIST (val - 1));
  Ok (surface ++
      [Rect c (x * CELL_SIZE) (y * CELL_SIZE) CELL_SIZE CELL_SIZE 0;
       Rect GRAY (x * CELL_SIZE) (y * CELL_SIZE) CELL_SIZE CELL_SIZE 1]).

(** The body of the loop [for y in range(ROWS)]. *)
Definition draw_row (g : grid) (y : Z) (surface : list draw_rect)
  : res (list draw_rect) :=
  do row <- py_index g y;
  for_each (seqZ 0 COLS) (draw_cell row y) surface.

Definition draw_grid (surface : list draw_rect) (g : grid) : res (list draw_rect) :=
  for_each (seqZ 0 ROWS) (draw_row g) surface.

(** The body of the inner loop of [draw_piece], on the cell [cellval] of
    index [x] in the row of index [y]. *)
Definition draw_piece_cell (ox oy : Z) (c : color) (y : nat) (xv : nat * Z)
    (surface : list draw_rect) : list draw_rect :=
  if truthy (snd xv) then
    surface ++
    [Rect c ((ox + Z.of_nat (fst xv)) * CELL_SIZE) ((oy + Z.of_nat y) * CELL_SIZE)
       CELL_SIZE CELL_SIZE 0;
     Rect WHITE ((ox + Z.of_nat (fst xv)) * CELL_SIZE) ((oy + Z.of_nat y) * CELL_SIZE)
       CELL_SIZE CELL_SIZE 2]
  else surface.

Definition draw_piece (surface : list draw_rect) (sh : shape) (offset : Z * Z)
    (c : color) : list draw_rect :=
  let '(ox, oy) := offset in
  fold_left
    (fun surf yr =>
       fold_left (fun surf' xv => draw_piece_cell ox oy c (fst yr) xv surf')
         (enumerate (snd yr)) surf)
    (enumerate sh) surface.

(** ** The game loop

    The script after the definitions: the bag of seven pieces, the
    variables of the game and the body of [while running].  The window,
    the clock, the font and the text calls do not touch these variables
    and are taken to return.  What the loop takes from outside is, for
    each frame, whether a QUIT event is among the events of the frame and
    the order that [random.shuffle] gives to the copy of [PIECES], should
    the bag be refilled in that frame. *)

Module Game.

Record state := mk {
  grid : list (list Z);
  bag : list piece;
  current_piece : piece;
  current_rotations : list (list (list Z));
  current_shape : list (list Z);
  pos_x : Z;
  pos_y : Z;
  score : Z;
  lines_total : Z;
  target_y : Z;
  running : bool }.

(** [next_piece]: the bag is refilled with [shuffled] when it is empty,
    then its first item is popped. *)
Definition next_piece (shuffled : list piece) (bag : list piece)
  : res (piece * list piece) :=
  let bag := match bag with [] => shuffled | _ => bag end in
  match bag with
  | [] => Err IndexError
  | p :: rest => Ok (p, rest)
  end.

(** The script up to the loop: the first bag is [shuffled], and the first
    piece is popped from it ([refill] is the order of a refill, should
    [next_piece] find the bag empty). *)
Definition start (shuffled refill : list piece) : res state :=
  do pb <- next_piece refill shuffled;
  let '(p, bag) := pb in
  let rots := ROTATIONS p in
  do sh <- py_index rots 0;
  Ok (mk create_grid bag p rots sh 3 0 0 0 0 true).

(** The placement chosen on spawn: [pos_x], [current_shape] and
    [target_y] after the [if pos_y == 0] block. *)
Definition place (fuel : nat) (s : state) : res (Z * list (list Z) * Z) :=
  if pos_y s =? 0 then
    do cr <- best_move fuel (grid s) (current_piece s) (current_rotations s);
    let '(col, rot) := cr in
    do sh <- py_index (current_rotations s) (Z.of_nat rot);
    do ty <- hard_drop fuel (grid s) sh col;
    Ok (col, sh, ty)
  else Ok (pos_x s, current_shape s, target_y s).

(** One run of the body of [while running]. *)
Definition loop_body (fuel : nat) (quit : bool) (shuffled : list piece) (s : state)
  : res state :=
  let run := if quit then false else running s in
  do placed <- place fuel s;
  let '(px, sh, ty) := placed in
  do s' <-
    (if pos_y s <? ty then
       Ok (mk (grid s) (bag s) (current_piece s) (current_rotations s) sh
             px (pos_y s + 1) (score s) (lines_total s) ty run)
     else
       do locked <- lock_piece (grid s) sh (px, ty) (PIECE_TO_IDX (current_piece s));
       let '(g, lines) := remove_lines locked in
       let total := lines_total s + lines in
       do points <- py_index [0; 100; 300; 500; 800] (Z.min lines 4);
       let sc := score s + points * (total / 10 + 1) in
       do pb <- next_piece shuffled (bag s);
       let '(p, bag') := pb in
       let rots := ROTATIONS p in
       do sh' <- py_index rots 0;
       do ok <- valid_move g sh' (3, 0);
       Ok (mk g bag' p rots sh' 3 0 sc total 0 (if negb ok then false else run)));
  do _ <- draw_grid [] (grid s');
  Ok s'.

(** The loop, over the frames given: it stops when [running] is false. *)
Fixpoint main_loop (fuel : nat) (frames : list (bool * list piece)) (s : state)
  : res state :=
  match frames with
  | [] => Ok s
  | (quit, shuffled) :: rest =>
      if running s then
        do s' <- loop_body fuel quit shuffled s;
        main_loop fuel rest s'
      else Ok s
  end.

End Game.

(** * Specification vocabulary *)

(** *** Boards and placements *)

(** A board: [ROWS] rows of [COLS] cells. *)
Definition wf_grid (g : grid) : Prop :=
  length g = Z.to_nat ROWS /\ Forall (fun r => length r = Z.to_nat COLS) g.

(** The value of the board cell at row [r], column [c]; 0 outside the
    grid. *)
Definition cell_at (g : grid) (r c : Z) : Z :=
  if (0 <=? r) && (0 <=? c) then
    match g !! Z.to_nat r with
    | Some line => match line !! Z.to_nat c with Some v => v | None => 0 end
    | None => 0
    end
  else 0.

(** The shape has an occupied cell at row [y], column [x]. *)
Definition shape_cell (sh : shape) (y x : nat) : Prop :=
  exists r v, sh !! y = Some r /\ r !! x = Some v /\ v <> 0.

(** What makes [valid_move] refuse a cell at the absolute position
    (column [nx], row [ny]). *)
Definition cell_refused (g : grid) (nx ny : Z) : Prop :=
  nx < 0 \/ nx >= COLS \/ ny >= ROWS \/ (ny >= 0 /\ cell_at g ny nx <> 0).

(** Some occupied cell of the shape placed at (column [ox], row [oy]) is
    refused. *)
Definition collides (g : grid) (sh : shape) (ox oy : Z) : Prop :=
  exists y x, shape_cell sh y x /\
    cell_refused g (Z.of_nat x + ox) (Z.of_nat y + oy).

(** *** Pieces *)

#[global] Instance piece_eq_dec : EqDecision piece.
Proof. solve_decision. Defined.

(** *** Full rows *)

(** A row is full when every cell is non-empty. *)
Definition full_row (r : list Z) : bool := forallb truthy r.

(** *** Heights and holes *)

(** The board cell of column [c], row [r] is occupied. *)
Definition occupied_at (g : grid) (c r : Z) : bool := truthy (cell_at g r c).

(** The row index of the topmost occupied cell of column [c]. *)
Definition topmost (g : grid) (c : Z) : option Z :=
  List.find (occupied_at g c) (seqZ 0 ROWS).

Definition column_height (g : grid) (c : Z) : Z :=
  match topmost g c with
  | Some r => ROWS - r
  | None => 0
  end.

(** A hole: an empty cell with an occupied cell of its column in a row
    above it. *)
Definition is_hole (g : grid) (c r : Z) : bool :=
  negb (occupied_at g c r) && existsb (occupied_at g c) (seqZ 0 r).

Definition column_holes (g : grid) (c : Z) : Z :=
  Z.of_nat (length (List.filter (is_hole g c) (seqZ 0 ROWS))).

(** The number of holes of the board, over all its cells. *)
Definition hole_count (g : grid) : Z :=
  Z.of_nat (length (List.filter (fun cr => is_hole g (fst cr) (snd cr))
                      (list_prod (seqZ 0 COLS) (seqZ 0 ROWS)))).

(** The heights after the first [n] columns: the heights of those columns,
    then zeros. *)
Definition heights_prefix (g : grid) (n : nat) : list Z :=
  map (column_height g) (seqZ 0 (Z.of_nat n)) ++
  replicate (Z.to_nat COLS - n) 0.

Definition holes_prefix (g : grid) (n : nat) : Z :=
  fold_right Z.add 0 (map (column_holes g) (seqZ 0 (Z.of_nat n))).

(** *** The statistics of the score *)

(** The sum of the column heights. *)
Definition heights_sum (g : grid) : Z :=
  fold_right Z.add 0 (map (column_height g) (seqZ 0 COLS)).

(** The sum of the absolute differences of the heights of adjacent
    columns. *)
Definition bumpiness (g : grid) : Z :=
  fold_right Z.add 0
    (map (fun i => Z.abs (column_height g i - column_height g (i + 1)))
       (seqZ 0 (COLS - 1))).

(** *** Floats of ordinary size *)

(** Zero, or finite and below [2^K] in absolute value. *)
Definition small (K : Z) (x : spec_float) : Prop :=
  match x with
  | S754_zero _ => True
  | S754_finite _ m e => Zdigits2 (Zpos m) + e <= K
  | _ => False
  end.

(** A float of ordinary size: a zero or a finite number below 2^14 in
    absolute value.  Every score of a board is one. *)
Definition ordinary (s : float) : Prop := small 14 (Prim2SF s).

Definition smallb (K : Z) (x : spec_float) : bool :=
  match x with
  | S754_zero _ => true
  | S754_finite _ m e => Zdigits2 (Zpos m) + e <=? K
  | _ => false
  end.

(** The four terms of the score, for counts up to 200. *)
Definition term_ok (c : float) : bool :=
  forallb (fun n => smallb 8 (Prim2SF (c * float_of_int n)%float)) (seqZ 0 201).

(** *** The search, as an enumeration of scored candidates *)

(** The width of a rotation matrix: the length of its first row. *)
Definition width (sh : shape) : Z :=
  match sh with
  | [] => 0
  | first_row :: _ => Z.of_nat (length first_row)
  end.

(** The candidates in the order of the search: rotation index ascending,
    and for each rotation of width [w] the columns 0 .. COLS - w
    ascending. *)
Definition candidates (rots : list shape) : list (nat * list (list Z) * Z) :=
  flat_map
    (fun rot => map (fun col => (fst rot, snd rot, col))
                  (seqZ 0 (COLS - width (snd rot) + 1)))
    (enumerate rots).

(** The score of one candidate: the hard-drop row, the validation of the
    final placement ([None] when it is refused), then lock, clear and
    evaluate on the copy. *)
Definition candidate_score (fuel : nat) (g : grid) (color_idx : Z)
    (sh : shape) (col : Z) : res (option float) :=
  do row <- hard_drop fuel g sh col;
  do ok <- valid_move g sh (col, row);
  if negb ok then Ok None
  else
    do temp <- lock_piece g sh (col, row) color_idx;
    do score <- evaluate (fst (remove_lines temp)) (snd (remove_lines temp));
    Ok (Some score).

(** The candidates that pass validation, in order, with their scores. *)
Fixpoint scored_candidates (fuel : nat) (g : grid) (color_idx : Z)
    (cands : list (nat * list (list Z) * Z)) : res (list (nat * Z * float)) :=
  match cands with
  | [] => Ok []
  | c :: rest =>
      do os <- candidate_score fuel g color_idx (snd (fst c)) (snd c);
      do tl <- scored_candidates fuel g color_idx rest;
      Ok (match os with
          | Some s => (fst (fst c), snd c, s) :: tl
          | None => tl
          end)
  end.

(** Strict greater-than: a scored candidate replaces the best so far only
    when its score is greater. *)
Definition pick (best : best_state) (c : nat * Z * float) : best_state :=
  if (fst (fst best) <? snd c)%float then (snd c, snd (fst c), fst (fst c))
  else best.

(** A shape with an occupied cell. *)
Definition has_cell (sh : shape) : Prop := exists y x, shape_cell sh y x.

(** *** The first maximum *)

(** [best] is the first maximum of the scored candidates [l]: it is the
    entry of some index [k], no entry has a greater score, and every entry
    before [k] has a smaller score. *)
Definition first_max (l : list (nat * Z * float)) (best : best_state) : Prop :=
  exists k, l !! k = Some (snd best, snd (fst best), fst (fst best)) /\
    (forall c, In c l -> (fst (fst best) <? snd c)%float = false) /\
    (forall j c, (j < k)%nat -> l !! j = Some c ->
       (snd c <? fst (fst best))%float = true).

(** *** The order of the enumeration *)

(** [c1] comes before [c2]: a smaller rotation index, or the same rotation
    index and a smaller column. *)
Definition cand_before (c1 c2 : nat * list (list Z) * Z) : Prop :=
  (fst (fst c1) < fst (fst c2))%nat \/
  (fst (fst c1) = fst (fst c2) /\ snd c1 < snd c2).

(** *** Boards and heaps of the examples *)

(** A board with no two adjacent empty cells: empty and occupied cells
    alternate like the squares of a checkerboard.  No row is full and no
    piece fits anywhere. *)
Definition checker : grid :=
  map (fun r => map (fun c => (r + c) mod 2) (seqZ 0 COLS)) (seqZ 0 ROWS).

Definition has_cellb (sh : shape) : bool := existsb (existsb truthy) sh.

(** The final placement of the candidate [c] is refused. *)
Definition refused_b (fuel : nat) (g : grid) (c : nat * list (list Z) * Z) : bool :=
  match hard_drop fuel g (snd (fst c)) (snd c) with
  | Ok row =>
      match valid_move g (snd (fst c)) (snd c, row) with
      | Ok true => false
      | _ => true
      end
  | Err _ => true
  end.

(** What a write through the grid [g] leaves alone: the objects that are
    not rows of [g]. *)
Definition frame (g : list nat) (h h' : heap) : Prop :=
  forall l, l ∉ g -> h' !! l = h !! l.

(** The heap of a grid value alone: row [i] at address [i]. *)
Definition heap_of (gv : list (list Z)) : heap :=
  list_to_map (combine (seq 0 (length gv)) gv).

(** *** Placements on the board *)

(** The item of index [i] of a row of cells; 0 outside the row. *)
Definition row_item (cells : list Z) (i : Z) : Z :=
  if 0 <=? i then
    match cells !! Z.to_nat i with
    | Some v => v
    | None => 0
    end
  else 0.

(** The shape [sh] placed at column [col], row [row] covers the cell of
    row [r], column [c]: the cell of the shape that lands there is
    occupied. *)
Definition covers (sh : shape) (col row r c : Z) : bool :=
  truthy (cell_at sh (r - row) (c - col)).

(** Every occupied cell of the placement is a cell of the board. *)
Definition inside (sh : shape) (col row : Z) : Prop :=
  forall y x, shape_cell sh y x ->
    0 <= Z.of_nat x + col < COLS /\ 0 <= Z.of_nat y + row < ROWS.

(** Every occupied cell of the placement is within reach of a Python
    subscript of the board, negative indices included. *)
Definition in_reach (sh : shape) (col row : Z) : Prop :=
  forall y x, shape_cell sh y x ->
    - COLS <= Z.of_nat x + col < COLS /\ - ROWS <= Z.of_nat y + row < ROWS.

(** [inside], as a test. *)
Definition insideb (sh : shape) (col row : Z) : bool :=
  forallb
    (fun yr =>
       forallb
         (fun xv =>
            negb (truthy (snd xv)) ||
            ((0 <=? Z.of_nat (fst xv) + col) && (Z.of_nat (fst xv) + col <? COLS) &&
             (0 <=? Z.of_nat (fst yr) + row) && (Z.of_nat (fst yr) + row <? ROWS)))
         (enumerate (snd yr)))
    (enumerate sh).

(** The empty board after a T piece has been locked at the bottom, in
    columns 3 to 5. *)
Definition board_with_T : grid :=
  replicate 18 (replicate 10 0) ++
  [[0; 0; 0; 0; 3; 0; 0; 0; 0; 0]; [0; 0; 0; 3; 3; 3; 0; 0; 0; 0]].

(** *** Matrices *)

(** The entry of row [i], column [j] of a matrix; 0 outside it. *)
Definition entry (sh : shape) (i j : nat) : Z := nth j (nth i sh []) 0.

(** A matrix of [h] rows of [w] entries each. *)
Definition rect (h w : nat) (sh : shape) : Prop :=
  length sh = h /\ Forall (fun r => length r = w) sh.

(** [k] quarter turns. *)
Definition turns (k : nat) (sh : shape) : shape := Nat.iter k rotate sh.

(** *** Drawing *)

(** The cell values that [draw_grid] can paint: 0, and the values [v]
    for which [v - 1] is a subscript of the seven colours, negative
    subscripts included. *)
Definition drawableb (v : Z) : bool := (-6 <=? v) && (v <=? 7).

(** The colour [draw_grid] gives to a cell of value [v]. *)
Definition cell_color (v : Z) : color :=
  if v =? 0 then BLACK
  else nth (Z.to_nat (if v - 1 <? 0 then v - 1 + 7 else v - 1)) COLOR_LIST BLACK.

(** The two rectangles of the cell of row [y], column [x]. *)
Definition cell_rects (g : grid) (y x : Z) : list draw_rect :=
  [Rect (cell_color (cell_at g y x)) (x * CELL_SIZE) (y * CELL_SIZE)
     CELL_SIZE CELL_SIZE 0;
   Rect GRAY (x * CELL_SIZE) (y * CELL_SIZE) CELL_SIZE CELL_SIZE 1].

(** The rectangles of the board, row by row. *)
Definition painted (g : grid) : list draw_rect :=
  flat_map (fun y => flat_map (cell_rects g y) (seqZ 0 COLS)) (seqZ 0 ROWS).

(** The rectangle lies in the part of the window that shows the board,
    [WIDTH] by [HEIGHT] pixels from the top left corner. *)
Definition within_board (r : draw_rect) : Prop :=
  0 <= rect_left r /\ rect_left r + rect_width r <= WIDTH /\
  0 <= rect_top r /\ rect_top r + rect_height r <= HEIGHT.

(** The two rectangles of the piece cell of row [y], column [x]. *)
Definition piece_rects (ox oy : Z) (c : color) (y x : nat) : list draw_rect :=
  [Rect c ((ox + Z.of_nat x) * CELL_SIZE) ((oy + Z.of_nat y) * CELL_SIZE)
     CELL_SIZE CELL_SIZE 0;
   Rect WHITE ((ox + Z.of_nat x) * CELL_SIZE) ((oy + Z.of_nat y) * CELL_SIZE)
     CELL_SIZE CELL_SIZE 2].

(** *** Occupancy *)

(** The grid with every occupied cell set to 1: what is left of a board
    when the colours are forgotten. *)
Definition occupancy (g : grid) : grid :=
  map (map (fun v => if v =? 0 then 0 else 1)) g.

(** *** The game *)

(** Every cell holds 0 or the number of a piece, 1 to 7. *)
Definition cells_ok (g : grid) : Prop := forall r c, 0 <= cell_at g r c <= 7.

Definition no_full_row (g : grid) : Prop := Forall (fun r => full_row r = false) g.

(** The boards of the game: the cells hold piece numbers and no row is
    full. *)
Definition board_ok (g : grid) : Prop := wf_grid g /\ cells_ok g /\ no_full_row g.

(** The states of the game at the head of the loop.  While [running]
    holds the piece is either just spawned, in a valid placement at column
    3, row 0, or on its way down to row [target_y], where its placement
    is valid and the one a row below is not. *)
Definition game_ok (s : Game.state) : Prop :=
  board_ok (Game.grid s) /\
  Game.current_rotations s = ROTATIONS (Game.current_piece s) /\
  0 <= Game.lines_total s /\ 0 <= Game.score s /\
  (Game.running s = true ->
   (Game.pos_y s = 0 /\
    exists sh, ROTATIONS (Game.current_piece s) !! 0%nat = Some sh /\
      valid_move (Game.grid s) sh (3, 0) = Ok true) \/
   (0 < Game.pos_y s <= Game.target_y s /\
    In (Game.current_shape s) (ROTATIONS (Game.current_piece s)) /\
    valid_move (Game.grid s) (Game.current_shape s)
      (Game.pos_x s, Game.target_y s) = Ok true /\
    valid_move (Game.grid s) (Game.current_shape s)
      (Game.pos_x s, Game.target_y s + 1) = Ok false)).

(** [n] calls of [next_piece] in a row: the pieces returned and the bag
    left. *)
Fixpoint draw_pieces (n : nat) (shuffled : list piece) (bag : list piece)
  : res (list piece * list piece) :=
  match n with
  | O => Ok ([], bag)
  | S n' =>
      do pb <- Game.next_piece shuffled bag;
      do rest <- draw_pieces n' shuffled (snd pb);
      Ok (fst pb :: fst rest, snd rest)
  end.

(** The state at the head of the first frame when the first bag is
    [PIECES] in its own order. *)
Definition first_state : Game.state :=
  Game.mk create_grid [pO; pT; pS; pZ; pJ; pL] pI (ROTATIONS pI) (SHAPES_BASE pI)
    3 0 0 0 0 true.

(** * Proofs *)

(** ** Basic facts *)

Lemma bind_Ok {A B : Type} (m : res A) (k : A -> res B) (b : B) :
  bind m k = Ok b <-> exists a, m = Ok a /\ k a = Ok b.
Proof.
  destruct m as [a|e]; simpl.
  - split; [eauto | intros (a' & Ha & Hk); congruence].
  - split; [discriminate | intros (a' & Ha & Hk); discriminate].
Qed.

Lemma py_pos_in_range {A : Type} (l : list A) (i : Z) :
  0 <= i < Z.of_nat (length l) -> py_pos l i = Some (Z.to_nat i).
Proof.
  intros Hi. unfold py_pos.
  destruct (i <? 0) eqn:Hneg; [lia|].
  destruct (0 <=? i) eqn:H0; [|lia].
  destruct (i <? Z.of_nat (length l)) eqn:H1; [reflexivity|lia].
Qed.

Lemma py_index_in_range {A : Type} (l : list A) (i : Z) :
  0 <= i < Z.of_nat (length l) ->
  exists a, l !! Z.to_nat i = Some a /\ py_index l i = Ok a.
Proof.
  intros Hi. unfold py_index. rewrite py_pos_in_range by exact Hi.
  destruct (lookup_lt_is_Some_2 l (Z.to_nat i)) as [a Ha]; [lia|].
  exists a. rewrite Ha. auto.
Qed.

Lemma py_setitem_in_range {A : Type} (l : list A) (i : Z) (v : A) :
  0 <= i < Z.of_nat (length l) ->
  py_setitem l i v = Ok (<[Z.to_nat i := v]> l).
Proof.
  intros Hi. unfold py_setitem. now rewrite py_pos_in_range.
Qed.

Lemma truthy_true (v : Z) : truthy v = true <-> v <> 0.
Proof. unfold truthy. destruct (Z.eqb_spec v 0); simpl; split; congruence. Qed.

Lemma truthy_false (v : Z) : truthy v = false <-> v = 0.
Proof. unfold truthy. destruct (Z.eqb_spec v 0); simpl; split; congruence. Qed.

Lemma wf_grid_row (g : grid) (r : nat) (line : list Z) :
  wf_grid g -> g !! r = Some line -> length line = Z.to_nat COLS.
Proof.
  intros [_ Hall] Hr. rewrite Forall_forall in Hall.
  apply Hall. eapply list_elem_of_lookup_2; eauto.
Qed.

(** On a board, the cell read of [valid_move] is in range whenever it is
    reached. *)
Lemma cell_read (g : grid) (nx ny : Z) :
  wf_grid g -> 0 <= nx < COLS -> 0 <= ny < ROWS ->
  exists line, py_index g ny = Ok line /\ py_index line nx = Ok (cell_at g ny nx).
Proof.
  intros Hwf Hx Hy.
  destruct (py_index_in_range g ny) as (line & Hl & Hi).
  { destruct Hwf as [Hlen _]. rewrite Hlen. lia. }
  exists line. split; [exact Hi|].
  destruct (py_index_in_range line nx) as (v & Hv & Hiv).
  { rewrite (wf_grid_row g _ line Hwf Hl). lia. }
  rewrite Hiv. unfold cell_at.
  replace ((0 <=? ny) && (0 <=? nx)) with true by (symmetry; apply andb_true_iff; lia).
  now rewrite Hl, Hv.
Qed.

Lemma blocked_spec (g : grid) (nx ny : Z) :
  wf_grid g ->
  exists b, blocked g nx ny = Ok b /\ (b = true <-> cell_refused g nx ny).
Proof.
  intros Hwf. unfold blocked, cell_refused.
  destruct (Z.ltb_spec nx 0); simpl.
  { exists true. intuition lia. }
  destruct (Z.geb_spec nx COLS); simpl.
  { exists true. intuition lia. }
  destruct (Z.geb_spec ny ROWS); simpl.
  { exists true. intuition lia. }
  destruct (Z.geb_spec ny 0); simpl.
  - destruct (cell_read g nx ny Hwf) as (line & Hl & Hv); [lia|lia|].
    rewrite Hl. simpl. rewrite Hv. simpl.
    exists (truthy (cell_at g ny nx)). split; [reflexivity|].
    rewrite truthy_true. intuition lia.
  - exists false. split; [reflexivity|]. split; [discriminate|]. intuition lia.
Qed.

Lemma cell_refused_eq (g : grid) (nx ny nx' ny' : Z) :
  nx = nx' -> ny = ny' -> cell_refused g nx ny -> cell_refused g nx' ny'.
Proof. now intros -> ->. Qed.

Ltac refused_by H := eapply cell_refused_eq; [ | | exact H]; simpl; lia.

Lemma valid_cells_spec (g : grid) (ox oy y : Z) (cells : list Z) :
  wf_grid g -> forall x,
  exists b, valid_cells g ox oy y x cells = Ok b /\
    (b = false <->
     exists i v, cells !! i = Some v /\ v <> 0 /\
       cell_refused g (x + Z.of_nat i + ox) (y + oy)).
Proof.
  intros Hwf. induction cells as [|cell rest IH]; intros x; simpl.
  - exists true. split; [reflexivity|]. split; [discriminate|].
    intros (i & v & Hi & _). destruct i; discriminate.
  - destruct (IH (x + 1)) as (b & Hb & Hiff).
    assert (Hshift : (exists i v, rest !! i = Some v /\ v <> 0 /\
                        cell_refused g (x + 1 + Z.of_nat i + ox) (y + oy)) ->
                     exists i v, (cell :: rest) !! i = Some v /\ v <> 0 /\
                        cell_refused g (x + Z.of_nat i + ox) (y + oy)).
    { intros (i & v & Hi & Hv & Hr). exists (S i), v.
      repeat split; auto. refused_by Hr. }
    destruct (truthy cell) eqn:Hc.
    + destruct (blocked_spec g (x + ox) (y + oy) Hwf) as (bl & Hbl & Hbliff).
      rewrite Hbl. simpl. destruct bl.
      * exists false. split; [reflexivity|]. split; [|reflexivity].
        intros _. exists 0%nat, cell. apply truthy_true in Hc.
        repeat split; auto.
        assert (Hr : cell_refused g (x + ox) (y + oy)) by now apply Hbliff.
        refused_by Hr.
      * exists b. split; [exact Hb|]. rewrite Hiff. split; [exact Hshift|].
        intros (i & v & Hi & Hv & Hr). destruct i as [|i]; simpl in Hi.
        -- assert (Hr' : cell_refused g (x + ox) (y + oy)) by refused_by Hr.
           apply Hbliff in Hr'. discriminate.
        -- exists i, v. repeat split; auto. refused_by Hr.
    + exists b. split; [exact Hb|]. rewrite Hiff. split; [exact Hshift|].
      intros (i & v & Hi & Hv & Hr). destruct i as [|i]; simpl in Hi.
      * injection Hi as ->. apply truthy_false in Hc. contradiction.
      * exists i, v. repeat split; auto. refused_by Hr.
Qed.

Lemma valid_rows_spec (g : grid) (ox oy : Z) (sh : shape) :
  wf_grid g -> forall y,
  exists b, valid_rows g ox oy y sh = Ok b /\
    (b = false <->
     exists j i, shape_cell sh j i /\
       cell_refused g (Z.of_nat i + ox) (y + Z.of_nat j + oy)).
Proof.
  intros Hwf. induction sh as [|r rest IH]; intros y; simpl.
  - exists true. split; [reflexivity|]. split; [discriminate|].
    intros (j & i & (r & v & Hj & _) & _). destruct j; discriminate.
  - destruct (valid_cells_spec g ox oy y r Hwf 0) as (b & Hb & Hiff).
    rewrite Hb. simpl. destruct b.
    + destruct (IH (y + 1)) as (b' & Hb' & Hiff').
      exists b'. split; [exact Hb'|]. rewrite Hiff'. split.
      * intros (j & i & (r' & v & Hj & Hi & Hv) & Hr).
        exists (S j), i. split; [exists r', v; auto|]. refused_by Hr.
      * intros (j & i & (r' & v & Hj & Hi & Hv) & Hr).
        destruct j as [|j]; simpl in Hj.
        -- injection Hj as <-.
           assert (true = false) as Habs; [|discriminate].
           apply Hiff. exists i, v. repeat split; auto. refused_by Hr.
        -- exists j, i. split; [exists r', v; auto|]. refused_by Hr.
    + exists false. split; [reflexivity|]. split; [|reflexivity].
      intros _. destruct Hiff as [Hiff _].
      destruct (Hiff eq_refl) as (i & v & Hi & Hv & Hr).
      exists 0%nat, i. split; [exists r, v; auto|]. refused_by Hr.
Qed.

(** [valid_move] on a board returns, and refuses exactly the colliding
    placements. *)
Lemma valid_move_spec (g : grid) (sh : shape) (ox oy : Z) :
  wf_grid g ->
  exists b, valid_move g sh (ox, oy) = Ok b /\ (b = false <-> collides g sh ox oy).
Proof.
  intros Hwf. unfold valid_move, collides.
  destruct (valid_rows_spec g ox oy sh Hwf 0) as (b & Hb & Hiff).
  exists b. split; [exact Hb|]. rewrite Hiff.
  split; intros (j & i & Hc & Hr); exists j, i; (split; [exact Hc|]); refused_by Hr.
Qed.

Lemma wf_create_grid : wf_grid create_grid.
Proof. split; [reflexivity|]. repeat constructor. Qed.

(** ** [valid_move] *)

(** C3. On every board, for every rotation matrix and offset (col, row),
    [valid_move] returns, and it returns false if and only if some occupied
    cell of the matrix has absolute column < 0 or >= COLS, or absolute row
    >= ROWS, or has absolute row >= 0 and lands on an occupied board cell.
    Hence it returns true if and only if every occupied cell is inside the
    horizontal bounds, above the floor and, when its absolute row is >= 0,
    on an empty board cell: a cell of absolute row < 0 is tested against the
    horizontal bounds only. *)
Theorem valid_move_refuses_iff (g : grid) (sh : shape) (col row : Z) :
  wf_grid g ->
  (exists b, valid_move g sh (col, row) = Ok b) /\
  (valid_move g sh (col, row) = Ok false <->
   exists y x, shape_cell sh y x /\
     let nx := Z.of_nat x + col in
     let ny := Z.of_nat y + row in
     nx < 0 \/ nx >= COLS \/ ny >= ROWS \/ (ny >= 0 /\ cell_at g ny nx <> 0)) /\
  (valid_move g sh (col, row) = Ok true <->
   forall y x, shape_cell sh y x ->
     let nx := Z.of_nat x + col in
     let ny := Z.of_nat y + row in
     0 <= nx < COLS /\ ny < ROWS /\ (ny < 0 \/ cell_at g ny nx = 0)).
Proof.
  intros Hwf.
  destruct (valid_move_spec g sh col row Hwf) as (b & Hb & Hiff).
  split; [eauto|]. rewrite Hb. split.
  - split.
    + intros [= ->]. now apply Hiff.
    + intros Hc. f_equal. now apply Hiff.
  - split.
    + intros [= ->] y x Hyx. simpl.
      assert (Hn : ~ cell_refused g (Z.of_nat x + col) (Z.of_nat y + row)).
      { intros Hr. assert (true = false) as Habs; [|discriminate].
        apply Hiff. exists y, x. auto. }
      unfold cell_refused in Hn.
      destruct (Z.eq_dec (cell_at g (Z.of_nat y + row) (Z.of_nat x + col)) 0);
        [lia|].
      split; [lia|]. split; [lia|]. left. lia.
    + intros Hall. f_equal. destruct b; [reflexivity|].
      destruct Hiff as [Hiff _]. destruct (Hiff eq_refl) as (y & x & Hyx & Hr).
      specialize (Hall y x Hyx). simpl in Hall. unfold cell_refused in Hr. lia.
Qed.

Lemma valid_move_refuses_iff_witness :
  wf_grid create_grid /\
  (valid_move create_grid (SHAPES_BASE pT) (3, -1) = Ok true <->
   forall y x, shape_cell (SHAPES_BASE pT) y x ->
     let nx := Z.of_nat x + 3 in
     let ny := Z.of_nat y + -1 in
     0 <= nx < COLS /\ ny < ROWS /\ (ny < 0 \/ cell_at create_grid ny nx = 0)).
Proof.
  split; [exact wf_create_grid|].
  apply (valid_move_refuses_iff create_grid (SHAPES_BASE pT) 3 (-1) wf_create_grid).
Defined.

(** ** [hard_drop] *)

Lemma valid_move_true_cell (g : grid) (sh : shape) (ox oy : Z) (y x : nat) :
  wf_grid g -> valid_move g sh (ox, oy) = Ok true -> shape_cell sh y x ->
  ~ cell_refused g (Z.of_nat x + ox) (Z.of_nat y + oy).
Proof.
  intros Hwf Hv Hc Hr.
  destruct (valid_move_spec g sh ox oy Hwf) as (b & Hb & Hiff).
  rewrite Hv in Hb. injection Hb as <-.
  assert (true = false) as Habs; [|discriminate].
  apply Hiff. exists y, x. auto.
Qed.

Lemma valid_move_total (g : grid) (sh : shape) (ox oy : Z) :
  wf_grid g ->
  valid_move g sh (ox, oy) = Ok true \/ valid_move g sh (ox, oy) = Ok false.
Proof.
  intros Hwf. destruct (valid_move_spec g sh ox oy Hwf) as ([|] & Hb & _); auto.
Qed.

(** The loop from [row] on: with an occupied cell in the shape, every step
    keeps [row] below [ROWS], so [ROWS - row] tests are enough. *)
Lemma hard_drop_loop_spec (g : grid) (sh : shape) (col : Z) :
  wf_grid g -> (exists y x, shape_cell sh y x) ->
  forall (fuel : nat) (row : Z),
    0 <= row < ROWS -> ROWS <= row + Z.of_nat fuel ->
    exists r, hard_drop_loop fuel g sh col row = Ok r /\
      row <= r < ROWS /\
      valid_move g sh (col, r + 1) = Ok false /\
      forall r', row <= r' < r -> valid_move g sh (col, r' + 1) = Ok true.
Proof.
  intros Hwf (y & x & Hyx). induction fuel as [|fuel IH]; intros row Hrow Hfuel.
  - lia.
  - cbn [hard_drop_loop].
    destruct (valid_move_total g sh col (row + 1) Hwf) as [Hv|Hv];
      rewrite Hv; cbn [bind].
    + pose proof (valid_move_true_cell g sh col (row + 1) y x Hwf Hv Hyx) as Hn.
      unfold cell_refused in Hn.
      destruct (IH (row + 1)) as (r & Hr & Hbound & Hstop & Hbefore); [lia|lia|].
      exists r. split; [exact Hr|]. split; [lia|]. split; [exact Hstop|].
      intros r' Hr'. destruct (Z.eq_dec r' row) as [->|Hne]; [exact Hv|].
      apply Hbefore. lia.
    + exists row. split; [reflexivity|]. split; [lia|]. split; [exact Hv|].
      intros r' Hr'. lia.
Qed.

(** More fuel than [ROWS] changes nothing: the row returned is the one of
    the loop itself. *)
Lemma hard_drop_fuel (fuel fuel' : nat) (g : grid) (sh : shape) (col : Z) :
  wf_grid g -> (exists y x, shape_cell sh y x) ->
  ROWS <= Z.of_nat fuel -> ROWS <= Z.of_nat fuel' ->
  hard_drop fuel g sh col = hard_drop fuel' g sh col.
Proof.
  intros Hwf Hcell Hfuel Hfuel'. unfold hard_drop.
  destruct (hard_drop_loop_spec g sh col Hwf Hcell fuel 0)
    as (r & -> & Hr & Hstop & Hbefore); [unfold ROWS; lia|lia|].
  destruct (hard_drop_loop_spec g sh col Hwf Hcell fuel' 0)
    as (r' & -> & Hr' & Hstop' & Hbefore'); [unfold ROWS; lia|lia|].
  f_equal. destruct (Z.lt_trichotomy r r') as [Hlt|[Heq|Hgt]]; [|exact Heq|].
  - rewrite Hbefore' in Hstop by lia. discriminate.
  - rewrite Hbefore in Hstop' by lia. discriminate.
Qed.

(** When the placement at row 0 is valid, so is the one at the hard-drop
    row: the loop only moves to rows it has found valid.  The game loop
    calls [best_move] after it has checked the spawn placement at row 0. *)
Lemma hard_drop_valid_from_spawn (fuel : nat) (g : grid) (sh : shape) (col : Z) :
  wf_grid g -> (exists y x, shape_cell sh y x) -> ROWS <= Z.of_nat fuel ->
  valid_move g sh (col, 0) = Ok true ->
  exists row, hard_drop fuel g sh col = Ok row /\
              valid_move g sh (col, row) = Ok true.
Proof.
  intros Hwf Hcell Hfuel Hspawn.
  destruct (hard_drop_loop_spec g sh col Hwf Hcell fuel 0)
    as (r & Hr & Hbound & _ & Hbefore); [unfold ROWS; lia|lia|].
  exists r. split; [exact Hr|].
  destruct (Z.eq_dec r 0) as [->|Hne]; [exact Hspawn|].
  replace r with (r - 1 + 1) by lia. apply Hbefore. lia.
Qed.

(** A shape with no occupied cell is valid everywhere: the loop of
    [hard_drop] never stops, whatever the fuel. *)
Lemma hard_drop_no_cell (g : grid) (sh : shape) (col : Z) (fuel : nat) :
  wf_grid g -> (forall y x, ~ shape_cell sh y x) ->
  hard_drop fuel g sh col = Err OutOfFuel.
Proof.
  intros Hwf Hnone. unfold hard_drop. generalize 0 as row.
  induction fuel as [|fuel IH]; intros row; cbn [hard_drop_loop]; [reflexivity|].
  destruct (valid_move_spec g sh col (row + 1) Hwf) as (b & Hb & Hiff).
  rewrite Hb. cbn [bind]. destruct b; [apply IH|].
  destruct Hiff as [Hiff _]. destruct (Hiff eq_refl) as (y & x & Hyx & _).
  destruct (Hnone y x Hyx).
Qed.

(** C9. On every board, for every rotation matrix with at least one
    occupied cell and every column, [hard_drop] comes back as soon as the
    fuel allows [ROWS] tests of the loop condition (the row stays below
    [ROWS]), and the row it returns is the least [r >= 0] such that the
    placement at row [r + 1] is not valid: the placements at rows 1 .. r
    are valid and the one at [r + 1] is not. *)
Theorem hard_drop_least_row (fuel : nat) (g : grid) (sh : shape) (col : Z) :
  wf_grid g -> (exists y x, shape_cell sh y x) -> ROWS <= Z.of_nat fuel ->
  exists r, hard_drop fuel g sh col = Ok r /\
    0 <= r < ROWS /\
    valid_move g sh (col, r + 1) = Ok false /\
    (forall r', 0 <= r' < r -> valid_move g sh (col, r' + 1) = Ok true) /\
    (forall r', 0 <= r' -> valid_move g sh (col, r' + 1) = Ok false -> r <= r').
Proof.
  intros Hwf Hcell Hfuel.
  destruct (hard_drop_loop_spec g sh col Hwf Hcell fuel 0)
    as (r & Hr & Hbound & Hstop & Hbefore); [unfold ROWS; lia|lia|].
  exists r. repeat split; try assumption; try lia.
  intros r' Hr' Hinv. destruct (Z.le_gt_cases r r') as [Hle|Hlt]; [exact Hle|].
  rewrite Hbefore in Hinv by lia. discriminate.
Qed.

Lemma shape_cell_I : exists y x, shape_cell (SHAPES_BASE pI) y x.
Proof. exists 0%nat, 0%nat, [1;1;1;1], 1. repeat split; discriminate. Qed.

Lemma hard_drop_least_row_witness :
  exists r, hard_drop 20 create_grid (SHAPES_BASE pI) 0 = Ok r /\
    0 <= r < ROWS /\
    valid_move create_grid (SHAPES_BASE pI) (0, r + 1) = Ok false /\
    (forall r', 0 <= r' < r ->
       valid_move create_grid (SHAPES_BASE pI) (0, r' + 1) = Ok true) /\
    (forall r', 0 <= r' ->
       valid_move create_grid (SHAPES_BASE pI) (0, r' + 1) = Ok false -> r <= r').
Proof.
  apply (hard_drop_least_row 20 create_grid (SHAPES_BASE pI) 0
           wf_create_grid shape_cell_I).
  unfold ROWS. lia.
Defined.

(** ** [build_rotations] *)

Lemma existsb_shape_eqb (cur : shape) (rots : list shape) :
  existsb (shape_eqb cur) rots = false -> ~ In cur rots.
Proof.
  intros Hex Hin.
  assert (existsb (shape_eqb cur) rots = true) as Habs; [|congruence].
  apply existsb_exists. exists cur. split; [exact Hin|].
  unfold shape_eqb. now apply bool_decide_eq_true.
Qed.

Lemma build_loop_NoDup (n : nat) :
  forall (rots : list shape) (cur : shape),
    List.NoDup rots -> List.NoDup (build_loop n rots cur).
Proof.
  induction n as [|n IH]; intros rots cur Hnd; simpl; [exact Hnd|].
  destruct (existsb (shape_eqb cur) rots) eqn:Hex; [exact Hnd|].
  apply IH. apply List.NoDup_rev in Hnd.
  rewrite <- (rev_involutive (rots ++ [cur])). apply List.NoDup_rev.
  rewrite rev_app_distr. simpl. constructor; [|exact Hnd].
  rewrite <- in_rev. now apply existsb_shape_eqb.
Qed.

(** The rotation list of any base shape has no repeated entry. *)
Lemma build_rotations_NoDup (base : shape) : List.NoDup (build_rotations base).
Proof. apply build_loop_NoDup. constructor. Qed.

(** C6, as the code has it.  [build_rotations] yields exactly 1 rotation
    matrix for O, exactly 2 for each of the three piece types I, S and Z
    (the ones that a half turn maps to themselves), and exactly 4 for T, J
    and L; the entries of each list are pairwise distinct. *)
Theorem rotation_counts (p : piece) :
  length (build_rotations (SHAPES_BASE p)) =
    match p with
    | pO => 1%nat
    | pI | pS | pZ => 2%nat
    | pT | pJ | pL => 4%nat
    end /\
  List.NoDup (build_rotations (SHAPES_BASE p)).
Proof.
  split; [destruct p; reflexivity | apply build_rotations_NoDup].
Qed.

(** C6 as stated fails: no two piece types [p], [q] are the only ones with
    2 rotations while every piece type other than O, [p] and [q] has 4;
    there are three piece types with 2 rotations. *)
Lemma rotation_counts_not_two_pieces :
  ~ exists p q : piece,
      p <> q /\ p <> pO /\ q <> pO /\
      length (build_rotations (SHAPES_BASE pO)) = 1%nat /\
      length (build_rotations (SHAPES_BASE p)) = 2%nat /\
      length (build_rotations (SHAPES_BASE q)) = 2%nat /\
      forall r, r <> pO -> r <> p -> r <> q ->
        length (build_rotations (SHAPES_BASE r)) = 4%nat.
Proof.
  intros (p & q & Hpq & Hp & Hq & _ & Hlp & Hlq & Hrest).
  assert (HI : pI = p \/ pI = q).
  { destruct (decide (pI = p)); [auto|]. destruct (decide (pI = q)); [auto|].
    specialize (Hrest pI). vm_compute in Hrest.
    assert (2%nat = 4%nat) by (apply Hrest; congruence). discriminate. }
  assert (HS : pS = p \/ pS = q).
  { destruct (decide (pS = p)); [auto|]. destruct (decide (pS = q)); [auto|].
    specialize (Hrest pS). vm_compute in Hrest.
    assert (2%nat = 4%nat) by (apply Hrest; congruence). discriminate. }
  assert (HZ : pZ = p \/ pZ = q).
  { destruct (decide (pZ = p)); [auto|]. destruct (decide (pZ = q)); [auto|].
    specialize (Hrest pZ). vm_compute in Hrest.
    assert (2%nat = 4%nat) by (apply Hrest; congruence). discriminate. }
  destruct HI as [<-|<-], HS as [HS|HS], HZ as [HZ|HZ]; congruence.
Qed.

(** ** [remove_lines] *)

Lemma has_zero_not_full (r : list Z) : has_zero r = negb (full_row r).
Proof.
  unfold has_zero, full_row, truthy. induction r as [|c r IH]; simpl; [reflexivity|].
  rewrite IH. now destruct (c =? 0).
Qed.

Lemma filter_has_zero (g : grid) :
  List.filter has_zero g = List.filter (fun r => negb (full_row r)) g.
Proof. apply List.filter_ext. intros r. apply has_zero_not_full. Qed.

Lemma filter_none_full (g : grid) :
  List.filter full_row g = [] -> List.filter (fun r => negb (full_row r)) g = g.
Proof.
  induction g as [|r g IH]; simpl; [reflexivity|].
  destruct (full_row r); simpl; [discriminate|]. intros H. now rewrite IH.
Qed.

(** C4. For every board of [ROWS] rows, [remove_lines] returns the rows of
    the input that are not full, in their order, preceded by as many rows
    of [COLS] empty cells as the input has full rows, and the number of
    full rows; with no full row it returns the input board and 0. *)
Theorem remove_lines_spec (g : grid) :
  length g = Z.to_nat ROWS ->
  let full := List.filter full_row g in
  let kept := List.filter (fun r => negb (full_row r)) g in
  remove_lines g =
    (replicate (length full) (replicate (Z.to_nat COLS) 0) ++ kept,
     Z.of_nat (length full)) /\
  (full = [] -> remove_lines g = (g, 0)).
Proof.
  intros Hlen full kept.
  assert (Hcount : ROWS - Z.of_nat (length kept) = Z.of_nat (length full)).
  { pose proof (List.filter_length full_row g) as Hfl.
    fold full in Hfl. fold kept in Hfl. unfold ROWS in *. lia. }
  assert (Hrl : remove_lines g =
    (replicate (length full) (replicate (Z.to_nat COLS) 0) ++ kept,
     Z.of_nat (length full))).
  { unfold remove_lines. rewrite filter_has_zero. fold kept. rewrite Hcount.
    destruct (truthy (Z.of_nat (length full))) eqn:Ht.
    - now rewrite Nat2Z.id.
    - apply truthy_false in Ht.
      assert (length full = 0%nat) as -> by lia. reflexivity. }
  split; [exact Hrl|].
  intros Hnone. rewrite Hrl, Hnone. simpl. f_equal.
  now apply filter_none_full.
Qed.

Lemma remove_lines_spec_witness :
  let g := create_grid in
  let full := List.filter full_row g in
  let kept := List.filter (fun r => negb (full_row r)) g in
  remove_lines g =
    (replicate (length full) (replicate (Z.to_nat COLS) 0) ++ kept,
     Z.of_nat (length full)) /\
  (full = [] -> remove_lines g = (g, 0)).
Proof. apply (remove_lines_spec create_grid). reflexivity. Defined.

(** ** [get_heights_and_holes] *)

Lemma for_each_app {A St : Type} (xs ys : list A) (body : A -> St -> res St) (st : St) :
  for_each (xs ++ ys) body st =
  (do st' <- for_each xs body st; for_each ys body st').
Proof.
  revert st. induction xs as [|x xs IH]; intros st; simpl; [reflexivity|].
  destruct (body x st) as [st'|e]; simpl; [apply IH | reflexivity].
Qed.

Lemma seqZ_snoc (n : nat) : seqZ 0 (Z.of_nat (S n)) = seqZ 0 (Z.of_nat n) ++ [Z.of_nat n].
Proof.
  replace (Z.of_nat (S n)) with (Z.of_nat n + 1) by lia.
  rewrite seqZ_app by lia. reflexivity.
Qed.

Lemma find_snoc {A : Type} (f : A -> bool) (l : list A) (x : A) :
  List.find f (l ++ [x]) =
  match List.find f l with
  | Some y => Some y
  | None => if f x then Some x else None
  end.
Proof.
  induction l as [|a l IH]; simpl; [reflexivity|]. now destruct (f a).
Qed.

Lemma find_none_existsb {A : Type} (f : A -> bool) (l : list A) :
  existsb f l = match List.find f l with Some _ => true | None => false end.
Proof.
  induction l as [|a l IH]; simpl; [reflexivity|]. now destruct (f a).
Qed.

(** The scan of the first [n] rows of column [c]. *)
Lemma scan_rows_prefix (g : grid) (c : Z) (hs : list Z) (n : nat) :
  wf_grid g -> 0 <= c < COLS -> length hs = Z.to_nat COLS -> Z.of_nat n <= ROWS ->
  for_each (seqZ 0 (Z.of_nat n)) (scan_cell g c) (hs, false, 0) =
  Ok (match List.find (occupied_at g c) (seqZ 0 (Z.of_nat n)) with
      | Some r => <[Z.to_nat c := ROWS - r]> hs
      | None => hs
      end,
      existsb (occupied_at g c) (seqZ 0 (Z.of_nat n)),
      Z.of_nat (length (List.filter (is_hole g c) (seqZ 0 (Z.of_nat n))))).
Proof.
  intros Hwf Hc Hlen. induction n as [|n IH]; intros Hn; [reflexivity|].
  rewrite seqZ_snoc, for_each_app, IH by lia. cbn [bind for_each].
  unfold scan_cell.
  destruct (cell_read g c (Z.of_nat n) Hwf Hc) as (line & Hl & Hv); [lia|].
  rewrite Hl. cbn [bind]. rewrite Hv. cbn [bind].
  rewrite find_snoc, existsb_app, List.filter_app, length_app.
  cbn [existsb List.filter].
  change (is_hole g c (Z.of_nat n)) with
    (negb (occupied_at g c (Z.of_nat n)) &&
     existsb (occupied_at g c) (seqZ 0 (Z.of_nat n))).
  change (truthy (cell_at g (Z.of_nat n) c)) with (occupied_at g c (Z.of_nat n)).
  rewrite (find_none_existsb (occupied_at g c) (seqZ 0 (Z.of_nat n))).
  destruct (occupied_at g c (Z.of_nat n)) eqn:Hocc;
    destruct (List.find (occupied_at g c) (seqZ 0 (Z.of_nat n))) as [r|] eqn:Hfind;
    cbn [negb andb orb length bind].
  - do 3 f_equal. lia.
  - rewrite py_setitem_in_range by lia. cbn [bind]. do 3 f_equal. lia.
  - do 2 f_equal. lia.
  - do 3 f_equal. lia.
Qed.

Lemma scan_col_spec (g : grid) (c : Z) (hs : list Z) (total : Z) :
  wf_grid g -> 0 <= c < COLS -> length hs = Z.to_nat COLS ->
  hs !! Z.to_nat c = Some 0 ->
  scan_col g c (hs, total) =
  Ok (<[Z.to_nat c := column_height g c]> hs, total + column_holes g c).
Proof.
  intros Hwf Hc Hlen H0. unfold scan_col.
  pose proof (scan_rows_prefix g c hs (Z.to_nat ROWS) Hwf Hc Hlen) as Hscan.
  rewrite Z2Nat.id in Hscan by (unfold ROWS; lia).
  rewrite Hscan by lia. cbn [bind].
  unfold column_height, column_holes, topmost.
  destruct (List.find (occupied_at g c) (seqZ 0 ROWS)); [reflexivity|].
  now rewrite list_insert_id.
Qed.

Lemma length_seqZ_nat (n : nat) : length (seqZ 0 (Z.of_nat n)) = n.
Proof. rewrite length_seqZ. lia. Qed.

Lemma heights_prefix_length (g : grid) (n : nat) :
  (n <= Z.to_nat COLS)%nat -> length (heights_prefix g n) = Z.to_nat COLS.
Proof.
  intros Hn. unfold heights_prefix.
  rewrite length_app, length_map, length_seqZ_nat, length_replicate. lia.
Qed.

Lemma heights_prefix_step (g : grid) (n : nat) :
  (n < Z.to_nat COLS)%nat ->
  <[n := column_height g (Z.of_nat n)]> (heights_prefix g n) = heights_prefix g (S n).
Proof.
  intros Hn. unfold heights_prefix.
  rewrite seqZ_snoc, map_app, <- app_assoc. cbn [map app].
  replace (Z.to_nat COLS - n)%nat with (S (Z.to_nat COLS - S n)) by lia.
  cbn [replicate].
  rewrite insert_app_r_alt by (rewrite length_map, length_seqZ_nat; lia).
  rewrite length_map, length_seqZ_nat, Nat.sub_diag. reflexivity.
Qed.

Lemma fold_right_add_snoc (l : list Z) (x : Z) :
  fold_right Z.add 0 (l ++ [x]) = fold_right Z.add 0 l + x.
Proof. induction l as [|a l IH]; simpl; lia. Qed.

Lemma scan_cols_prefix (g : grid) (n : nat) :
  wf_grid g -> (n <= Z.to_nat COLS)%nat ->
  for_each (seqZ 0 (Z.of_nat n)) (scan_col g) (replicate (Z.to_nat COLS) 0, 0) =
  Ok (heights_prefix g n, holes_prefix g n).
Proof.
  intros Hwf. induction n as [|n IH]; intros Hn.
  - reflexivity.
  - rewrite seqZ_snoc, for_each_app, IH by lia. cbn [bind for_each].
    rewrite scan_col_spec; try assumption.
    + cbn [bind]. rewrite Nat2Z.id, heights_prefix_step by lia.
      unfold holes_prefix. rewrite seqZ_snoc, map_app. cbn [map].
      now rewrite fold_right_add_snoc.
    + unfold COLS in *. lia.
    + apply heights_prefix_length. lia.
    + rewrite Nat2Z.id. unfold heights_prefix.
      rewrite lookup_app_r by (rewrite length_map, length_seqZ_nat; lia).
      rewrite length_map, length_seqZ_nat, Nat.sub_diag.
      replace (Z.to_nat COLS - n)%nat with (S (Z.to_nat COLS - S n)) by lia.
      reflexivity.
Qed.

Lemma find_seqZ_spec (f : Z -> bool) (n : nat) :
  match List.find f (seqZ 0 (Z.of_nat n)) with
  | Some r => 0 <= r < Z.of_nat n /\ f r = true /\
              forall r', 0 <= r' < r -> f r' = false
  | None => forall r, 0 <= r < Z.of_nat n -> f r = false
  end.
Proof.
  induction n as [|n IH].
  - simpl. intros r Hr. lia.
  - rewrite seqZ_snoc, find_snoc.
    destruct (List.find f (seqZ 0 (Z.of_nat n))) as [r|].
    + destruct IH as (Hr & Hf & Hbefore). repeat split; auto; lia.
    + destruct (f (Z.of_nat n)) eqn:Hfn.
      * repeat split; auto; lia.
      * intros r Hr. destruct (Z.eq_dec r (Z.of_nat n)) as [->|Hne]; [exact Hfn|].
        apply IH. lia.
Qed.

Lemma occupied_at_true (g : grid) (c r : Z) :
  occupied_at g c r = true <-> cell_at g r c <> 0.
Proof. apply truthy_true. Qed.

Lemma occupied_at_false (g : grid) (c r : Z) :
  occupied_at g c r = false <-> cell_at g r c = 0.
Proof. apply truthy_false. Qed.

(** The height of a column: [ROWS] minus the row of its first occupied
    cell from the top, 0 when it has none. *)
Lemma column_height_spec (g : grid) (c : Z) :
  (column_height g c = 0 /\ forall r, 0 <= r < ROWS -> cell_at g r c = 0) \/
  (exists r, 0 <= r < ROWS /\ cell_at g r c <> 0 /\
     (forall r', 0 <= r' < r -> cell_at g r' c = 0) /\
     topmost g c = Some r /\ column_height g c = ROWS - r).
Proof.
  unfold column_height, topmost.
  pose proof (find_seqZ_spec (occupied_at g c) (Z.to_nat ROWS)) as Hfind.
  rewrite Z2Nat.id in Hfind by (unfold ROWS; lia).
  destruct (List.find (occupied_at g c) (seqZ 0 ROWS)) as [r|].
  - right. destruct Hfind as (Hr & Hocc & Hbefore). exists r.
    repeat split; try lia.
    + now apply occupied_at_true.
    + intros r' Hr'. apply occupied_at_false. now apply Hbefore.
  - left. split; [reflexivity|]. intros r Hr. apply occupied_at_false. now apply Hfind.
Qed.

Lemma is_hole_spec (g : grid) (c r : Z) :
  is_hole g c r = true <->
  cell_at g r c = 0 /\ exists r', 0 <= r' < r /\ cell_at g r' c <> 0.
Proof.
  unfold is_hole. rewrite andb_true_iff, negb_true_iff, occupied_at_false.
  rewrite existsb_exists. split; intros [H0 (r' & H1 & H2)]; (split; [exact H0|]);
    exists r'.
  - apply list_elem_of_In, elem_of_seqZ in H1. apply occupied_at_true in H2.
    split; [lia | exact H2].
  - split; [apply list_elem_of_In, elem_of_seqZ; lia | now apply occupied_at_true].
Qed.

Lemma filter_list_prod_length {A B : Type} (P : A * B -> bool) (l1 : list A) (l2 : list B) :
  Z.of_nat (length (List.filter P (list_prod l1 l2))) =
  fold_right Z.add 0
    (map (fun x => Z.of_nat (length (List.filter (fun y => P (x, y)) l2))) l1).
Proof.
  induction l1 as [|x l1 IH]; [reflexivity|].
  cbn [list_prod map fold_right].
  rewrite List.filter_app, length_app, Nat2Z.inj_add, IH. f_equal. f_equal.
  clear IH. induction l2 as [|y l2 IH2]; [reflexivity|].
  cbn [map List.filter]. destruct (P (x, y)); cbn [length]; now rewrite IH2.
Qed.

Lemma holes_prefix_all (g : grid) : holes_prefix g (Z.to_nat COLS) = hole_count g.
Proof.
  unfold holes_prefix, hole_count. rewrite filter_list_prod_length.
  rewrite Z2Nat.id by (unfold COLS; lia). reflexivity.
Qed.

Lemma get_heights_and_holes_eq (g : grid) :
  wf_grid g ->
  get_heights_and_holes g = Ok (map (column_height g) (seqZ 0 COLS), hole_count g).
Proof.
  intros Hwf. unfold get_heights_and_holes.
  pose proof (scan_cols_prefix g (Z.to_nat COLS) Hwf (Nat.le_refl _)) as Hscan.
  rewrite Z2Nat.id in Hscan by (unfold COLS; lia).
  rewrite Hscan, holes_prefix_all. unfold heights_prefix.
  rewrite Nat.sub_diag, Z2Nat.id by (unfold COLS; lia).
  cbn [replicate]. now rewrite app_nil_r.
Qed.

(** A hole is an empty cell strictly below the topmost occupied cell of
    its column. *)
Lemma is_hole_below_topmost (g : grid) (c r : Z) :
  0 <= r < ROWS ->
  (is_hole g c r = true <->
   cell_at g r c = 0 /\ exists t, topmost g c = Some t /\ t < r).
Proof.
  intros Hr. rewrite is_hole_spec. unfold topmost.
  pose proof (find_seqZ_spec (occupied_at g c) (Z.to_nat ROWS)) as Hfind.
  rewrite Z2Nat.id in Hfind by (unfold ROWS; lia).
  split; intros [H0 Hex]; (split; [exact H0|]).
  - destruct Hex as (r' & Hr' & Hocc). apply occupied_at_true in Hocc.
    destruct (List.find (occupied_at g c) (seqZ 0 ROWS)) as [t|].
    + exists t. split; [reflexivity|]. destruct Hfind as (_ & _ & Hbefore).
      destruct (Z.lt_ge_cases r' t) as [Hlt|Hge]; [|lia].
      rewrite Hbefore in Hocc by lia. discriminate.
    + rewrite Hfind in Hocc by lia. discriminate.
  - destruct Hex as (t & Ht & Hlt).
    destruct (List.find (occupied_at g c) (seqZ 0 ROWS)) as [t'|];
      [|discriminate].
    injection Ht as ->. destruct Hfind as (Hrange & Hocc & _).
    exists t. split; [lia|]. now apply occupied_at_true.
Qed.

(** C5. On every board, [get_heights_and_holes] returns the list of the
    heights of the columns 0 .. COLS-1 and the number of holes of the
    board, where the height of a column is [ROWS] minus the row index of its
    topmost occupied cell, or 0 when the column is empty, and a hole is an
    empty cell strictly below the topmost occupied cell of its column. *)
Theorem get_heights_and_holes_spec (g : grid) :
  wf_grid g ->
  get_heights_and_holes g =
    Ok (map (column_height g) (seqZ 0 COLS), hole_count g) /\
  (forall c,
     (column_height g c = 0 /\ forall r, 0 <= r < ROWS -> cell_at g r c = 0) \/
     (exists r, 0 <= r < ROWS /\ cell_at g r c <> 0 /\
        (forall r', 0 <= r' < r -> cell_at g r' c = 0) /\
        topmost g c = Some r /\ column_height g c = ROWS - r)) /\
  (forall c r, 0 <= r < ROWS ->
     (is_hole g c r = true <->
      cell_at g r c = 0 /\ exists t, topmost g c = Some t /\ t < r)) /\
  hole_count g =
    Z.of_nat (length (List.filter (fun cr => is_hole g (fst cr) (snd cr))
                        (list_prod (seqZ 0 COLS) (seqZ 0 ROWS)))).
Proof.
  intros Hwf. split; [now apply get_heights_and_holes_eq|].
  split; [apply column_height_spec|].
  split; [apply is_hole_below_topmost | reflexivity].
Qed.

Lemma get_heights_and_holes_spec_witness :
  let g := create_grid in
  get_heights_and_holes g =
    Ok (map (column_height g) (seqZ 0 COLS), hole_count g) /\
  (forall c,
     (column_height g c = 0 /\ forall r, 0 <= r < ROWS -> cell_at g r c = 0) \/
     (exists r, 0 <= r < ROWS /\ cell_at g r c <> 0 /\
        (forall r', 0 <= r' < r -> cell_at g r' c = 0) /\
        topmost g c = Some r /\ column_height g c = ROWS - r)) /\
  (forall c r, 0 <= r < ROWS ->
     (is_hole g c r = true <->
      cell_at g r c = 0 /\ exists t, topmost g c = Some t /\ t < r)) /\
  hole_count g =
    Z.of_nat (length (List.filter (fun cr => is_hole g (fst cr) (snd cr))
                        (list_prod (seqZ 0 COLS) (seqZ 0 ROWS)))).
Proof. apply (get_heights_and_holes_spec create_grid wf_create_grid). Defined.

(** ** [evaluate] *)

(** Subtraction is addition of the opposite, and the opposite of a factor
    is the opposite of the product: binary64 rounding is symmetric. *)
Lemma SFsub_add_opp (x y : spec_float) :
  SFsub prec emax x y = SFadd prec emax x (SFopp y).
Proof.
  destruct x as [sx|sx| |sx mx ex], y as [sy|sy| |sy my ey]; try reflexivity;
    destruct sx, sy; reflexivity.
Qed.

Lemma binary_round_aux_negb (s : bool) (m e : Z) (l : location) :
  binary_round_aux prec emax (negb s) m e l =
  SFopp (binary_round_aux prec emax s m e l).
Proof.
  unfold binary_round_aux.
  destruct (shr_fexp prec emax m e l) as [mrs' e'].
  destruct (shr_fexp prec emax _ e' loc_Exact) as [mrs'' e''].
  destruct (shr_m mrs''); try reflexivity.
  destruct (e'' <=? emax - prec); reflexivity.
Qed.

Lemma SFmul_opp_l (x y : spec_float) :
  SFmul prec emax (SFopp x) y = SFopp (SFmul prec emax x y).
Proof.
  destruct x as [sx|sx| |sx mx ex], y as [sy|sy| |sy my ey]; try reflexivity;
    try (destruct sx, sy; reflexivity).
  cbn [SFopp SFmul]. rewrite <- binary_round_aux_negb. f_equal.
  now destruct sx, sy.
Qed.

Lemma float_sub_mul (x c y : float) :
  (x - c * y = x + (- c) * y)%float.
Proof.
  apply Prim2SF_inj.
  rewrite sub_spec, add_spec, !mul_spec, opp_spec.
  unfold SF64sub, SF64add, SF64mul.
  now rewrite SFsub_add_opp, SFmul_opp_l.
Qed.

Lemma lookup_map {A B : Type} (f : A -> B) (l : list A) (i : nat) :
  map f l !! i = option_map f (l !! i).
Proof.
  revert i. induction l as [|a l IH]; intros [|i]; simpl; auto.
Qed.

Lemma py_index_heights (h : Z -> Z) (i : Z) :
  0 <= i < COLS -> py_index (map h (seqZ 0 COLS)) i = Ok (h i).
Proof.
  intros Hi.
  destruct (py_index_in_range (map h (seqZ 0 COLS)) i) as (a & Ha & ->).
  { rewrite length_map, length_seqZ. unfold COLS in *. lia. }
  rewrite lookup_map, lookup_seqZ_lt in Ha by lia. simpl in Ha.
  injection Ha as <-. f_equal. f_equal. lia.
Qed.

Lemma bump_prefix (h : Z -> Z) (n : nat) :
  Z.of_nat n <= COLS - 1 ->
  for_each (seqZ 0 (Z.of_nat n)) (bump_step (map h (seqZ 0 COLS))) 0 =
  Ok (fold_right Z.add 0
        (map (fun i => Z.abs (h i - h (i + 1))) (seqZ 0 (Z.of_nat n)))).
Proof.
  induction n as [|n IH]; intros Hn; [reflexivity|].
  rewrite seqZ_snoc, for_each_app, IH by lia. cbn [bind for_each].
  unfold bump_step. rewrite !py_index_heights by lia. cbn [bind].
  rewrite map_app. cbn [map]. now rewrite fold_right_add_snoc.
Qed.

Lemma bumpiness_from_heights_eq (g : grid) :
  bumpiness_from_heights (map (column_height g) (seqZ 0 COLS)) = Ok (bumpiness g).
Proof.
  unfold bumpiness_from_heights, bumpiness.
  pose proof (bump_prefix (column_height g) (Z.to_nat (COLS - 1))) as H.
  rewrite Z2Nat.id in H by (unfold COLS; lia). apply H. lia.
Qed.

Lemma fold_left_add (l : list Z) (a : Z) :
  fold_left Z.add l a = a + fold_right Z.add 0 l.
Proof.
  revert a. induction l as [|x l IH]; intros a; simpl; [lia|]. rewrite IH. lia.
Qed.

Lemma aggregate_height_eq (g : grid) :
  aggregate_height (map (column_height g) (seqZ 0 COLS)) = heights_sum g.
Proof. unfold aggregate_height, heights_sum. now rewrite fold_left_add. Qed.

(** [evaluate] on a board, as the source writes the score. *)
Lemma evaluate_eq (g : grid) (lines : Z) :
  wf_grid g ->
  evaluate g lines =
    Ok (-0.51066 * float_of_int (heights_sum g)
        + 0.760666 * float_of_int lines
        - 0.35663 * float_of_int (hole_count g)
        - 0.184483 * float_of_int (bumpiness g))%float.
Proof.
  intros Hwf. unfold evaluate.
  rewrite get_heights_and_holes_eq by exact Hwf. cbn [bind].
  rewrite bumpiness_from_heights_eq. cbn [bind].
  now rewrite aggregate_height_eq.
Qed.

(** C2. On every board and for every count of cleared lines, a number
    from 0 to [ROWS] as [remove_lines] returns them on a board,
    [evaluate] returns exactly, in binary64 arithmetic,
    (-0.51066 * aggregateHeight) + (0.760666 * linesCleared)
    + (-0.35663 * holeCount) + (-0.184483 * bumpiness),
    where aggregateHeight is the sum of the column heights, holeCount the
    number of holes and bumpiness the sum of the absolute differences of
    the heights of adjacent columns.  The four counts are far below 2^63,
    where [float_of_int] is the conversion that Python makes. *)
Theorem evaluate_formula (g : grid) (lines : Z) :
  wf_grid g -> 0 <= lines <= ROWS ->
  evaluate g lines =
    Ok ((-0.51066 * float_of_int (heights_sum g))
        + (0.760666 * float_of_int lines)
        + (-0.35663 * float_of_int (hole_count g))
        + (-0.184483 * float_of_int (bumpiness g)))%float.
Proof.
  intros Hwf _. rewrite evaluate_eq by exact Hwf.
  (* the source subtracts the last two terms, with positive coefficients *)
  rewrite !float_sub_mul.
  change (- 0.35663)%float with (-0.35663)%float.
  change (- 0.184483)%float with (-0.184483)%float.
  reflexivity.
Qed.

Lemma evaluate_formula_witness :
  evaluate create_grid 2 =
    Ok ((-0.51066 * float_of_int (heights_sum create_grid))
        + (0.760666 * float_of_int 2)
        + (-0.35663 * float_of_int (hole_count create_grid))
        + (-0.184483 * float_of_int (bumpiness create_grid)))%float.
Proof.
  apply (evaluate_formula create_grid 2 wf_create_grid). unfold ROWS. lia.
Defined.

(** ** Binary64 facts

    The order of the floats and a bound on the size of sums, read off the
    specification of the operations ([SpecFloat]). *)

Lemma digits2_pos_size (p : positive) : digits2_pos p = Pos.size p.
Proof. induction p; simpl; congruence. Qed.

Lemma Zdigits2_log2 (p : positive) : Zdigits2 (Zpos p) = Z.log2 (Zpos p) + 1.
Proof.
  simpl. rewrite digits2_pos_size. destruct p; simpl; lia.
Qed.

Lemma Zdigits2_le (m d : Z) : 0 < m -> 0 <= d -> (Zdigits2 m <= d <-> m < 2 ^ d).
Proof.
  intros Hm Hd. destruct m as [|p|p]; try lia.
  rewrite Zdigits2_log2. rewrite Z.log2_lt_pow2 by lia. lia.
Qed.

Lemma Zdigits2_nonneg (m : Z) : 0 <= m -> 0 <= Zdigits2 m.
Proof. destruct m; simpl; lia. Qed.

Lemma Zdigits2_pos (p : positive) : 0 < Zdigits2 (Zpos p).
Proof. simpl. lia. Qed.

Lemma shr_1_digits (r : shr_record) :
  0 <= shr_m r ->
  0 <= shr_m (shr_1 r) /\
  Zdigits2 (shr_m (shr_1 r)) = Z.max 0 (Zdigits2 (shr_m r) - 1).
Proof.
  destruct r as [m r s]. simpl. intros Hm.
  destruct m as [|[p|p|]|p]; cbn [shr_m Zdigits2 digits2_pos];
    rewrite ?Pos2Z.inj_succ; lia.
Qed.

Lemma iter_shr_1_digits (n : positive) :
  forall r, 0 <= shr_m r ->
  0 <= shr_m (SpecFloat.iter_pos shr_1 n r) /\
  Zdigits2 (shr_m (SpecFloat.iter_pos shr_1 n r)) = Z.max 0 (Zdigits2 (shr_m r) - Zpos n).
Proof.
  induction n as [n IH|n IH|]; intros r Hr; cbn [SpecFloat.iter_pos].
  - destruct (shr_1_digits r Hr) as [H1 E1].
    destruct (IH _ H1) as [H2 E2]. destruct (IH _ H2) as [H3 E3].
    split; [exact H3|]. rewrite E3, E2, E1. lia.
  - destruct (IH _ Hr) as [H2 E2]. destruct (IH _ H2) as [H3 E3].
    split; [exact H3|]. rewrite E3, E2. lia.
  - destruct (shr_1_digits r Hr) as [H1 E1]. split; [exact H1|]. rewrite E1. lia.
Qed.

Lemma iter_xO_digits (d m : positive) :
  Zdigits2 (Zpos (Pos.iter xO m d)) = Zdigits2 (Zpos m) + Zpos d.
Proof.
  induction d as [|d IH] using Pos.peano_ind.
  - simpl. lia.
  - rewrite Pos.iter_succ. simpl in *. lia.
Qed.

Lemma small_mono (K K' : Z) (x : spec_float) : K <= K' -> small K x -> small K' x.
Proof. destruct x; simpl; auto. lia. Qed.

Lemma small_opp (K : Z) (x : spec_float) : small K x -> small K (SFopp x).
Proof. destruct x; simpl; auto. Qed.

Lemma Zdigits2_succ (m : Z) : 0 <= m -> Zdigits2 (m + 1) <= Zdigits2 m + 1.
Proof.
  intros Hm. destruct (Z.eq_dec m 0) as [->|Hne]; [simpl; lia|].
  pose proof (Zdigits2_nonneg m Hm) as Hd.
  apply Zdigits2_le; [lia|lia|].
  assert (m < 2 ^ Zdigits2 m) by (apply Zdigits2_le; lia).
  rewrite Z.pow_add_r by lia. lia.
Qed.

Lemma round_nearest_even_digits (m : Z) (l : location) :
  0 <= m ->
  0 <= round_nearest_even m l /\
  Zdigits2 (round_nearest_even m l) <= Zdigits2 m + 1.
Proof.
  intros Hm. pose proof (Zdigits2_succ m Hm).
  unfold round_nearest_even. destruct l as [|[| |]]; try destruct (Z.even m);
    split; lia.
Qed.

(** One pass of [shr_fexp]: the mantissa stays nonnegative, digits plus
    exponent does not grow, and the exponent stays below the bound [E]. *)
Lemma shr_fexp_digits (m e : Z) (l : location) (K E : Z) :
  0 <= m -> Zdigits2 m + e <= K -> e <= E -> emin <= E -> K - prec <= E -> E <= K ->
  let '(mrs, e') := shr_fexp prec emax m e l in
  0 <= shr_m mrs /\ Zdigits2 (shr_m mrs) + e' <= K /\ e' <= E.
Proof.
  intros Hm Hd He Hmin HK HE. unfold shr_fexp, shr.
  assert (Hrec : shr_m (shr_record_of_loc m l) = m)
    by (destruct l as [|[| |]]; reflexivity).
  pose proof (Zdigits2_nonneg m Hm) as Hdm.
  assert (Hfexp : fexp prec emax (Zdigits2 m + e) <= E).
  { unfold fexp in *. lia. }
  destruct (fexp prec emax (Zdigits2 m + e) - e) as [|n|n] eqn:Hn.
  - rewrite Hrec. lia.
  - destruct (iter_shr_1_digits n (shr_record_of_loc m l)) as [H0 E0];
      [rewrite Hrec; lia|].
    rewrite Hrec in E0. split; [exact H0|]. rewrite E0. lia.
  - rewrite Hrec. lia.
Qed.

Lemma binary_round_aux_small (s : bool) (m e : Z) (l : location) (K : Z) :
  0 <= m -> Zdigits2 m + e <= K -> e <= K -> emin <= K -> K <= emax - prec ->
  small (K + 1) (binary_round_aux prec emax s m e l).
Proof.
  intros Hm Hd He Hmin Hmax. unfold binary_round_aux.
  pose proof (shr_fexp_digits m e l K K Hm Hd He Hmin) as H1.
  destruct (shr_fexp prec emax m e l) as [mrs' e'].
  destruct H1 as (Hm' & Hd' & He'); [unfold prec; lia|lia|].
  destruct (round_nearest_even_digits (shr_m mrs') (loc_of_shr_record mrs') Hm')
    as [Hr0 Hrd].
  pose proof (shr_fexp_digits _ e' loc_Exact (K + 1) K Hr0) as H2.
  destruct (shr_fexp prec emax _ e' loc_Exact) as [mrs'' e''].
  destruct H2 as (Hm'' & Hd'' & He''); [lia|lia|lia|unfold prec; lia|lia|].
  destruct (shr_m mrs'') as [|p|p] eqn:Hp.
  - exact I.
  - destruct (Z.leb_spec e'' (emax - prec)); [exact Hd''|lia].
  - lia.
Qed.

Lemma shl_align_digits (m : positive) (e e' : Z) :
  let '(m', e1) := shl_align m e e' in
  Zdigits2 (Zpos m') + e1 = Zdigits2 (Zpos m) + e /\ e1 <= e.
Proof.
  unfold shl_align. destruct (e' - e) as [|d|d] eqn:Hd; try lia.
  rewrite iter_xO_digits. lia.
Qed.

Lemma binary_round_small (s : bool) (m : positive) (e K : Z) :
  Zdigits2 (Zpos m) + e <= K -> emin <= K -> K <= emax - prec ->
  small (K + 1) (binary_round prec emax s m e).
Proof.
  intros Hd Hmin Hmax. unfold binary_round.
  pose proof (shl_align_digits m e (fexp prec emax (Zpos (digits2_pos m) + e))) as Ha.
  destruct (shl_align m e _) as [mz ez]. destruct Ha as [Hz Hez].
  pose proof (Zdigits2_pos m). pose proof (Zdigits2_pos mz).
  apply binary_round_aux_small; lia.
Qed.

Lemma binary_normalize_small (m e : Z) (szero : bool) (K : Z) :
  Zdigits2 m + e <= K -> emin <= K -> K <= emax - prec ->
  small (K + 1) (binary_normalize prec emax m e szero).
Proof.
  intros Hd Hmin Hmax. destruct m as [|p|p]; simpl; auto;
    apply binary_round_small; auto.
Qed.

Lemma shl_align_fst_digits (m : positive) (e e' : Z) :
  e' <= e ->
  Zdigits2 (Zpos (fst (shl_align m e e'))) + e' = Zdigits2 (Zpos m) + e.
Proof.
  intros He. unfold shl_align. destruct (e' - e) as [|d|d] eqn:Hd; cbn [fst]; try lia.
  rewrite iter_xO_digits. lia.
Qed.

Lemma Zdigits2_abs (m : Z) : Zdigits2 (Z.abs m) = Zdigits2 m.
Proof. destruct m; reflexivity. Qed.

(** The digits of a sum or difference of two positive numbers. *)
Lemma Zdigits2_add (a b : positive) (sa sb : bool) (d : Z) :
  Zdigits2 (Zpos a) <= d -> Zdigits2 (Zpos b) <= d ->
  Zdigits2 (cond_Zopp sa (Zpos a) + cond_Zopp sb (Zpos b)) <= d + 1.
Proof.
  intros Ha Hb. pose proof (Zdigits2_pos a) as Hpa.
  assert (Hd0 : 0 <= d) by lia.
  apply Zdigits2_le in Ha; [|lia|lia]. apply Zdigits2_le in Hb; [|lia|lia].
  set (z := cond_Zopp sa (Zpos a) + cond_Zopp sb (Zpos b)).
  assert (Hz : Z.abs z < 2 ^ (d + 1)).
  { rewrite Z.pow_add_r by lia. unfold z. destruct sa, sb; simpl cond_Zopp; lia. }
  rewrite <- Zdigits2_abs. destruct (Z.eq_dec (Z.abs z) 0) as [->|Hne]; [simpl; lia|].
  apply Zdigits2_le; lia.
Qed.

Lemma SFadd_small (K : Z) (x y : spec_float) :
  emin <= K -> K + 1 <= emax - prec ->
  small K x -> small K y -> small (K + 2) (SFadd prec emax x y).
Proof.
  intros Hmin Hmax Hx Hy.
  destruct x as [sx|sx| |sx mx ex], y as [sy|sy| |sy my ey];
    try contradiction; cbn [small] in Hx, Hy.
  - simpl. destruct sx, sy; exact I.
  - cbn [SFadd small]. lia.
  - cbn [SFadd small]. lia.
  - cbn [SFadd].
    set (ez := Z.min ex ey).
    pose proof (shl_align_fst_digits mx ex ez ltac:(unfold ez; lia)) as Hax.
    pose proof (shl_align_fst_digits my ey ez ltac:(unfold ez; lia)) as Hay.
    replace (K + 2) with (K + 1 + 1) by lia.
    apply binary_normalize_small; [|lia|lia].
    pose proof (Zdigits2_add (fst (shl_align mx ex ez)) (fst (shl_align my ey ez))
                  sx sy (K - ez) ltac:(lia) ltac:(lia)). lia.
Qed.

Ltac cmp_cases :=
  repeat match goal with
  | H : context [(?a ?= ?b)%Z] |- _ => destruct (Z.compare_spec a b)
  | |- context [(?a ?= ?b)%Z] => destruct (Z.compare_spec a b)
  | H : context [Pos.compare_cont Eq ?a ?b] |- _ =>
      change (Pos.compare_cont Eq a b) with (Pos.compare a b) in *;
      destruct (Pos.compare_spec a b)
  | |- context [Pos.compare_cont Eq ?a ?b] =>
      change (Pos.compare_cont Eq a b) with (Pos.compare a b) in *;
      destruct (Pos.compare_spec a b)
  end.

Ltac sf_order :=
  unfold SFltb, SFcompare;
  repeat match goal with
  | x : spec_float |- _ => destruct x
  end;
  repeat match goal with
  | s : bool |- _ => destruct s
  end;
  intros; try congruence; try reflexivity;
  cmp_cases; subst; cbn [CompOpp] in *; try congruence; try reflexivity; try lia.

Lemma SFltb_irrefl (x : spec_float) : SFltb x x = false.
Proof. sf_order. Qed.

Lemma SFltb_trans (x y z : spec_float) :
  SFltb x y = true -> SFltb y z = true -> SFltb x z = true.
Proof. sf_order. Qed.

Lemma SFltb_le_lt (x y z : spec_float) :
  x <> S754_nan -> SFltb y x = false -> SFltb y z = true -> SFltb x z = true.
Proof. sf_order. Qed.

Lemma smallb_small (K : Z) (x : spec_float) : smallb K x = true -> small K x.
Proof.
  destruct x; cbn [smallb small]; try discriminate; auto.
  intros H. now apply Z.leb_le.
Qed.

Lemma ltb_irrefl (x : float) : (x <? x)%float = false.
Proof. rewrite ltb_spec. apply SFltb_irrefl. Qed.

Lemma ltb_trans (x y z : float) :
  (x <? y)%float = true -> (y <? z)%float = true -> (x <? z)%float = true.
Proof. rewrite !ltb_spec. apply SFltb_trans. Qed.

Lemma small_not_nan (K : Z) (x : spec_float) : small K x -> x <> S754_nan.
Proof. destruct x; simpl; congruence. Qed.

(** [x <= y < z] gives [x < z] when [x] is a number. *)
Lemma ltb_le_lt (x y z : float) :
  ordinary x ->
  (y <? x)%float = false -> (y <? z)%float = true -> (x <? z)%float = true.
Proof.
  intros Hx. rewrite !ltb_spec. apply SFltb_le_lt.
  now apply (small_not_nan 14).
Qed.

Lemma ordinary_above_neg_infinity (s : float) :
  ordinary s -> (neg_infinity <? s)%float = true.
Proof.
  unfold ordinary. rewrite ltb_spec.
  change (Prim2SF neg_infinity) with (S754_infinity true).
  destruct (Prim2SF s); simpl; try contradiction; reflexivity.
Qed.

Lemma term_small (c : float) (n : Z) :
  term_ok c = true -> 0 <= n <= 200 -> small 8 (Prim2SF (c * float_of_int n)%float).
Proof.
  intros Hok Hn. apply smallb_small.
  unfold term_ok in Hok. rewrite forallb_forall in Hok. apply Hok.
  apply list_elem_of_In, elem_of_seqZ. lia.
Qed.

Lemma term_ok_height : term_ok (-0.51066)%float = true.
Proof. vm_compute. reflexivity. Qed.

Lemma term_ok_lines : term_ok 0.760666%float = true.
Proof. vm_compute. reflexivity. Qed.

Lemma term_ok_holes : term_ok 0.35663%float = true.
Proof. vm_compute. reflexivity. Qed.

Lemma term_ok_bump : term_ok 0.184483%float = true.
Proof. vm_compute. reflexivity. Qed.

Lemma add_small (K : Z) (x y : float) :
  emin <= K -> K + 1 <= emax - prec ->
  small K (Prim2SF x) -> small K (Prim2SF y) -> small (K + 2) (Prim2SF (x + y)%float).
Proof. intros. rewrite add_spec. now apply SFadd_small. Qed.

Lemma sub_small (K : Z) (x y : float) :
  emin <= K -> K + 1 <= emax - prec ->
  small K (Prim2SF x) -> small K (Prim2SF y) -> small (K + 2) (Prim2SF (x - y)%float).
Proof.
  intros. rewrite sub_spec. unfold SF64sub. rewrite SFsub_add_opp.
  apply SFadd_small; auto. now apply small_opp.
Qed.

(** ** The counts of a board are small *)

Lemma sum_map_bound {A : Type} (f : A -> Z) (B : Z) (l : list A) :
  (forall x, 0 <= f x <= B) ->
  0 <= fold_right Z.add 0 (map f l) <= B * Z.of_nat (length l).
Proof.
  intros Hf. induction l as [|a l IH]; cbn [map fold_right length]; [lia|].
  specialize (Hf a). lia.
Qed.

Lemma column_height_range (g : grid) (c : Z) : 0 <= column_height g c <= ROWS.
Proof.
  destruct (column_height_spec g c) as [[-> _]|(r & Hr & _ & _ & _ & ->)];
    unfold ROWS in *; lia.
Qed.

Lemma heights_sum_range (g : grid) : 0 <= heights_sum g <= 200.
Proof.
  unfold heights_sum.
  pose proof (sum_map_bound (column_height g) ROWS (seqZ 0 COLS)
                (column_height_range g)) as H.
  rewrite length_seqZ in H. unfold ROWS, COLS in *. lia.
Qed.

Lemma bumpiness_range (g : grid) : 0 <= bumpiness g <= 200.
Proof.
  unfold bumpiness.
  pose proof (sum_map_bound
                (fun i => Z.abs (column_height g i - column_height g (i + 1)))
                ROWS (seqZ 0 (COLS - 1))) as H.
  rewrite length_seqZ in H. unfold ROWS, COLS in *.
  assert (forall x : Z,
    0 <= Z.abs (column_height g x - column_height g (x + 1)) <= 20) as Hb.
  { intros x. pose proof (column_height_range g x).
    pose proof (column_height_range g (x + 1)). unfold ROWS in *. lia. }
  specialize (H Hb). lia.
Qed.

Lemma hole_count_range (g : grid) : 0 <= hole_count g <= 200.
Proof.
  unfold hole_count.
  pose proof (List.filter_length_le (fun cr => is_hole g (fst cr) (snd cr))
                (list_prod (seqZ 0 COLS) (seqZ 0 ROWS))) as H.
  change (length (list_prod (seqZ 0 COLS) (seqZ 0 ROWS))) with 200%nat in H.
  lia.
Qed.

(** On a board, with a count of lines from 0 to [ROWS], [evaluate] returns
    a float of ordinary size. *)
Lemma evaluate_ordinary (g : grid) (lines : Z) :
  wf_grid g -> 0 <= lines <= ROWS ->
  exists s, evaluate g lines = Ok s /\ ordinary s.
Proof.
  intros Hwf Hl. eexists. split; [now apply evaluate_eq|].
  unfold ordinary.
  pose proof (heights_sum_range g). pose proof (hole_count_range g).
  pose proof (bumpiness_range g). unfold ROWS in Hl.
  apply (sub_small 12); [unfold emin, emax, prec; lia .. | |].
  - apply (sub_small 10); [unfold emin, emax, prec; lia .. | |].
    + apply (add_small 8); [unfold emin, emax, prec; lia .. | |].
      * apply term_small; [exact term_ok_height | lia].
      * apply term_small; [exact term_ok_lines | lia].
    + apply (small_mono 8); [lia|].
      apply term_small; [exact term_ok_holes | lia].
  - apply (small_mono 8); [lia|].
    apply term_small; [exact term_ok_bump | lia].
Qed.

(** ** [lock_piece] and [remove_lines] keep a board a board *)

Lemma set_cell_wf (g : grid) (r c v : Z) :
  wf_grid g -> 0 <= r < ROWS -> 0 <= c < COLS ->
  exists g', set_cell g r c v = Ok g' /\ wf_grid g'.
Proof.
  intros Hwf Hr Hc. unfold set_cell.
  destruct (py_index_in_range g r) as (line & Hl & ->).
  { destruct Hwf as [Hlen _]. rewrite Hlen. lia. }
  cbn [bind]. pose proof (wf_grid_row g _ line Hwf Hl) as Hlen.
  rewrite py_setitem_in_range by (rewrite Hlen; lia). cbn [bind].
  rewrite py_setitem_in_range by (destruct Hwf as [Hg _]; rewrite Hg; lia).
  eexists. split; [reflexivity|]. destruct Hwf as [Hg Hall]. split.
  - now rewrite length_insert.
  - apply Forall_insert; [exact Hall|]. now rewrite length_insert.
Qed.

Lemma lock_cells_wf (ox oy y v : Z) (cells : list Z) :
  forall (g : grid) (x : Z),
    wf_grid g ->
    (forall i c, cells !! i = Some c -> c <> 0 ->
       0 <= x + Z.of_nat i + ox < COLS /\ 0 <= y + oy < ROWS) ->
    exists g', lock_cells g ox oy y x cells v = Ok g' /\ wf_grid g'.
Proof.
  induction cells as [|cell rest IH]; intros g x Hwf Hin; cbn [lock_cells].
  - eauto.
  - assert (Hrest : forall i c, rest !! i = Some c -> c <> 0 ->
              0 <= x + 1 + Z.of_nat i + ox < COLS /\ 0 <= y + oy < ROWS).
    { intros i c Hi Hc. specialize (Hin (S i) c Hi Hc). lia. }
    destruct (truthy cell) eqn:Ht.
    + apply truthy_true in Ht. specialize (Hin 0%nat cell eq_refl Ht).
      destruct (set_cell_wf g (y + oy) (x + ox) v Hwf) as (g1 & -> & Hwf1);
        [lia|lia|].
      cbn [bind]. now apply IH.
    + now apply IH.
Qed.

Lemma lock_rows_wf (ox oy v : Z) (sh : shape) :
  forall (g : grid) (y : Z),
    wf_grid g ->
    (forall j i, shape_cell sh j i ->
       0 <= Z.of_nat i + ox < COLS /\ 0 <= y + Z.of_nat j + oy < ROWS) ->
    exists g', lock_rows g ox oy y sh v = Ok g' /\ wf_grid g'.
Proof.
  induction sh as [|r rest IH]; intros g y Hwf Hin; cbn [lock_rows].
  - eauto.
  - destruct (lock_cells_wf ox oy y v r g 0 Hwf) as (g1 & -> & Hwf1).
    { intros i c Hi Hc.
      assert (Hcell : shape_cell (r :: rest) 0 i) by (exists r, c; auto).
      specialize (Hin _ _ Hcell). lia. }
    cbn [bind]. apply IH; [exact Hwf1|].
    intros j i (r' & c & Hj & Hi & Hc).
    assert (Hcell : shape_cell (r :: rest) (S j) i) by (exists r', c; auto).
    specialize (Hin _ _ Hcell). lia.
Qed.

(** Locking a valid placement at a row [>= 0] raises no error. *)
Lemma lock_piece_wf (g : grid) (sh : shape) (col row color_idx : Z) :
  wf_grid g -> valid_move g sh (col, row) = Ok true -> 0 <= row ->
  exists g', lock_piece g sh (col, row) color_idx = Ok g' /\ wf_grid g'.
Proof.
  intros Hwf Hv Hrow. unfold lock_piece. apply lock_rows_wf; [exact Hwf|].
  intros j i Hcell.
  pose proof (valid_move_true_cell g sh col row j i Hwf Hv Hcell) as Hn.
  unfold cell_refused in Hn. lia.
Qed.

Lemma remove_lines_wf (g : grid) :
  wf_grid g ->
  wf_grid (fst (remove_lines g)) /\ 0 <= snd (remove_lines g) <= ROWS.
Proof.
  intros [Hlen Hall]. unfold remove_lines.
  set (kept := List.filter has_zero g).
  assert (Hk : (length kept <= length g)%nat) by apply List.filter_length_le.
  assert (Hkall : Forall (fun r => length r = Z.to_nat COLS) kept).
  { rewrite Forall_forall in *. intros r Hr. apply Hall.
    apply list_elem_of_In in Hr. apply List.filter_In in Hr.
    apply list_elem_of_In. tauto. }
  destruct (truthy (ROWS - Z.of_nat (length kept))) eqn:Ht; cbn [fst snd].
  - split; [|unfold ROWS in *; lia]. split.
    + rewrite length_app, length_replicate. unfold ROWS in *. lia.
    + apply Forall_app. split; [|exact Hkall].
      apply Forall_replicate. apply length_replicate.
  - apply truthy_false in Ht. split; [|unfold ROWS in *; lia].
    split; [unfold ROWS in *; lia | exact Hkall].
Qed.

(** ** The search as one loop over the candidates *)

Lemma for_each_map {A B St : Type} (h : A -> B) (xs : list A)
    (body : B -> St -> res St) (st : St) :
  for_each (map h xs) body st = for_each xs (fun x => body (h x)) st.
Proof.
  revert st. induction xs as [|x xs IH]; intros st; cbn [map for_each];
    [reflexivity|].
  destruct (body (h x) st); cbn [bind]; auto.
Qed.

Lemma for_each_flat_map {A B St : Type} (f : A -> list B) (xs : list A)
    (body : B -> St -> res St) (st : St) :
  for_each (flat_map f xs) body st =
  for_each xs (fun x st' => for_each (f x) body st') st.
Proof.
  revert st. induction xs as [|x xs IH]; intros st; cbn [flat_map for_each];
    [reflexivity|].
  rewrite for_each_app. destruct (for_each (f x) body st); cbn [bind]; auto.
Qed.

Lemma for_each_ext {A St : Type} (xs : list A) (body body' : A -> St -> res St) :
  (forall x st, In x xs -> body x st = body' x st) ->
  forall st, for_each xs body st = for_each xs body' st.
Proof.
  induction xs as [|x xs IH]; intros Hext st; cbn [for_each]; [reflexivity|].
  rewrite Hext by (left; reflexivity).
  destruct (body' x st); cbn [bind]; [|reflexivity].
  apply IH. intros y st' Hy. apply Hext. now right.
Qed.

Lemma has_cell_first_row (sh : shape) :
  has_cell sh -> exists first_row, py_index sh 0 = Ok first_row /\
                                   width sh = Z.of_nat (length first_row).
Proof.
  intros (y & x & r & v & Hy & _). destruct sh as [|first_row rest].
  - destruct y; discriminate.
  - exists first_row. split; reflexivity.
Qed.

Lemma in_enumerate {A : Type} (l : list A) (i : nat) (a : A) :
  In (i, a) (enumerate l) -> In a l.
Proof. unfold enumerate. apply in_combine_r. Qed.

Section Candidates.

Context (fuel : nat) (g : grid) (color_idx : Z).

Lemma try_candidate_eq (rot_idx : nat) (sh : shape) (col : Z) (best : best_state) :
  try_candidate fuel g color_idx rot_idx sh col best =
  (do os <- candidate_score fuel g color_idx sh col;
   Ok (match os with
       | Some s => pick best (rot_idx, col, s)
       | None => best
       end)).
Proof.
  unfold try_candidate, candidate_score.
  destruct (hard_drop fuel g sh col) as [row|e]; cbn [bind]; [|reflexivity].
  destruct (valid_move g sh (col, row)) as [[|]|e]; cbn [bind negb];
    try reflexivity.
  destruct (lock_piece g sh (col, row) color_idx) as [temp|e]; cbn [bind];
    [|reflexivity].
  destruct (remove_lines temp) as [temp' lines]. cbn [fst snd].
  destruct (evaluate temp' lines) as [score|e]; cbn [bind]; [|reflexivity].
  destruct best as [[best_score best_col] best_rot].
  unfold pick. cbn [fst snd]. now destruct (best_score <? score)%float.
Qed.

(** The two loops of [best_move] are one loop over the candidates. *)
Lemma best_move_loops (rots : list shape) (best : best_state) :
  Forall has_cell rots ->
  for_each (enumerate rots) (try_rotation fuel g color_idx) best =
  for_each (candidates rots)
    (fun c => try_candidate fuel g color_idx (fst (fst c)) (snd (fst c)) (snd c))
    best.
Proof.
  intros Hall. unfold candidates. rewrite for_each_flat_map.
  apply for_each_ext. intros [rot_idx sh] st Hin.
  rewrite Forall_forall in Hall.
  destruct (has_cell_first_row sh) as (first_row & Hfirst & Hw).
  { apply Hall. apply list_elem_of_In. eapply in_enumerate; eauto. }
  unfold try_rotation. rewrite Hfirst. cbn [bind fst snd].
  rewrite for_each_map, Hw. reflexivity.
Qed.

(** The loop over the candidates picks among the scored candidates. *)
Lemma for_each_scored (cands : list (nat * list (list Z) * Z)) :
  forall best,
  for_each cands
    (fun c => try_candidate fuel g color_idx (fst (fst c)) (snd (fst c)) (snd c))
    best =
  (do scored <- scored_candidates fuel g color_idx cands;
   Ok (fold_left pick scored best)).
Proof.
  induction cands as [|c rest IH]; intros best;
    cbn [for_each scored_candidates bind]; [reflexivity|].
  rewrite try_candidate_eq.
  destruct (candidate_score fuel g color_idx (snd (fst c)) (snd c)) as [os|e];
    cbn [bind]; [|reflexivity].
  rewrite IH.
  destruct (scored_candidates fuel g color_idx rest) as [tl|e]; cbn [bind];
    [|reflexivity].
  destruct os; reflexivity.
Qed.

Lemma scored_candidates_in (cands : list (nat * list (list Z) * Z)) :
  forall scored, scored_candidates fuel g color_idx cands = Ok scored ->
  forall rot col s,
    In (rot, col, s) scored <->
    exists sh, In (rot, sh, col) cands /\
      candidate_score fuel g color_idx sh col = Ok (Some s).
Proof.
  induction cands as [|[[r0 sh0] c0] rest IH]; intros scored Hsc rot col s;
    cbn [scored_candidates fst snd] in Hsc.
  - injection Hsc as <-. split; [intros [] | intros (sh & [] & _)].
  - apply bind_Ok in Hsc. destruct Hsc as (os & Hos & Hsc).
    apply bind_Ok in Hsc. destruct Hsc as (tl & Htl & Hsc).
    injection Hsc as <-. specialize (IH tl Htl rot col s).
    destruct os as [s0|].
    + split.
      * intros [Heq|Hin].
        -- injection Heq as <- <- <-. exists sh0. split; [now left | exact Hos].
        -- apply IH in Hin. destruct Hin as (sh & Hin & Hcs).
           exists sh. split; [now right | exact Hcs].
      * intros (sh & [Heq|Hin] & Hcs).
        -- injection Heq as -> -> ->. rewrite Hos in Hcs. injection Hcs as ->.
           now left.
        -- right. apply IH. eauto.
    + rewrite IH. split; intros (sh & Hin & Hcs); exists sh.
      * split; [now right | exact Hcs].
      * destruct Hin as [Heq|Hin]; [|auto].
        injection Heq as -> -> ->. rewrite Hos in Hcs. discriminate.
Qed.

Section OnBoard.

Context (Hwf : wf_grid g) (Hfuel : ROWS <= Z.of_nat fuel).

(** On a board, a candidate whose shape has an occupied cell is scored
    without error: its final placement is refused, or it gets a score of
    ordinary size. *)
Lemma candidate_score_spec (sh : shape) (col : Z) :
  has_cell sh ->
  exists row, hard_drop fuel g sh col = Ok row /\ 0 <= row /\
    ((valid_move g sh (col, row) = Ok false /\
      candidate_score fuel g color_idx sh col = Ok None) \/
     (valid_move g sh (col, row) = Ok true /\
      exists s, candidate_score fuel g color_idx sh col = Ok (Some s) /\
                ordinary s)).
Proof.
  intros Hcell.
  destruct (hard_drop_loop_spec g sh col Hwf Hcell fuel 0)
    as (row & Hrow & Hbound & _); [unfold ROWS; lia|lia|].
  fold (hard_drop fuel g sh col) in Hrow.
  exists row. split; [exact Hrow|]. split; [lia|].
  unfold candidate_score. rewrite Hrow. cbn [bind].
  destruct (valid_move_total g sh col row Hwf) as [Hv|Hv]; rewrite Hv;
    cbn [bind negb]; [right|left; auto].
  split; [reflexivity|].
  destruct (lock_piece_wf g sh col row color_idx Hwf Hv) as (temp & -> & Hwt);
    [lia|].
  cbn [bind]. destruct (remove_lines_wf temp Hwt) as [Hwr Hlines].
  destruct (evaluate_ordinary _ _ Hwr Hlines) as (s & -> & Hs).
  cbn [bind]. eauto.
Qed.

Lemma scored_candidates_total (cands : list (nat * list (list Z) * Z)) :
  (forall c, In c cands -> has_cell (snd (fst c))) ->
  exists scored, scored_candidates fuel g color_idx cands = Ok scored /\
    forall c, In c scored -> ordinary (snd c).
Proof.
  induction cands as [|c rest IH]; intros Hall;
    cbn [scored_candidates].
  - exists []. split; [reflexivity|]. intros c [].
  - destruct IH as (tl & -> & Htl); [intros c' Hc'; apply Hall; now right|].
    destruct (candidate_score_spec (snd (fst c)) (snd c))
      as (row & _ & _ & [[_ ->]|[_ (s & -> & Hs)]]); auto;
      try (apply Hall; now left); cbn [bind].
    + eauto.
    + eexists. split; [reflexivity|]. intros c' [<-|Hc']; auto.
Qed.

(** A candidate passes validation exactly when it is scored. *)
Lemma candidate_valid_iff (sh : shape) (col : Z) :
  has_cell sh ->
  (exists row, hard_drop fuel g sh col = Ok row /\
               valid_move g sh (col, row) = Ok true) <->
  (exists s, candidate_score fuel g color_idx sh col = Ok (Some s)).
Proof.
  intros Hcell.
  destruct (candidate_score_spec sh col Hcell)
    as (row & Hrow & _ & [[Hv Hs]|[Hv (s & Hs & _)]]).
  - split.
    + intros (row' & Hrow' & Hv'). congruence.
    + intros (s & Hs'). congruence.
  - split; eauto.
Qed.

End OnBoard.

End Candidates.

(** ** The first maximum *)

Lemma fold_left_pick_snoc (l : list (nat * Z * float)) (c : nat * Z * float)
    (init : best_state) :
  fold_left pick (l ++ [c]) init = pick (fold_left pick l init) c.
Proof. now rewrite fold_left_app. Qed.

Lemma pick_first_max (l : list (nat * Z * float)) :
  (forall c, In c l -> ordinary (snd c)) ->
  match l with
  | [] => fold_left pick l (neg_infinity, 0, 0%nat) = (neg_infinity, 0, 0%nat)
  | _ => first_max l (fold_left pick l (neg_infinity, 0, 0%nat))
  end.
Proof.
  induction l as [|c l IH] using rev_ind; intros Hord; [reflexivity|].
  assert (Hgoal : first_max (l ++ [c])
                    (fold_left pick (l ++ [c]) (neg_infinity, 0, 0%nat))).
  { rewrite fold_left_pick_snoc.
    assert (Hc : ordinary (snd c)) by (apply Hord, in_or_app; right; now left).
    assert (Hl : forall c', In c' l -> ordinary (snd c'))
      by (intros c' Hc'; apply Hord, in_or_app; now left).
    specialize (IH Hl). destruct c as [[rot col] s]. cbn [snd] in Hc.
    destruct l as [|c0 l0].
    - cbn [fold_left]. unfold pick. cbn [fst snd].
      rewrite (ordinary_above_neg_infinity s Hc).
      exists 0%nat. cbn [fst snd]. split; [reflexivity|]. split.
      + intros c' [<-|[]]. apply ltb_irrefl.
      + intros j c' Hj. lia.
    - set (l := c0 :: l0) in *.
      destruct IH as (k & Hk & Hmax & Hfirst).
      destruct (fold_left pick l (neg_infinity, 0, 0%nat)) as [[bs bc] br].
      cbn [fst snd] in Hk, Hmax, Hfirst.
      unfold pick. cbn [fst snd].
      destruct (bs <? s)%float eqn:Hlt; cbn [fst snd].
      + exists (length l). cbn [fst snd]. split.
        { rewrite lookup_app_r, Nat.sub_diag by lia. reflexivity. }
        split.
        * intros c' Hin. apply in_app_or in Hin. destruct Hin as [Hin|[<-|[]]].
          -- destruct (s <? snd c')%float eqn:Hc'; [|reflexivity].
             pose proof (ltb_trans bs s (snd c') Hlt Hc') as Htr.
             specialize (Hmax c' Hin). congruence.
          -- apply ltb_irrefl.
        * intros j c' Hj Hlook. rewrite lookup_app_l in Hlook by lia.
          assert (Hin : In c' l).
          { apply list_elem_of_In. eapply list_elem_of_lookup_2; eauto. }
          apply (ltb_le_lt (snd c') bs s); auto.
      + exists k. cbn [fst snd]. split.
        { apply lookup_app_l_Some. exact Hk. }
        split.
        * intros c' Hin. apply in_app_or in Hin. destruct Hin as [Hin|[<-|[]]];
            auto.
        * intros j c' Hj Hlook. apply (Hfirst j c' Hj).
          rewrite lookup_app_l in Hlook; [exact Hlook|].
          apply lookup_lt_Some in Hk. lia. }
  destruct l; exact Hgoal.
Qed.

(** ** The order of the enumeration *)

Lemma in_enumerate_from {A : Type} (l : list A) :
  forall (n i : nat) (a : A),
    In (i, a) (combine (seq n (length l)) l) <->
    (n <= i)%nat /\ l !! (i - n)%nat = Some a.
Proof.
  induction l as [|x l IH]; intros n i a; cbn [length seq combine].
  - split; [intros [] | intros [_ H]; discriminate].
  - cbn [In]. rewrite IH. split.
    + intros [Heq|[Hle Hl]].
      * injection Heq as -> ->. rewrite Nat.sub_diag. split; [lia|reflexivity].
      * split; [lia|]. replace (i - n)%nat with (S (i - S n)) by lia. exact Hl.
    + intros [Hle Hl]. destruct (Nat.eq_dec n i) as [->|Hne].
      * left. rewrite Nat.sub_diag in Hl. injection Hl as ->. reflexivity.
      * right. split; [lia|].
        replace (i - n)%nat with (S (i - S n)) in Hl by lia. exact Hl.
Qed.

Lemma in_enumerate_iff {A : Type} (l : list A) (i : nat) (a : A) :
  In (i, a) (enumerate l) <-> l !! i = Some a.
Proof.
  unfold enumerate. rewrite in_enumerate_from, Nat.sub_0_r.
  split; [tauto | intros H; split; [lia | exact H]].
Qed.

(** The candidates are the pairs of a rotation and a column of its
    range. *)
Lemma in_candidates (rots : list shape) (r : nat) (sh : shape) (col : Z) :
  In (r, sh, col) (candidates rots) <->
  rots !! r = Some sh /\ 0 <= col <= COLS - width sh.
Proof.
  unfold candidates. rewrite in_flat_map. split.
  - intros ([r' sh'] & Hin & Hmap). cbn [fst snd] in Hmap.
    apply in_map_iff in Hmap. destruct Hmap as (col' & Heq & Hcol).
    injection Heq as -> -> ->. apply in_enumerate_iff in Hin.
    apply list_elem_of_In, elem_of_seqZ in Hcol. split; [exact Hin | lia].
  - intros [Hr Hcol]. exists (r, sh). split; [now apply in_enumerate_iff|].
    cbn [fst snd]. apply in_map_iff. exists col. split; [reflexivity|].
    apply list_elem_of_In, elem_of_seqZ. lia.
Qed.

Lemma StronglySorted_app {A : Type} (R : A -> A -> Prop) (l1 l2 : list A) :
  StronglySorted R l1 -> StronglySorted R l2 ->
  (forall x y, In x l1 -> In y l2 -> R x y) ->
  StronglySorted R (l1 ++ l2).
Proof.
  intros H1 H2 H12. induction H1 as [|a l1 Hs IH Ha]; cbn [app]; [exact H2|].
  constructor.
  - apply IH. intros x y Hx Hy. apply H12; [now right | exact Hy].
  - apply List.Forall_app. split; [exact Ha|].
    apply List.Forall_forall. intros y Hy. apply H12; [now left | exact Hy].
Qed.

Lemma seqZ_sorted (n : nat) :
  forall a, StronglySorted Z.lt (seqZ a (Z.of_nat n)).
Proof.
  induction n as [|n IH]; intros a.
  - constructor.
  - rewrite seqZ_cons by lia. constructor.
    + replace (Z.pred (Z.of_nat (S n))) with (Z.of_nat n) by lia. apply IH.
    + apply List.Forall_forall. intros x Hx.
      apply list_elem_of_In, elem_of_seqZ in Hx. lia.
Qed.

Lemma columns_sorted (r : nat) (sh : shape) (m : Z) :
  StronglySorted cand_before (map (fun col => (r, sh, col)) (seqZ 0 m)).
Proof.
  destruct (Z.le_gt_cases m 0) as [Hm|Hm].
  - rewrite seqZ_nil by lia. constructor.
  - pose proof (seqZ_sorted (Z.to_nat m) 0) as Hs.
    rewrite Z2Nat.id in Hs by lia.
    induction Hs as [|a l Hs IH Ha]; cbn [map]; constructor; [exact IH|].
    apply List.Forall_forall. intros c Hc. apply in_map_iff in Hc.
    destruct Hc as (col & <- & Hcol). right. cbn [fst snd].
    split; [reflexivity|]. rewrite List.Forall_forall in Ha. now apply Ha.
Qed.

Lemma candidates_from_sorted (rots : list shape) :
  forall n,
  StronglySorted cand_before
    (flat_map
       (fun rot => map (fun col => (fst rot, snd rot, col))
                     (seqZ 0 (COLS - width (snd rot) + 1)))
       (combine (seq n (length rots)) rots)).
Proof.
  induction rots as [|sh rots IH]; intros n; cbn [length seq combine flat_map].
  - constructor.
  - apply StronglySorted_app; [apply columns_sorted | apply IH|].
    cbn [fst snd]. intros x y Hx Hy.
    apply in_map_iff in Hx. destruct Hx as (col & <- & _).
    apply in_flat_map in Hy. destruct Hy as ([r' sh'] & Hin & Hy).
    apply in_map_iff in Hy. destruct Hy as (col' & <- & _).
    apply in_enumerate_from in Hin. left. cbn [fst snd]. lia.
Qed.

(** The enumeration is in ascending order of rotation index, then of
    column. *)
Lemma candidates_sorted (rots : list shape) :
  StronglySorted cand_before (candidates rots).
Proof. apply candidates_from_sorted. Qed.

(** ** [best_move] *)

(** The analysis of [best_move] that the theorems about it share. *)
Lemma best_move_analysis (fuel : nat) (g : grid) (p : piece) (rots : list shape) :
  wf_grid g -> Forall has_cell rots -> ROWS <= Z.of_nat fuel ->
  exists scored,
    scored_candidates fuel g (PIECE_TO_IDX p) (candidates rots) = Ok scored /\
    (forall c, In c scored -> ordinary (snd c)) /\
    match scored with
    | [] => best_move fuel g p rots = Ok (0, 0%nat)
    | _ => exists best, first_max scored best /\
             best_move fuel g p rots = Ok (snd (fst best), snd best)
    end.
Proof.
  intros Hwf Hall Hfuel.
  destruct (scored_candidates_total fuel g (PIECE_TO_IDX p) Hwf Hfuel
              (candidates rots)) as (scored & Hsc & Hord).
  { intros [[r sh] col] Hin. apply in_candidates in Hin. cbn [fst snd].
    rewrite Forall_forall in Hall. apply Hall.
    eapply list_elem_of_lookup_2. apply Hin. }
  exists scored. split; [exact Hsc|]. split; [exact Hord|].
  unfold best_move. rewrite best_move_loops by exact Hall.
  rewrite for_each_scored, Hsc. cbn [bind].
  pose proof (pick_first_max scored Hord) as Hpick.
  destruct scored as [|c0 scored0].
  - rewrite Hpick. reflexivity.
  - exists (fold_left pick (c0 :: scored0) (neg_infinity, 0, 0%nat)).
    split; [exact Hpick|].
    destruct (fold_left pick (c0 :: scored0) (neg_infinity, 0, 0%nat))
      as [[bs bc] br]. reflexivity.
Qed.

Lemma wf_checker : wf_grid checker.
Proof. split; [reflexivity|]. repeat constructor. Qed.

Lemma has_cellb_has_cell (sh : shape) : has_cellb sh = true -> has_cell sh.
Proof.
  unfold has_cellb. rewrite existsb_exists. intros (r & Hr & Hex).
  apply existsb_exists in Hex. destruct Hex as (v & Hv & Ht).
  apply list_elem_of_In, list_elem_of_lookup in Hr. destruct Hr as [y Hy].
  apply list_elem_of_In, list_elem_of_lookup in Hv. destruct Hv as [x Hx].
  exists y, x, r, v. repeat split; auto. now apply truthy_true.
Qed.

Lemma rotations_have_cells (p : piece) : Forall has_cell (ROTATIONS p).
Proof.
  apply Forall_forall. intros sh Hsh. apply has_cellb_has_cell.
  apply list_elem_of_In in Hsh.
  assert (Hall : forallb has_cellb (ROTATIONS p) = true) by (destruct p; reflexivity).
  rewrite forallb_forall in Hall. now apply Hall.
Qed.

(** C1. On every board, for every piece type and every list of rotation
    matrices with an occupied cell each, [best_move] enumerates the
    candidates in ascending order of rotation index and, within a rotation
    of width [w], in ascending order of column over 0 .. COLS - w; a
    candidate whose final placement fails validation is skipped, the others
    are scored by [evaluate] after lock and line clearing on the copy; and
    the pair returned is the first scored candidate of maximum score: none
    has a greater score, and every one before it has a smaller score. *)
Theorem best_move_first_max (fuel : nat) (g : grid) (p : piece) (rots : list shape) :
  wf_grid g -> Forall has_cell rots -> ROWS <= Z.of_nat fuel ->
  StronglySorted cand_before (candidates rots) /\
  (forall r sh col,
     In (r, sh, col) (candidates rots) <->
     rots !! r = Some sh /\ 0 <= col <= COLS - width sh) /\
  exists scored,
    scored_candidates fuel g (PIECE_TO_IDX p) (candidates rots) = Ok scored /\
    (scored <> [] ->
     exists k rot col s,
       scored !! k = Some (rot, col, s) /\
       best_move fuel g p rots = Ok (col, rot) /\
       (forall c, In c scored -> (s <? snd c)%float = false) /\
       (forall j c, (j < k)%nat -> scored !! j = Some c ->
          (snd c <? s)%float = true)).
Proof.
  intros Hwf Hall Hfuel.
  split; [apply candidates_sorted|]. split; [apply in_candidates|].
  destruct (best_move_analysis fuel g p rots Hwf Hall Hfuel)
    as (scored & Hsc & _ & Hbest).
  exists scored. split; [exact Hsc|]. intros Hne.
  destruct scored as [|c0 scored0]; [congruence|].
  destruct Hbest as ([[bs bc] br] & (k & Hk & Hmax & Hfirst) & Hbm).
  cbn [fst snd] in *. exists k, br, bc, bs. auto.
Qed.

Lemma best_move_first_max_witness :
  StronglySorted cand_before (candidates (ROTATIONS pT)) /\
  (forall r sh col,
     In (r, sh, col) (candidates (ROTATIONS pT)) <->
     ROTATIONS pT !! r = Some sh /\ 0 <= col <= COLS - width sh) /\
  exists scored,
    scored_candidates 20 create_grid (PIECE_TO_IDX pT) (candidates (ROTATIONS pT))
      = Ok scored /\
    (scored <> [] ->
     exists k rot col s,
       scored !! k = Some (rot, col, s) /\
       best_move 20 create_grid pT (ROTATIONS pT) = Ok (col, rot) /\
       (forall c, In c scored -> (s <? snd c)%float = false) /\
       (forall j c, (j < k)%nat -> scored !! j = Some c ->
          (snd c <? s)%float = true)).
Proof.
  apply (best_move_first_max 20 create_grid pT (ROTATIONS pT) wf_create_grid
           (rotations_have_cells pT)).
  unfold ROWS. lia.
Defined.

(** C10. On every board, for every list of rotation matrices with an
    occupied cell each: if some candidate is feasible (a rotation of index
    [r] and a column of its range whose placement at its hard-drop row
    passes [valid_move]), the pair returned by [best_move] is a feasible
    candidate too. *)
Theorem best_move_feasible (fuel : nat) (g : grid) (p : piece) (rots : list shape) :
  wf_grid g -> Forall has_cell rots -> ROWS <= Z.of_nat fuel ->
  (exists r sh col row,
     rots !! r = Some sh /\ 0 <= col <= COLS - width sh /\
     hard_drop fuel g sh col = Ok row /\ valid_move g sh (col, row) = Ok true) ->
  exists col rot sh row,
    best_move fuel g p rots = Ok (col, rot) /\
    rots !! rot = Some sh /\ 0 <= col <= COLS - width sh /\
    hard_drop fuel g sh col = Ok row /\ valid_move g sh (col, row) = Ok true.
Proof.
  intros Hwf Hall Hfuel (r & sh & col & row & Hr & Hcol & Hrow & Hv).
  assert (Hcells : forall r sh, rots !! r = Some sh -> has_cell sh).
  { intros r' sh' Hr'. rewrite Forall_forall in Hall. apply Hall.
    eapply list_elem_of_lookup_2; eauto. }
  destruct (best_move_analysis fuel g p rots Hwf Hall Hfuel)
    as (scored & Hsc & _ & Hbest).
  pose proof (scored_candidates_in fuel g (PIECE_TO_IDX p) _ scored Hsc) as Hin.
  assert (Hne : scored <> []).
  { destruct (proj1 (candidate_valid_iff fuel g (PIECE_TO_IDX p) Hwf Hfuel sh col
                       (Hcells r sh Hr))) as (s & Hs); [eauto|].
    assert (In (r, col, s) scored) as Hmem.
    { apply Hin. exists sh. split; [now apply in_candidates | exact Hs]. }
    intros ->. destruct Hmem. }
  destruct scored as [|c0 scored0]; [congruence|].
  destruct Hbest as ([[bs bc] br] & (k & Hk & _) & Hbm). cbn [fst snd] in *.
  assert (Hmem : In (br, bc, bs) (c0 :: scored0)).
  { apply list_elem_of_In. eapply list_elem_of_lookup_2; eauto. }
  apply Hin in Hmem. destruct Hmem as (sh' & Hc & Hs).
  apply in_candidates in Hc. destruct Hc as [Hr' Hcol'].
  destruct (proj2 (candidate_valid_iff fuel g (PIECE_TO_IDX p) Hwf Hfuel sh' bc
                     (Hcells br sh' Hr'))) as (row' & Hrow' & Hv');
    [eauto|].
  exists bc, br, sh', row'. auto.
Qed.

Lemma best_move_feasible_witness :
  exists col rot sh row,
    best_move 20 create_grid pI (ROTATIONS pI) = Ok (col, rot) /\
    ROTATIONS pI !! rot = Some sh /\ 0 <= col <= COLS - width sh /\
    hard_drop 20 create_grid sh col = Ok row /\
    valid_move create_grid sh (col, row) = Ok true.
Proof.
  apply (best_move_feasible 20 create_grid pI (ROTATIONS pI) wf_create_grid
           (rotations_have_cells pI)).
  - unfold ROWS. lia.
  - exists 0%nat, [[1; 1; 1; 1]], 0, 19.
    split; [reflexivity|]. split; [vm_compute; split; discriminate|].
    split; reflexivity.
Defined.

(** C7, as the code has it.  If no candidate passes validation,
    [best_move] returns the pair (0, 0), the values [best_col] and
    [best_rot] start with. *)
Theorem best_move_no_candidate (fuel : nat) (g : grid) (p : piece) (rots : list shape) :
  wf_grid g -> Forall has_cell rots -> ROWS <= Z.of_nat fuel ->
  (forall r sh col row,
     rots !! r = Some sh -> 0 <= col <= COLS - width sh ->
     hard_drop fuel g sh col = Ok row -> valid_move g sh (col, row) <> Ok true) ->
  best_move fuel g p rots = Ok (0, 0%nat).
Proof.
  intros Hwf Hall Hfuel Hnone.
  destruct (best_move_analysis fuel g p rots Hwf Hall Hfuel)
    as (scored & Hsc & _ & Hbest).
  destruct scored as [|[[r col] s] scored0]; [exact Hbest|].
  exfalso.
  pose proof (scored_candidates_in fuel g (PIECE_TO_IDX p) _ _ Hsc r col s) as Hin.
  destruct (proj1 Hin) as (sh & Hc & Hs); [now left|].
  apply in_candidates in Hc. destruct Hc as [Hr Hcol].
  assert (Hcell : has_cell sh).
  { rewrite Forall_forall in Hall. apply Hall.
    eapply list_elem_of_lookup_2; eauto. }
  destruct (proj2 (candidate_valid_iff fuel g (PIECE_TO_IDX p) Hwf Hfuel sh col
                     Hcell)) as (row & Hrow & Hv); [eauto|].
  exact (Hnone r sh col row Hr Hcol Hrow Hv).
Qed.

Lemma all_refused (fuel : nat) (g : grid) (rots : list shape) :
  forallb (refused_b fuel g) (candidates rots) = true ->
  forall r sh col row,
    rots !! r = Some sh -> 0 <= col <= COLS - width sh ->
    hard_drop fuel g sh col = Ok row -> valid_move g sh (col, row) <> Ok true.
Proof.
  intros Hall r sh col row Hr Hcol Hrow Hv.
  rewrite forallb_forall in Hall.
  specialize (Hall (r, sh, col) (proj2 (in_candidates rots r sh col) (conj Hr Hcol))).
  unfold refused_b in Hall. cbn [fst snd] in Hall.
  rewrite Hrow, Hv in Hall. discriminate.
Qed.

Lemma checker_refuses_I :
  forall r sh col row,
    ROTATIONS pI !! r = Some sh -> 0 <= col <= COLS - width sh ->
    hard_drop 20 checker sh col = Ok row ->
    valid_move checker sh (col, row) <> Ok true.
Proof. apply all_refused. vm_compute. reflexivity. Qed.

Lemma best_move_no_candidate_witness :
  best_move 20 checker pI (ROTATIONS pI) = Ok (0, 0%nat).
Proof.
  apply (best_move_no_candidate 20 checker pI (ROTATIONS pI) wf_checker
           (rotations_have_cells pI)).
  - unfold ROWS. lia.
  - exact checker_refuses_I.
Defined.

(** C7 as stated fails: on the checkerboard no candidate of the piece I
    passes validation and [best_move] returns (0, 0); on the empty board it
    returns the same (0, 0), there the feasible candidate of rotation 0 at
    column 0.  The pair returned does not tell the two apart. *)
Lemma best_move_fallback_not_explicit :
  (forall r sh col row,
     ROTATIONS pI !! r = Some sh -> 0 <= col <= COLS - width sh ->
     hard_drop 20 checker sh col = Ok row ->
     valid_move checker sh (col, row) <> Ok true) /\
  best_move 20 checker pI (ROTATIONS pI) = Ok (0, 0%nat) /\
  best_move 20 create_grid pI (ROTATIONS pI) = Ok (0, 0%nat) /\
  ROTATIONS pI !! 0%nat = Some [[1; 1; 1; 1]] /\
  hard_drop 20 create_grid [[1; 1; 1; 1]] 0 = Ok 19 /\
  valid_move create_grid [[1; 1; 1; 1]] (0, 19) = Ok true.
Proof.
  split; [exact checker_refuses_I|].
  repeat split; vm_compute; reflexivity.
Qed.

(** ** The board as shared objects: reading through the heap *)

Lemma deref_Forall2 (h : heap) (g : list nat) :
  forall gv, deref h g = Ok gv <-> Forall2 (fun l r => h !! l = Some r) g gv.
Proof.
  induction g as [|l g IH]; intros gv; cbn [deref].
  - split.
    + intros [= <-]. constructor.
    + intros H. inversion H. reflexivity.
  - unfold read_row. split.
    + intros H. apply bind_Ok in H. destruct H as (r & Hr & H).
      apply bind_Ok in H. destruct H as (rest & Hrest & H). injection H as <-.
      destruct (h !! l) eqn:E; [|discriminate]. injection Hr as ->.
      constructor; [exact E | now apply IH].
    + intros H. inversion H as [|? r ? rest Hl Hrest]; subst.
      rewrite Hl. cbn [bind]. apply IH in Hrest. now rewrite Hrest.
Qed.

Lemma deref_weaken (h h' : heap) (g : list nat) (gv : list (list Z)) :
  h ⊆ h' -> deref h g = Ok gv -> deref h' g = Ok gv.
Proof.
  intros Hsub. rewrite !deref_Forall2. intros HF.
  eapply Forall2_impl; [exact HF|].
  intros l r Hl. cbn beta in *. exact (lookup_weaken _ _ _ _ Hl Hsub).
Qed.

Lemma deref_length (h : heap) (g : list nat) (gv : list (list Z)) :
  deref h g = Ok gv -> length g = length gv.
Proof. rewrite deref_Forall2. apply Forall2_length. Qed.

(** ** The board as shared objects: the copy *)

Lemma alloc_fresh (h : heap) (r : list Z) : h !! fst (alloc h r) = None.
Proof. cbn [alloc fst]. apply not_elem_of_dom, is_fresh. Qed.

Lemma alloc_subseteq (h : heap) (r : list Z) : h ⊆ snd (alloc h r).
Proof. cbn [alloc snd]. apply insert_subseteq, (alloc_fresh h r). Qed.

Lemma alloc_lookup (h : heap) (r : list Z) :
  snd (alloc h r) !! fst (alloc h r) = Some r.
Proof. cbn [alloc fst snd]. apply lookup_insert_eq. Qed.

(** The copy of a grid: new row objects, all distinct, with the contents
    of the rows of the grid; the objects of the heap are untouched. *)
Lemma copy_rows_spec (g : list nat) :
  forall (h : heap) (gv : list (list Z)),
    deref h g = Ok gv ->
    exists temp h1, copy_rows h g = Ok (temp, h1) /\
      h ⊆ h1 /\ deref h1 temp = Ok gv /\ NoDup temp /\
      (forall l, l ∈ temp -> h !! l = None).
Proof.
  induction g as [|l g IH]; intros h gv Hd; cbn [copy_rows deref] in *.
  - injection Hd as <-. exists [], h. repeat split; auto.
    + constructor.
    + intros l Hl. inversion Hl.
  - apply bind_Ok in Hd. destruct Hd as (r & Hr & Hd).
    apply bind_Ok in Hd. destruct Hd as (rest & Hrest & Hd). injection Hd as <-.
    rewrite Hr. cbn [bind].
    destruct (IH (snd (alloc h r)) rest) as (temp & h1 & -> & Hsub & Hd1 & Hnd & Hfr).
    { eapply deref_weaken; [apply alloc_subseteq | exact Hrest]. }
    cbn [bind fst snd]. eexists _, h1. split; [reflexivity|].
    assert (Hnew : h1 !! fst (alloc h r) = Some r).
    { eapply lookup_weaken; [apply alloc_lookup | exact Hsub]. }
    split; [etrans; [apply alloc_subseteq | exact Hsub]|]. split; [|split].
    + cbn [deref]. unfold read_row. rewrite Hnew. cbn [bind]. now rewrite Hd1.
    + constructor; [|exact Hnd]. intros Hin. apply Hfr in Hin.
      rewrite alloc_lookup in Hin. discriminate.
    + intros l' Hl'. apply elem_of_cons in Hl'. destruct Hl' as [->|Hl'].
      * apply alloc_fresh.
      * apply Hfr in Hl'.
        destruct (h !! l') as [x|] eqn:E; [|reflexivity].
        pose proof (lookup_weaken _ _ _ _ E (alloc_subseteq h r)). congruence.
Qed.

(** ** The board as shared objects: locking *)

Lemma py_pos_length {A B : Type} (l : list A) (k : list B) (i : Z) :
  length l = length k -> py_pos l i = py_pos k i.
Proof. intros H. unfold py_pos. now rewrite H. Qed.

Lemma py_index_Ok {A : Type} (l : list A) (i : Z) (a : A) :
  py_index l i = Ok a <-> exists j, py_pos l i = Some j /\ l !! j = Some a.
Proof.
  unfold py_index. destruct (py_pos l i) as [j|].
  - destruct (l !! j) as [x|] eqn:E.
    + split; [intros [= ->]; eauto | intros (j' & [= <-] & Hl); congruence].
    + split; [discriminate | intros (j' & [= <-] & Hl); congruence].
  - split; [discriminate | intros (j' & Hj & _); discriminate].
Qed.

Lemma py_setitem_Ok {A : Type} (l : list A) (i : Z) (v : A) (l' : list A) :
  py_setitem l i v = Ok l' <-> exists j, py_pos l i = Some j /\ l' = <[j := v]> l.
Proof.
  unfold py_setitem. destruct (py_pos l i) as [j|].
  - split; [intros [= <-]; eauto | intros (j' & [= <-] & ->); reflexivity].
  - split; [discriminate | intros (j' & Hj & _); discriminate].
Qed.

Section LockOnHeap.

(** A grid whose rows are distinct objects, as the copy of [best_move]
    is. *)
Context (g : list nat) (Hnd : NoDup g).

Lemma frame_trans (h1 h2 h3 : heap) :
  frame g h1 h2 -> frame g h2 h3 -> frame g h1 h3.
Proof. intros H12 H23 l Hl. rewrite H23, H12; auto. Qed.

Lemma set_cell_h_sim (h : heap) (gv gv' : list (list Z)) (r c v : Z) :
  deref h g = Ok gv -> set_cell gv r c v = Ok gv' ->
  exists h', set_cell_h h g r c v = Ok h' /\ deref h' g = Ok gv' /\ frame g h h'.
Proof.
  intros Hd Hset. unfold set_cell in Hset.
  apply bind_Ok in Hset. destruct Hset as (old & Hold & Hset).
  apply bind_Ok in Hset. destruct Hset as (new & Hnew & Hset).
  apply py_index_Ok in Hold. destruct Hold as (j & Hj & Hgj).
  apply py_setitem_Ok in Hset. destruct Hset as (j' & Hj' & ->).
  assert (j' = j) as -> by congruence.
  pose proof (deref_length h g gv Hd) as Hlen.
  apply deref_Forall2 in Hd.
  destruct (Forall2_lookup_r _ _ _ _ _ Hd Hgj) as (l & Hl & Hhl).
  exists (<[l := new]> h). split; [|split].
  - unfold set_cell_h.
    assert (py_index g r = Ok l) as ->.
    { apply py_index_Ok. exists j. split; [|exact Hl].
      now rewrite (py_pos_length g gv). }
    cbn [bind]. unfold read_row. rewrite Hhl. cbn [bind]. now rewrite Hnew.
  - apply deref_Forall2. apply Forall2_same_length_lookup. split.
    + now rewrite length_insert.
    + intros i x y Hx Hy. destruct (Nat.eq_dec i j) as [->|Hne].
      * assert (x = l) as -> by congruence.
        rewrite list_lookup_insert_eq in Hy
          by (eapply lookup_lt_Some; eauto).
        injection Hy as <-. apply lookup_insert_eq.
      * rewrite list_lookup_insert_ne in Hy by congruence.
        rewrite lookup_insert_ne.
        -- exact (Forall2_lookup_lr _ _ _ _ _ _ Hd Hx Hy).
        -- intros <-. apply Hne. eapply NoDup_lookup; eauto.
  - intros l' Hl'. apply lookup_insert_ne. intros <-. apply Hl'.
    eapply list_elem_of_lookup_2; eauto.
Qed.

Lemma lock_cells_h_sim (ox oy y v : Z) (cells : list Z) :
  forall (h : heap) (gv gv' : list (list Z)) (x : Z),
    deref h g = Ok gv -> lock_cells gv ox oy y x cells v = Ok gv' ->
    exists h', lock_cells_h h g ox oy y x cells v = Ok h' /\
      deref h' g = Ok gv' /\ frame g h h'.
Proof.
  induction cells as [|cell rest IH]; intros h gv gv' x Hd Hlock;
    cbn [lock_cells lock_cells_h] in *.
  - injection Hlock as <-. exists h. repeat split; auto.
  - destruct (truthy cell).
    + apply bind_Ok in Hlock. destruct Hlock as (gv1 & Hset & Hlock).
      destruct (set_cell_h_sim h gv gv1 _ _ _ Hd Hset)
        as (h1 & -> & Hd1 & Hfr1).
      cbn [bind].
      destruct (IH h1 gv1 gv' (x + 1) Hd1 Hlock) as (h' & -> & Hd' & Hfr').
      exists h'. repeat split; auto. eapply frame_trans; eauto.
    + eauto.
Qed.

Lemma lock_rows_h_sim (ox oy v : Z) (sh : shape) :
  forall (h : heap) (gv gv' : list (list Z)) (y : Z),
    deref h g = Ok gv -> lock_rows gv ox oy y sh v = Ok gv' ->
    exists h', lock_rows_h h g ox oy y sh v = Ok h' /\
      deref h' g = Ok gv' /\ frame g h h'.
Proof.
  induction sh as [|r rest IH]; intros h gv gv' y Hd Hlock;
    cbn [lock_rows lock_rows_h] in *.
  - injection Hlock as <-. exists h. repeat split; auto.
  - apply bind_Ok in Hlock. destruct Hlock as (gv1 & Hcells & Hlock).
    destruct (lock_cells_h_sim ox oy y v r h gv gv1 0 Hd Hcells)
      as (h1 & -> & Hd1 & Hfr1).
    cbn [bind].
    destruct (IH h1 gv1 gv' (y + 1) Hd1 Hlock) as (h' & -> & Hd' & Hfr').
    exists h'. repeat split; auto. eapply frame_trans; eauto.
Qed.

(** [lock_piece] on a grid of distinct row objects writes what it writes
    on the value, and only into the rows of that grid. *)
Lemma lock_piece_h_sim (h : heap) (gv gv' : list (list Z))
    (sh : shape) (offset : Z * Z) (color_idx : Z) :
  deref h g = Ok gv -> lock_piece gv sh offset color_idx = Ok gv' ->
  exists h', lock_piece_h h g sh offset color_idx = Ok h' /\
    deref h' g = Ok gv' /\ frame g h h'.
Proof.
  intros Hd Hlock. destruct offset as [ox oy].
  unfold lock_piece in Hlock. unfold lock_piece_h.
  eapply lock_rows_h_sim; eauto.
Qed.

End LockOnHeap.

(** ** The board as shared objects: clearing lines *)

Lemma keep_rows_spec (h : heap) (g : list nat) :
  forall gv, deref h g = Ok gv ->
  exists kept, keep_rows h g = Ok kept /\
    deref h kept = Ok (List.filter has_zero gv).
Proof.
  induction g as [|l g IH]; intros gv Hd; cbn [deref keep_rows] in *.
  - injection Hd as <-. exists []. split; reflexivity.
  - apply bind_Ok in Hd. destruct Hd as (r & Hr & Hd).
    apply bind_Ok in Hd. destruct Hd as (rest & Hrest & Hd). injection Hd as <-.
    destruct (IH rest Hrest) as (kept & Hk & Hdk).
    rewrite Hr. cbn [bind]. rewrite Hk. cbn [bind List.filter].
    eexists. split; [reflexivity|].
    destruct (has_zero r); [|exact Hdk].
    cbn [deref]. rewrite Hr. cbn [bind]. now rewrite Hdk.
Qed.

Lemma alloc_rows_spec (n : nat) :
  forall h : heap,
    h ⊆ snd (alloc_rows h n) /\
    deref (snd (alloc_rows h n)) (fst (alloc_rows h n)) =
      Ok (replicate n (replicate (Z.to_nat COLS) 0)).
Proof.
  induction n as [|n IH]; intros h; cbn [alloc_rows fst snd replicate].
  - split; reflexivity.
  - set (row0 := replicate (Z.to_nat COLS) 0).
    destruct (IH (snd (alloc h row0))) as [Hsub Hd].
    split; [etrans; [apply alloc_subseteq | exact Hsub]|].
    cbn [deref]. unfold read_row.
    rewrite (lookup_weaken _ _ _ _ (alloc_lookup h row0) Hsub). cbn [bind].
    now rewrite Hd.
Qed.

Lemma deref_app (h : heap) (g1 g2 : list nat) (gv1 gv2 : list (list Z)) :
  deref h g1 = Ok gv1 -> deref h g2 = Ok gv2 ->
  deref h (g1 ++ g2) = Ok (gv1 ++ gv2).
Proof. rewrite !deref_Forall2. apply Forall2_app. Qed.

Lemma remove_lines_h_sim (h : heap) (g : list nat) (gv : list (list Z)) :
  deref h g = Ok gv ->
  exists g' h', remove_lines_h h g = Ok (g', snd (remove_lines gv), h') /\
    h ⊆ h' /\ deref h' g' = Ok (fst (remove_lines gv)).
Proof.
  intros Hd. destruct (keep_rows_spec h g gv Hd) as (kept & Hk & Hdk).
  unfold remove_lines_h, remove_lines. rewrite Hk. cbn [bind].
  rewrite (deref_length h kept _ Hdk).
  destruct (truthy (ROWS - Z.of_nat (length (List.filter has_zero gv))));
    cbn [fst snd].
  - destruct (alloc_rows_spec
                (Z.to_nat (ROWS - Z.of_nat (length (List.filter has_zero gv)))) h)
      as [Hsub Hda].
    eexists _, _. split; [reflexivity|]. split; [exact Hsub|].
    apply deref_app; [exact Hda|]. eapply deref_weaken; eauto.
  - eexists _, _. split; [reflexivity|]. split; [reflexivity | exact Hdk].
Qed.

(** ** The board as shared objects: the search *)

(** One candidate: the heap version returns what the version on values
    returns, and leaves every object of the heap before it as it was. *)
Lemma try_candidate_h_sim (fuel : nat) (h : heap) (g : list nat)
    (gv : list (list Z)) (color_idx : Z) (rot_idx : nat) (sh : shape) (col : Z)
    (best best' : best_state) :
  deref h g = Ok gv ->
  try_candidate fuel gv color_idx rot_idx sh col best = Ok best' ->
  exists h', try_candidate_h fuel g color_idx rot_idx sh col (best, h) = Ok (best', h') /\
    h ⊆ h'.
Proof.
  intros Hd Htry. unfold try_candidate in Htry.
  unfold try_candidate_h, hard_drop_h, valid_move_h. rewrite Hd. cbn [bind].
  apply bind_Ok in Htry. destruct Htry as (row & -> & Htry). cbn [bind].
  apply bind_Ok in Htry. destruct Htry as (ok & -> & Htry). cbn [bind].
  destruct ok; cbn [negb] in *.
  - apply bind_Ok in Htry. destruct Htry as (temp_v & Hlock & Htry).
    destruct (copy_rows_spec g h gv Hd) as (temp & h1 & -> & Hsub1 & Hd1 & Hnd & Hfr).
    cbn [bind].
    destruct (lock_piece_h_sim temp Hnd h1 gv temp_v sh (col, row) color_idx Hd1 Hlock)
      as (h2 & -> & Hd2 & Hfr2).
    cbn [bind].
    destruct (remove_lines_h_sim h2 temp temp_v Hd2) as (temp' & h3 & -> & Hsub3 & Hd3).
    cbn [bind]. unfold evaluate_h. rewrite Hd3. cbn [bind].
    destruct (remove_lines temp_v) as [temp_v' lines]. cbn [fst snd] in *.
    apply bind_Ok in Htry. destruct Htry as (score & -> & Htry). cbn [bind].
    destruct best as [[best_score best_col] best_rot].
    assert (Hsub : h ⊆ h3).
    { etrans; [|exact Hsub3]. apply map_subseteq_spec. intros l x Hl.
      rewrite Hfr2.
      - exact (lookup_weaken _ _ _ _ Hl Hsub1).
      - intros Hin. apply Hfr in Hin. congruence. }
    destruct (best_score <? score)%float; injection Htry as <-; eauto.
  - injection Htry as <-. exists h. split; reflexivity.
Qed.

(** A loop whose body has a heap version: so has the loop. *)
Lemma for_each_heap {A St : Type} (xs : list A) (body : A -> St -> res St)
    (body_h : A -> St * heap -> res (St * heap)) (h0 : heap) :
  (forall x st st' h, h0 ⊆ h -> body x st = Ok st' ->
     exists h', body_h x (st, h) = Ok (st', h') /\ h ⊆ h') ->
  forall st st' h, h0 ⊆ h -> for_each xs body st = Ok st' ->
    exists h', for_each xs body_h (st, h) = Ok (st', h') /\ h ⊆ h'.
Proof.
  intros Hbody. induction xs as [|x xs IH]; intros st st' h Hh Hfor;
    cbn [for_each] in *.
  - injection Hfor as <-. exists h. split; reflexivity.
  - apply bind_Ok in Hfor. destruct Hfor as (st1 & Hb & Hfor).
    destruct (Hbody x st st1 h Hh Hb) as (h1 & -> & Hsub1). cbn [bind].
    destruct (IH st1 st' h1) as (h' & -> & Hsub'); [etrans; eauto | exact Hfor|].
    exists h'. split; [reflexivity | etrans; eauto].
Qed.

Lemma try_rotation_h_sim (fuel : nat) (h0 : heap) (g : list nat)
    (gv : list (list Z)) (color_idx : Z) :
  deref h0 g = Ok gv ->
  forall rot best best' h, h0 ⊆ h ->
    try_rotation fuel gv color_idx rot best = Ok best' ->
    exists h', try_rotation_h fuel g color_idx rot (best, h) = Ok (best', h') /\
      h ⊆ h'.
Proof.
  intros Hd [rot_idx sh] best best' h Hh Htry.
  unfold try_rotation in Htry. unfold try_rotation_h.
  apply bind_Ok in Htry. destruct Htry as (first_row & -> & Htry). cbn [bind].
  eapply for_each_heap; [|exact Hh|exact Htry].
  intros col st st' h1 Hh1 Hb.
  eapply try_candidate_h_sim; [|exact Hb]. eapply deref_weaken; eauto.
Qed.

(** [best_move] on the heap returns the pair of [best_move] on the value
    of the grid, and every object of the heap before the call is in the
    heap after it, unchanged. *)
Lemma best_move_h_sim (fuel : nat) (h : heap) (g : list nat) (gv : list (list Z))
    (p : piece) (rots : list shape) (result : Z * nat) :
  deref h g = Ok gv -> best_move fuel gv p rots = Ok result ->
  exists h', best_move_h fuel h g p rots = Ok (result, h') /\ h ⊆ h'.
Proof.
  intros Hd Hbm. unfold best_move in Hbm. unfold best_move_h.
  apply bind_Ok in Hbm. destruct Hbm as ([[bs bc] br] & Hfor & Hbm).
  injection Hbm as <-.
  destruct (for_each_heap (enumerate rots)
              (try_rotation fuel gv (PIECE_TO_IDX p))
              (try_rotation_h fuel g (PIECE_TO_IDX p)) h
              (try_rotation_h_sim fuel h g gv (PIECE_TO_IDX p) Hd)
              _ _ h (reflexivity h) Hfor) as (h' & -> & Hsub).
  cbn [bind]. exists h'. split; [reflexivity | exact Hsub].
Qed.

(** C8. For every heap and every board in it, every piece type and every
    list of rotation matrices with an occupied cell each, [best_move]
    returns, with the pair of the search on the value of the board, and
    leaves the board unchanged: every object of the heap before the call,
    the rows of the board among them, has the same contents after it, and
    the board reads as before.  Locking and line clearing write only into
    row objects created during the call. *)
Theorem best_move_frame (fuel : nat) (h : heap) (g : list nat) (gv : list (list Z))
    (p : piece) (rots : list shape) :
  deref h g = Ok gv -> wf_grid gv -> Forall has_cell rots ->
  ROWS <= Z.of_nat fuel ->
  exists col rot h',
    best_move_h fuel h g p rots = Ok (col, rot, h') /\
    best_move fuel gv p rots = Ok (col, rot) /\
    (forall l r, h !! l = Some r -> h' !! l = Some r) /\
    deref h' g = Ok gv.
Proof.
  intros Hd Hwf Hall Hfuel.
  assert (Hret : exists result, best_move fuel gv p rots = Ok result).
  { destruct (best_move_analysis fuel gv p rots Hwf Hall Hfuel)
      as (scored & _ & _ & Hbest).
    destruct scored; [eauto|]. destruct Hbest as (best & _ & Hbm). eauto. }
  destruct Hret as ([col rot] & Hbm).
  destruct (best_move_h_sim fuel h g gv p rots (col, rot) Hd Hbm) as (h' & Hh & Hsub).
  exists col, rot, h'. split; [exact Hh|]. split; [exact Hbm|]. split.
  - intros l r Hl. exact (lookup_weaken _ _ _ _ Hl Hsub).
  - eapply deref_weaken; eauto.
Qed.

Lemma best_move_frame_witness :
  exists col rot h',
    best_move_h 20 (heap_of create_grid) (seq 0 20) pT (ROTATIONS pT)
      = Ok (col, rot, h') /\
    best_move 20 create_grid pT (ROTATIONS pT) = Ok (col, rot) /\
    (forall l r, heap_of create_grid !! l = Some r -> h' !! l = Some r) /\
    deref h' (seq 0 20) = Ok create_grid.
Proof.
  apply (best_move_frame 20 (heap_of create_grid) (seq 0 20) create_grid pT
           (ROTATIONS pT)).
  - vm_compute. reflexivity.
  - exact wf_create_grid.
  - exact (rotations_have_cells pT).
  - unfold ROWS. lia.
Defined.

(** * Further properties of the program *)

(** ** [remove_lines], on any grid *)

Lemma filter_has_zero_full (g : grid) :
  Forall (fun r => full_row r = false) (List.filter has_zero g).
Proof.
  apply Forall_forall. intros r Hr. apply list_elem_of_In, List.filter_In in Hr.
  destruct Hr as [_ Hz]. rewrite has_zero_not_full in Hz.
  now apply negb_true_iff.
Qed.

Lemma filter_has_zero_id (g : grid) :
  Forall (fun r => full_row r = false) g -> List.filter has_zero g = g.
Proof.
  intros Hall. induction Hall as [|r g Hr Hall IH]; cbn [List.filter];
    [reflexivity|].
  rewrite has_zero_not_full, Hr. cbn [negb]. now rewrite IH.
Qed.

(** X1. For every grid, of any number of rows, [remove_lines] reports
    [ROWS] minus the number of rows that are not full (a negative number
    when more than [ROWS] rows are not full) and returns the rows that are
    not full, in their order, after as many empty rows as it takes to reach
    [ROWS] rows: the result has [ROWS] rows or, when more rows than that
    are not full, exactly those. *)
Theorem remove_lines_any_grid (g : grid) :
  let kept := List.filter (fun r => negb (full_row r)) g in
  let missing := ROWS - Z.of_nat (length kept) in
  remove_lines g =
    (replicate (Z.to_nat missing) (replicate (Z.to_nat COLS) 0) ++ kept, missing) /\
  Z.of_nat (length (fst (remove_lines g))) = Z.max ROWS (Z.of_nat (length kept)).
Proof.
  intros kept missing.
  assert (Heq : remove_lines g =
    (replicate (Z.to_nat missing) (replicate (Z.to_nat COLS) 0) ++ kept, missing)).
  { unfold remove_lines. rewrite filter_has_zero. fold kept. fold missing.
    destruct (truthy missing) eqn:Ht; [reflexivity|].
    apply truthy_false in Ht. rewrite Ht. reflexivity. }
  split; [exact Heq|]. rewrite Heq. cbn [fst].
  rewrite length_app, length_replicate. unfold missing, ROWS. lia.
Qed.

(** X2. Clearing lines twice is clearing them once: on a grid of at most
    [ROWS] rows the result of [remove_lines] is a board with no full row,
    and [remove_lines] on it returns it unchanged with the count 0. *)
Theorem remove_lines_idempotent (g : grid) :
  (length g <= Z.to_nat ROWS)%nat ->
  let g' := fst (remove_lines g) in
  length g' = Z.to_nat ROWS /\
  Forall (fun r => full_row r = false) g' /\
  remove_lines g' = (g', 0).
Proof.
  intros Hlen g'.
  assert (Hk : (length (List.filter has_zero g) <= length g)%nat)
    by apply List.filter_length_le.
  assert (Hlen' : length g' = Z.to_nat ROWS).
  { unfold g', remove_lines.
    destruct (truthy (ROWS - Z.of_nat (length (List.filter has_zero g)))) eqn:Ht;
      cbn [fst].
    - rewrite length_app, length_replicate. unfold ROWS in *. lia.
    - apply truthy_false in Ht. unfold ROWS in *. lia. }
  assert (Hnf : Forall (fun r => full_row r = false) g').
  { unfold g', remove_lines.
    destruct (truthy (ROWS - Z.of_nat (length (List.filter has_zero g))));
      cbn [fst]; [|apply filter_has_zero_full].
    apply Forall_app. split; [|apply filter_has_zero_full].
    apply Forall_replicate. reflexivity. }
  split; [exact Hlen'|]. split; [exact Hnf|].
  unfold remove_lines at 1. rewrite (filter_has_zero_id g' Hnf), Hlen'.
  rewrite Z2Nat.id by (unfold ROWS; lia). rewrite Z.sub_diag. reflexivity.
Qed.

Lemma remove_lines_idempotent_witness :
  let g' := fst (remove_lines checker) in
  length g' = Z.to_nat ROWS /\
  Forall (fun r => full_row r = false) g' /\
  remove_lines g' = (g', 0).
Proof. apply (remove_lines_idempotent checker). vm_compute. lia. Defined.

(** ** [lock_piece]: what it writes *)

Lemma row_item_cons (a : Z) (l : list Z) (i : Z) :
  row_item (a :: l) i = if i =? 0 then a else row_item l (i - 1).
Proof.
  unfold row_item. destruct (Z.eqb_spec i 0) as [->|Hne]; [reflexivity|].
  destruct (Z.leb_spec 0 i), (Z.leb_spec 0 (i - 1)); try lia.
  replace (Z.to_nat i) with (S (Z.to_nat (i - 1))) by lia. reflexivity.
Qed.

Lemma row_item_nil (i : Z) : row_item [] i = 0.
Proof. unfold row_item. now destruct (0 <=? i). Qed.

Lemma cell_at_row_item (g : grid) (r c : Z) :
  cell_at g r c =
  if 0 <=? r then
    match g !! Z.to_nat r with
    | Some line => row_item line c
    | None => 0
    end
  else 0.
Proof.
  unfold cell_at, row_item. destruct (0 <=? r), (0 <=? c); cbn [andb];
    try reflexivity. now destruct (g !! Z.to_nat r).
Qed.

Lemma cell_at_cons (line : list Z) (g : grid) (r c : Z) :
  cell_at (line :: g) r c =
  if r =? 0 then row_item line c else cell_at g (r - 1) c.
Proof.
  rewrite !cell_at_row_item. destruct (Z.eqb_spec r 0) as [->|Hne]; [reflexivity|].
  destruct (Z.leb_spec 0 r), (Z.leb_spec 0 (r - 1)); try lia.
  replace (Z.to_nat r) with (S (Z.to_nat (r - 1))) by lia. reflexivity.
Qed.

Lemma cell_at_nil (r c : Z) : cell_at [] r c = 0.
Proof. rewrite cell_at_row_item. now destruct (0 <=? r). Qed.

Lemma shape_cell_cell_at (sh : shape) (y x : nat) :
  shape_cell sh y x <-> cell_at sh (Z.of_nat y) (Z.of_nat x) <> 0.
Proof.
  unfold shape_cell, cell_at.
  destruct (Z.leb_spec 0 (Z.of_nat y)); [|lia].
  destruct (Z.leb_spec 0 (Z.of_nat x)); [|lia].
  cbn [andb]. rewrite !Nat2Z.id. split.
  - intros (r & v & -> & -> & Hv). exact Hv.
  - intros Hne. destruct (sh !! y) as [r|]; [|congruence].
    destruct (r !! x) as [v|] eqn:Hx; [|congruence]. exists r, v. auto.
Qed.

(** One write inside the board. *)
Lemma set_cell_inside (g : grid) (r c v : Z) :
  wf_grid g -> 0 <= r < ROWS -> 0 <= c < COLS ->
  exists g', set_cell g r c v = Ok g' /\ wf_grid g' /\
    forall r' c', cell_at g' r' c' =
      if (r' =? r) && (c' =? c) then v else cell_at g r' c'.
Proof.
  intros Hwf Hr Hc. unfold set_cell.
  destruct (py_index_in_range g r) as (line & Hl & ->).
  { destruct Hwf as [Hlen _]. rewrite Hlen. lia. }
  cbn [bind]. pose proof (wf_grid_row g _ line Hwf Hl) as Hlen.
  rewrite py_setitem_in_range by (rewrite Hlen; lia). cbn [bind].
  rewrite py_setitem_in_range by (destruct Hwf as [Hg _]; rewrite Hg; lia).
  eexists. split; [reflexivity|]. destruct Hwf as [Hg Hall]. split; [split|].
  - now rewrite length_insert.
  - apply Forall_insert; [exact Hall|]. now rewrite length_insert.
  - intros r' c'. unfold cell_at.
    destruct (Z.leb_spec 0 r'), (Z.leb_spec 0 c'); cbn [andb];
      try (destruct (Z.eqb_spec r' r), (Z.eqb_spec c' c); cbn [andb];
           try reflexivity; lia).
    destruct (Z.eqb_spec r' r) as [->|Hner]; cbn [andb].
    + rewrite list_lookup_insert_eq by lia. rewrite Hl.
      destruct (Z.eqb_spec c' c) as [->|Hnec].
      * rewrite list_lookup_insert_eq by lia. reflexivity.
      * rewrite list_lookup_insert_ne by lia. reflexivity.
    + rewrite list_lookup_insert_ne by lia. reflexivity.
Qed.

Lemma lock_cells_cells (ox oy y v : Z) (cells : list Z) :
  forall (g : grid) (x : Z),
    wf_grid g ->
    (forall i c, cells !! i = Some c -> c <> 0 ->
       0 <= x + Z.of_nat i + ox < COLS /\ 0 <= y + oy < ROWS) ->
    exists g', lock_cells g ox oy y x cells v = Ok g' /\ wf_grid g' /\
      forall r c, cell_at g' r c =
        if (r =? y + oy) && truthy (row_item cells (c - ox - x)) then v
        else cell_at g r c.
Proof.
  induction cells as [|cell rest IH]; intros g x Hwf Hin; cbn [lock_cells].
  - exists g. split; [reflexivity|]. split; [exact Hwf|]. intros r c.
    rewrite row_item_nil. cbn. now rewrite andb_false_r.
  - assert (Hrest : forall i c, rest !! i = Some c -> c <> 0 ->
              0 <= x + 1 + Z.of_nat i + ox < COLS /\ 0 <= y + oy < ROWS).
    { intros i c Hi Hc. specialize (Hin (S i) c Hi Hc). lia. }
    destruct (truthy cell) eqn:Ht.
    + pose proof Ht as Hne. apply truthy_true in Hne.
      specialize (Hin 0%nat cell eq_refl Hne).
      destruct (set_cell_inside g (y + oy) (x + ox) v Hwf)
        as (g1 & -> & Hwf1 & H1); [lia|lia|].
      cbn [bind]. destruct (IH g1 (x + 1) Hwf1 Hrest) as (g' & -> & Hwf' & H').
      exists g'. split; [reflexivity|]. split; [exact Hwf'|]. intros r c.
      rewrite H', H1, row_item_cons.
      replace (c - ox - (x + 1)) with (c - ox - x - 1) by lia.
      destruct (Z.eqb_spec (c - ox - x) 0), (Z.eqb_spec c (x + ox)); try lia;
        destruct (Z.eqb_spec r (y + oy)); cbn [andb]; rewrite ?Ht;
        try reflexivity.
      now destruct (truthy (row_item rest (c - ox - x - 1))).
    + destruct (IH g (x + 1) Hwf Hrest) as (g' & -> & Hwf' & H').
      exists g'. split; [reflexivity|]. split; [exact Hwf'|]. intros r c.
      rewrite H', row_item_cons.
      replace (c - ox - (x + 1)) with (c - ox - x - 1) by lia.
      destruct (Z.eqb_spec (c - ox - x) 0) as [H0|H0]; [|reflexivity].
      rewrite Ht.
      assert (row_item rest (c - ox - x - 1) = 0) as ->.
      { unfold row_item. destruct (Z.leb_spec 0 (c - ox - x - 1)); [lia|reflexivity]. }
      reflexivity.
Qed.

Lemma lock_rows_cells (ox oy v : Z) (sh : shape) :
  forall (g : grid) (y : Z),
    wf_grid g ->
    (forall j i, shape_cell sh j i ->
       0 <= Z.of_nat i + ox < COLS /\ 0 <= y + Z.of_nat j + oy < ROWS) ->
    exists g', lock_rows g ox oy y sh v = Ok g' /\ wf_grid g' /\
      forall r c, cell_at g' r c =
        if truthy (cell_at sh (r - oy - y) (c - ox)) then v else cell_at g r c.
Proof.
  induction sh as [|line rest IH]; intros g y Hwf Hin; cbn [lock_rows].
  - exists g. split; [reflexivity|]. split; [exact Hwf|]. intros r c.
    now rewrite cell_at_nil.
  - destruct (lock_cells_cells ox oy y v line g 0 Hwf) as (g1 & -> & Hwf1 & H1).
    { intros i c Hi Hc.
      assert (Hcell : shape_cell (line :: rest) 0 i) by (exists line, c; auto).
      specialize (Hin _ _ Hcell). lia. }
    cbn [bind]. destruct (IH g1 (y + 1) Hwf1) as (g' & -> & Hwf' & H').
    { intros j i (r' & c & Hj & Hi & Hc).
      assert (Hcell : shape_cell (line :: rest) (S j) i) by (exists r', c; auto).
      specialize (Hin _ _ Hcell). lia. }
    exists g'. split; [reflexivity|]. split; [exact Hwf'|]. intros r c.
    rewrite H', H1, cell_at_cons.
    replace (r - oy - (y + 1)) with (r - oy - y - 1) by lia.
    replace (c - ox - 0) with (c - ox) by lia.
    destruct (Z.eqb_spec (r - oy - y) 0), (Z.eqb_spec r (y + oy)); try lia;
      cbn [andb]; [|reflexivity].
    assert (cell_at rest (r - oy - y - 1) (c - ox) = 0) as ->.
    { unfold cell_at. destruct (Z.leb_spec 0 (r - oy - y - 1)); [lia|reflexivity]. }
    reflexivity.
Qed.

Lemma lock_piece_cells_eq (g : grid) (sh : shape) (col row color_idx : Z) :
  wf_grid g -> inside sh col row ->
  exists g', lock_piece g sh (col, row) color_idx = Ok g' /\ wf_grid g' /\
    forall r c, cell_at g' r c =
      if covers sh col row r c then color_idx + 1 else cell_at g r c.
Proof.
  intros Hwf Hin. unfold lock_piece.
  destruct (lock_rows_cells col row (color_idx + 1) sh g 0 Hwf)
    as (g' & Hg' & Hwf' & H').
  { intros j i Hc. specialize (Hin j i Hc). lia. }
  exists g'. split; [exact Hg'|]. split; [exact Hwf'|]. intros r c.
  rewrite H'. unfold covers. now replace (r - row - 0) with (r - row) by lia.
Qed.

Lemma valid_move_inside (g : grid) (sh : shape) (col row : Z) :
  wf_grid g -> valid_move g sh (col, row) = Ok true -> 0 <= row ->
  inside sh col row.
Proof.
  intros Hwf Hv Hrow y x Hc.
  pose proof (valid_move_true_cell g sh col row y x Hwf Hv Hc) as Hn.
  unfold cell_refused in Hn. lia.
Qed.

(** X3. On a board, [lock_piece] of a placement whose occupied cells are
    all cells of the board (as every placement that [valid_move] accepts at
    a row [>= 0] is) raises no error and gives a board that holds
    [color_idx + 1] in the cells the placement covers and the old value in
    every other cell. *)
Theorem lock_piece_cells (g : grid) (sh : shape) (col row color_idx : Z) :
  wf_grid g -> inside sh col row ->
  exists g', lock_piece g sh (col, row) color_idx = Ok g' /\ wf_grid g' /\
    (forall r c, covers sh col row r c = true -> cell_at g' r c = color_idx + 1) /\
    (forall r c, covers sh col row r c = false -> cell_at g' r c = cell_at g r c).
Proof.
  intros Hwf Hin.
  destruct (lock_piece_cells_eq g sh col row color_idx Hwf Hin)
    as (g' & Hg' & Hwf' & H').
  exists g'. split; [exact Hg'|]. split; [exact Hwf'|].
  split; intros r c Hc; rewrite H', Hc; reflexivity.
Qed.

Lemma insideb_inside (sh : shape) (col row : Z) :
  insideb sh col row = true -> inside sh col row.
Proof.
  unfold insideb. rewrite forallb_forall. intros Hall y x (r & v & Hy & Hx & Hv).
  specialize (Hall (y, r) (proj2 (in_enumerate_iff sh y r) Hy)).
  cbn [fst snd] in Hall. rewrite forallb_forall in Hall.
  specialize (Hall (x, v) (proj2 (in_enumerate_iff r x v) Hx)).
  cbn [fst snd] in Hall. apply truthy_true in Hv. rewrite Hv in Hall.
  cbn [negb orb] in Hall. unfold COLS, ROWS in *. lia.
Qed.

Lemma inside_T_bottom : inside (SHAPES_BASE pT) 3 18.
Proof. apply insideb_inside. reflexivity. Qed.

Lemma lock_piece_cells_witness :
  exists g', lock_piece create_grid (SHAPES_BASE pT) (3, 18) 2 = Ok g' /\
    wf_grid g' /\
    (forall r c, covers (SHAPES_BASE pT) 3 18 r c = true -> cell_at g' r c = 2 + 1) /\
    (forall r c, covers (SHAPES_BASE pT) 3 18 r c = false ->
       cell_at g' r c = cell_at create_grid r c).
Proof.
  apply (lock_piece_cells create_grid (SHAPES_BASE pT) 3 18 2 wf_create_grid
           inside_T_bottom).
Defined.

(** ** [lock_piece] and [valid_move] *)

Lemma valid_move_true_iff (g : grid) (sh : shape) (ox oy : Z) :
  wf_grid g ->
  (valid_move g sh (ox, oy) = Ok true <->
   forall y x, shape_cell sh y x ->
     ~ cell_refused g (Z.of_nat x + ox) (Z.of_nat y + oy)).
Proof.
  intros Hwf. destruct (valid_move_spec g sh ox oy Hwf) as (b & Hb & Hiff).
  rewrite Hb. split.
  - intros [= ->] y x Hc Hr.
    assert (true = false) as Habs; [|discriminate].
    apply Hiff. exists y, x. auto.
  - intros Hnone. destruct b; [reflexivity|].
    destruct Hiff as [Hiff _]. destruct (Hiff eq_refl) as (y & x & Hc & Hr).
    destruct (Hnone y x Hc Hr).
Qed.

Lemma covers_shape_cell (sh : shape) (col row r c : Z) :
  covers sh col row r c = true ->
  exists y x, shape_cell sh y x /\ r = Z.of_nat y + row /\ c = Z.of_nat x + col.
Proof.
  unfold covers. rewrite truthy_true. intros Hne.
  assert (H0 : 0 <= r - row /\ 0 <= c - col).
  { unfold cell_at in Hne.
    destruct (Z.leb_spec 0 (r - row)), (Z.leb_spec 0 (c - col)); cbn [andb] in Hne;
      try congruence. lia. }
  exists (Z.to_nat (r - row)), (Z.to_nat (c - col)).
  split; [|lia]. apply shape_cell_cell_at. rewrite !Z2Nat.id by lia. exact Hne.
Qed.

Lemma piece_value_nonzero (p : piece) : PIECE_TO_IDX p + 1 <> 0.
Proof. destruct p; discriminate. Qed.

(** X4. Locking a piece takes its cells away from every later placement
    and nothing else: on the board after [lock_piece] of a placement inside
    the board, a placement is valid if and only if it was valid before and
    none of its occupied cells lands on a cell the locked piece covers.  In
    particular the placement just locked is not valid any more. *)
Theorem lock_piece_then_valid_move (g g' : grid) (sh : shape) (col row : Z)
    (p : piece) :
  wf_grid g -> inside sh col row ->
  lock_piece g sh (col, row) (PIECE_TO_IDX p) = Ok g' ->
  (forall sh2 col2 row2,
     valid_move g' sh2 (col2, row2) = Ok true <->
     valid_move g sh2 (col2, row2) = Ok true /\
     forall y x, shape_cell sh2 y x ->
       covers sh col row (Z.of_nat y + row2) (Z.of_nat x + col2) = false) /\
  (has_cell sh -> valid_move g' sh (col, row) = Ok false).
Proof.
  intros Hwf Hin Hlock.
  destruct (lock_piece_cells_eq g sh col row (PIECE_TO_IDX p) Hwf Hin)
    as (g1 & Hg1 & Hwf' & Hcells).
  rewrite Hlock in Hg1. injection Hg1 as <-.
  pose proof (piece_value_nonzero p) as Hv.
  assert (Href : forall nx ny,
            cell_refused g' nx ny <->
            cell_refused g nx ny \/ covers sh col row ny nx = true).
  { intros nx ny. unfold cell_refused. rewrite Hcells.
    destruct (covers sh col row ny nx) eqn:Hcov.
    - destruct (covers_shape_cell _ _ _ _ _ Hcov) as (y & x & Hc & -> & ->).
      specialize (Hin y x Hc). split; [auto|]. intros _. right. right. right.
      split; [lia | exact Hv].
    - split; [intros H; left; exact H|]. intros [H|H]; [exact H | discriminate]. }
  assert (Hiff : forall sh2 col2 row2,
     valid_move g' sh2 (col2, row2) = Ok true <->
     valid_move g sh2 (col2, row2) = Ok true /\
     forall y x, shape_cell sh2 y x ->
       covers sh col row (Z.of_nat y + row2) (Z.of_nat x + col2) = false).
  { intros sh2 col2 row2.
    rewrite (valid_move_true_iff g' sh2 col2 row2 Hwf').
    rewrite (valid_move_true_iff g sh2 col2 row2 Hwf). split.
    - intros Hnone. split; intros y x Hc.
      + intros Hr. apply (Hnone y x Hc). apply Href. now left.
      + destruct (covers sh col row _ _) eqn:Hcov; [|reflexivity].
        exfalso. apply (Hnone y x Hc). apply Href. now right.
    - intros [Hnone Hfree] y x Hc Hr. apply Href in Hr. destruct Hr as [Hr|Hr].
      + exact (Hnone y x Hc Hr).
      + rewrite (Hfree y x Hc) in Hr. discriminate. }
  split; [exact Hiff|].
  intros (y & x & Hc).
  destruct (valid_move_total g' sh col row Hwf') as [Ht|Hf]; [|exact Hf].
  apply Hiff in Ht. destruct Ht as [_ Hfree]. specialize (Hfree y x Hc).
  unfold covers in Hfree.
  replace (Z.of_nat y + row - row) with (Z.of_nat y) in Hfree by lia.
  replace (Z.of_nat x + col - col) with (Z.of_nat x) in Hfree by lia.
  apply truthy_false in Hfree. apply shape_cell_cell_at in Hc. contradiction.
Qed.

Lemma lock_piece_then_valid_move_witness :
  (forall sh2 col2 row2,
     valid_move board_with_T sh2 (col2, row2) = Ok true <->
     valid_move create_grid sh2 (col2, row2) = Ok true /\
     forall y x, shape_cell sh2 y x ->
       covers (SHAPES_BASE pT) 3 18 (Z.of_nat y + row2) (Z.of_nat x + col2) = false) /\
  (has_cell (SHAPES_BASE pT) ->
   valid_move board_with_T (SHAPES_BASE pT) (3, 18) = Ok false).
Proof.
  apply (lock_piece_then_valid_move create_grid _ (SHAPES_BASE pT) 3 18 pT
           wf_create_grid inside_T_bottom).
  reflexivity.
Defined.

(** ** [lock_piece] outside the board *)

Lemma py_pos_Some {A : Type} (l : list A) (i : Z) (j : nat) :
  py_pos l i = Some j <->
  - Z.of_nat (length l) <= i < Z.of_nat (length l) /\
  j = Z.to_nat (if i <? 0 then i + Z.of_nat (length l) else i).
Proof.
  unfold py_pos. set (n := Z.of_nat (length l)).
  destruct (Z.ltb_spec i 0);
    [destruct (Z.leb_spec 0 (i + n)), (Z.ltb_spec (i + n) n)
    |destruct (Z.leb_spec 0 i), (Z.ltb_spec i n)]; cbn [andb];
    (split; [intros [= <-]; split; [lia | reflexivity] | intros [Hr ->]; reflexivity])
    || (split; [discriminate | intros [Hr _]; lia]).
Qed.

Lemma py_pos_None {A : Type} (l : list A) (i : Z) :
  py_pos l i = None <->
  ~ (- Z.of_nat (length l) <= i < Z.of_nat (length l)).
Proof.
  destruct (py_pos l i) as [j|] eqn:E.
  - apply py_pos_Some in E. split; [discriminate | intros H; tauto].
  - split; [|reflexivity]. intros _ Hr.
    assert (py_pos l i = Some (Z.to_nat (if i <? 0 then i + Z.of_nat (length l) else i)))
      by (apply py_pos_Some; auto).
    congruence.
Qed.

Lemma py_pos_lt {A : Type} (l : list A) (i : Z) (j : nat) :
  py_pos l i = Some j -> (j < length l)%nat.
Proof. rewrite py_pos_Some. intros [Hr ->]. destruct (i <? 0) eqn:E; lia. Qed.

(** One write on a board: it succeeds exactly within the reach of the
    subscripts. *)
Lemma set_cell_outcome (g : grid) (r c v : Z) :
  wf_grid g ->
  (- ROWS <= r < ROWS /\ - COLS <= c < COLS ->
   exists g', set_cell g r c v = Ok g' /\ wf_grid g') /\
  (~ (- ROWS <= r < ROWS /\ - COLS <= c < COLS) ->
   set_cell g r c v = Err IndexError).
Proof.
  intros [Hlen Hall]. unfold set_cell, py_index, py_setitem.
  assert (Hn : Z.of_nat (length g) = ROWS) by (rewrite Hlen; unfold ROWS; lia).
  destruct (py_pos g r) as [j|] eqn:Hj.
  - pose proof (py_pos_lt g r j Hj) as Hlt.
    apply py_pos_Some in Hj. destruct Hj as [Hr _]. rewrite Hn in Hr.
    destruct (lookup_lt_is_Some_2 g j Hlt) as [line Hline]. rewrite Hline.
    cbn [bind].
    assert (Hll : length line = Z.to_nat COLS).
    { rewrite Forall_forall in Hall. apply Hall.
      eapply list_elem_of_lookup_2; eauto. }
    assert (Hm : Z.of_nat (length line) = COLS) by (rewrite Hll; unfold COLS; lia).
    destruct (py_pos line c) as [k|] eqn:Hk; cbn [bind].
    + apply py_pos_Some in Hk. destruct Hk as [Hc _]. rewrite Hm in Hc.
      split; [|intros Hn'; lia]. intros _. eexists. split; [reflexivity|]. split.
      * now rewrite length_insert.
      * apply Forall_insert; [exact Hall|]. now rewrite length_insert.
    + apply py_pos_None in Hk. rewrite Hm in Hk.
      split; [intros [_ Hc]; lia | reflexivity].
  - apply py_pos_None in Hj. rewrite Hn in Hj.
    split; [intros [Hr _]; lia | reflexivity].
Qed.

Lemma lock_cells_outcome (ox oy y v : Z) (cells : list Z) :
  forall (g : grid) (x : Z),
    wf_grid g ->
    (exists g', lock_cells g ox oy y x cells v = Ok g' /\ wf_grid g' /\
       forall i c, cells !! i = Some c -> c <> 0 ->
         - COLS <= x + Z.of_nat i + ox < COLS /\ - ROWS <= y + oy < ROWS) \/
    (lock_cells g ox oy y x cells v = Err IndexError /\
     exists i c, cells !! i = Some c /\ c <> 0 /\
       ~ (- COLS <= x + Z.of_nat i + ox < COLS /\ - ROWS <= y + oy < ROWS)).
Proof.
  induction cells as [|cell rest IH]; intros g x Hwf; cbn [lock_cells].
  - left. exists g. split; [reflexivity|]. split; [exact Hwf|].
    intros i c Hi. destruct i; discriminate.
  - assert (Hshift_ok :
      (forall i c, rest !! i = Some c -> c <> 0 ->
         - COLS <= x + 1 + Z.of_nat i + ox < COLS /\ - ROWS <= y + oy < ROWS) ->
      (truthy cell = true ->
         - COLS <= x + ox < COLS /\ - ROWS <= y + oy < ROWS) ->
      forall i c, (cell :: rest) !! i = Some c -> c <> 0 ->
         - COLS <= x + Z.of_nat i + ox < COLS /\ - ROWS <= y + oy < ROWS).
    { intros Hrest Hhead [|i] c Hi Hc; cbn in Hi.
      - injection Hi as ->. apply truthy_true in Hc. specialize (Hhead Hc). lia.
      - specialize (Hrest i c Hi Hc). lia. }
    assert (Hshift_bad :
      (exists i c, rest !! i = Some c /\ c <> 0 /\
         ~ (- COLS <= x + 1 + Z.of_nat i + ox < COLS /\ - ROWS <= y + oy < ROWS)) ->
      exists i c, (cell :: rest) !! i = Some c /\ c <> 0 /\
         ~ (- COLS <= x + Z.of_nat i + ox < COLS /\ - ROWS <= y + oy < ROWS)).
    { intros (i & c & Hi & Hc & Hbad). exists (S i), c. repeat split; auto. lia. }
    destruct (truthy cell) eqn:Ht.
    + destruct (set_cell_outcome g (y + oy) (x + ox) v Hwf) as [Hok Herr].
      assert (Hdec : (- ROWS <= y + oy < ROWS /\ - COLS <= x + ox < COLS) \/
                     ~ (- ROWS <= y + oy < ROWS /\ - COLS <= x + ox < COLS)) by lia.
      destruct Hdec as [Hin|Hout].
      * destruct (Hok Hin) as (g1 & -> & Hwf1). cbn [bind].
        destruct (IH g1 (x + 1) Hwf1) as [(g' & Hg' & Hwf' & Hall)|[Hg' Hbad]].
        -- left. exists g'. split; [exact Hg'|]. split; [exact Hwf'|].
           apply Hshift_ok; [exact Hall | intros _; lia].
        -- right. split; [exact Hg' | now apply Hshift_bad].
      * rewrite (Herr Hout). cbn [bind]. right. split; [reflexivity|].
        exists 0%nat, cell. apply truthy_true in Ht. repeat split; auto.
        cbn. lia.
    + destruct (IH g (x + 1) Hwf) as [(g' & Hg' & Hwf' & Hall)|[Hg' Hbad]].
      * left. exists g'. split; [exact Hg'|]. split; [exact Hwf'|].
        apply Hshift_ok; [exact Hall | intros Habs; congruence].
      * right. split; [exact Hg' | now apply Hshift_bad].
Qed.

Lemma lock_rows_outcome (ox oy v : Z) (sh : shape) :
  forall (g : grid) (y : Z),
    wf_grid g ->
    (exists g', lock_rows g ox oy y sh v = Ok g' /\ wf_grid g' /\
       forall j i, shape_cell sh j i ->
         - COLS <= Z.of_nat i + ox < COLS /\ - ROWS <= y + Z.of_nat j + oy < ROWS) \/
    (lock_rows g ox oy y sh v = Err IndexError /\
     exists j i, shape_cell sh j i /\
       ~ (- COLS <= Z.of_nat i + ox < COLS /\ - ROWS <= y + Z.of_nat j + oy < ROWS)).
Proof.
  induction sh as [|line rest IH]; intros g y Hwf; cbn [lock_rows].
  - left. exists g. split; [reflexivity|]. split; [exact Hwf|].
    intros j i (r & c & Hj & _). destruct j; discriminate.
  - destruct (lock_cells_outcome ox oy y v line g 0 Hwf)
      as [(g1 & -> & Hwf1 & Hall1)|[-> (i & c & Hi & Hc & Hbad)]]; cbn [bind].
    + destruct (IH g1 (y + 1) Hwf1) as [(g' & Hg' & Hwf' & Hall)|[Hg' Hbad]].
      * left. exists g'. split; [exact Hg'|]. split; [exact Hwf'|].
        intros [|j] i (r & c & Hj & Hi & Hc); cbn in Hj.
        -- injection Hj as <-. specialize (Hall1 i c Hi Hc). lia.
        -- assert (Hcell : shape_cell rest j i) by (exists r, c; auto).
           specialize (Hall j i Hcell). lia.
      * right. split; [exact Hg'|]. destruct Hbad as (j & i & (r & c & Hj & Hi & Hc) & Hb).
        exists (S j), i. split; [exists r, c; auto|]. lia.
    + right. split; [reflexivity|]. exists 0%nat, i.
      split; [exists line, c; auto|]. lia.
Qed.

(** X5. [lock_piece] does not check the placement; on a board it raises
    [IndexError] exactly when some occupied cell of the placement is beyond
    the reach of a Python subscript (column outside -COLS .. COLS-1 or row
    outside -ROWS .. ROWS-1), and otherwise returns a board: a cell at a
    negative row or column is accepted. *)
Theorem lock_piece_index_error (g : grid) (sh : shape) (col row color_idx : Z) :
  wf_grid g ->
  (lock_piece g sh (col, row) color_idx = Err IndexError <-> ~ in_reach sh col row) /\
  (in_reach sh col row ->
   exists g', lock_piece g sh (col, row) color_idx = Ok g' /\ wf_grid g').
Proof.
  intros Hwf. unfold lock_piece, in_reach.
  destruct (lock_rows_outcome col row (color_idx + 1) sh g 0 Hwf)
    as [(g' & Hg' & Hwf' & Hall)|[Hg' (j & i & Hc & Hbad)]].
  - assert (Hreach : forall y x, shape_cell sh y x ->
              - COLS <= Z.of_nat x + col < COLS /\ - ROWS <= Z.of_nat y + row < ROWS).
    { intros y x Hc. specialize (Hall y x Hc). lia. }
    split; [|eauto]. rewrite Hg'. split; [discriminate|].
    intros Hn. destruct (Hn Hreach).
  - assert (Hnot : ~ forall y x, shape_cell sh y x ->
              - COLS <= Z.of_nat x + col < COLS /\ - ROWS <= Z.of_nat y + row < ROWS).
    { intros Hreach. specialize (Hreach j i Hc). lia. }
    split; [split; auto|]. intros Hreach. destruct (Hnot Hreach).
Qed.

Lemma lock_piece_index_error_witness :
  (lock_piece create_grid (SHAPES_BASE pI) (7, 0) 0 = Err IndexError <->
   ~ in_reach (SHAPES_BASE pI) 7 0) /\
  (in_reach (SHAPES_BASE pI) 7 0 ->
   exists g', lock_piece create_grid (SHAPES_BASE pI) (7, 0) 0 = Ok g' /\ wf_grid g').
Proof. apply (lock_piece_index_error create_grid (SHAPES_BASE pI) 7 0 0 wf_create_grid). Defined.

Lemma set_cell_length (g g' : grid) (r c v : Z) :
  set_cell g r c v = Ok g' -> length g' = length g.
Proof.
  unfold set_cell. intros H.
  apply bind_Ok in H. destruct H as (old & _ & H).
  apply bind_Ok in H. destruct H as (new & _ & H).
  apply py_setitem_Ok in H. destruct H as (j & _ & ->). apply length_insert.
Qed.

Lemma set_cell_wrap (g : grid) (r c v : Z) :
  Z.of_nat (length g) = ROWS -> - ROWS <= r < 0 ->
  set_cell g r c v = set_cell g (r + ROWS) c v.
Proof.
  intros Hlen Hr.
  assert (Hpos : py_pos g r = py_pos g (r + ROWS)).
  { unfold py_pos. rewrite Hlen.
    destruct (Z.ltb_spec r 0); [|lia].
    destruct (Z.ltb_spec (r + ROWS) 0); [lia|]. reflexivity. }
  unfold set_cell, py_index, py_setitem. now rewrite Hpos.
Qed.

Lemma lock_cells_wrap (ox oy y v : Z) (cells : list Z) :
  (Exists (fun c => c <> 0) cells -> - ROWS <= y + oy < 0) ->
  forall (g : grid) (x : Z),
    Z.of_nat (length g) = ROWS ->
    lock_cells g ox oy y x cells v = lock_cells g ox (oy + ROWS) y x cells v.
Proof.
  induction cells as [|cell rest IH]; intros Hrow g x Hlen; cbn [lock_cells];
    [reflexivity|].
  assert (Hrest : Exists (fun c => c <> 0) rest -> - ROWS <= y + oy < 0)
    by (intros H; apply Hrow; now right).
  destruct (truthy cell) eqn:Ht; [|now apply IH].
  apply truthy_true in Ht.
  replace (y + (oy + ROWS)) with (y + oy + ROWS) by lia.
  rewrite <- set_cell_wrap by (auto; apply Hrow; now left).
  destruct (set_cell g (y + oy) (x + ox) v) as [g1|e] eqn:Hset; cbn [bind];
    [|reflexivity].
  apply IH; [exact Hrest|]. now rewrite (set_cell_length g g1 _ _ _ Hset).
Qed.

Lemma lock_cells_length (ox oy y v : Z) (cells : list Z) :
  forall (g g' : grid) (x : Z),
    lock_cells g ox oy y x cells v = Ok g' -> length g' = length g.
Proof.
  induction cells as [|cell rest IH]; intros g g' x H; cbn [lock_cells] in H.
  - now injection H as <-.
  - destruct (truthy cell); [|eauto].
    apply bind_Ok in H. destruct H as (g1 & Hset & H).
    rewrite (IH _ _ _ H). eapply set_cell_length; eauto.
Qed.

Lemma lock_rows_wrap (ox oy v : Z) (sh : shape) :
  forall (g : grid) (y : Z),
    Z.of_nat (length g) = ROWS ->
    (forall j i, shape_cell sh j i -> - ROWS <= y + Z.of_nat j + oy < 0) ->
    lock_rows g ox oy y sh v = lock_rows g ox (oy + ROWS) y sh v.
Proof.
  induction sh as [|line rest IH]; intros g y Hlen Hrow; cbn [lock_rows];
    [reflexivity|].
  rewrite <- (lock_cells_wrap ox oy y v line).
  - destruct (lock_cells g ox oy y 0 line v) as [g1|e] eqn:Hcells; cbn [bind];
      [|reflexivity].
    apply IH; [now rewrite (lock_cells_length _ _ _ _ _ _ _ _ Hcells)|].
    intros j i (r & c & Hj & Hi & Hc).
    assert (Hcell : shape_cell (line :: rest) (S j) i) by (exists r, c; auto).
    specialize (Hrow _ _ Hcell). lia.
  - intros Hex. apply Exists_exists in Hex. destruct Hex as (c & Hin & Hc).
    apply list_elem_of_lookup in Hin. destruct Hin as [i Hi].
    assert (Hcell : shape_cell (line :: rest) 0 i) by (exists line, c; auto).
    specialize (Hrow _ _ Hcell). lia.
  - exact Hlen.
Qed.

(** X6. A piece locked above the board lands at its bottom: when every
    occupied cell of the placement has an absolute row from -ROWS to -1,
    which [valid_move] accepts as long as the columns are in range,
    [lock_piece] writes (or fails) as it does for the placement [ROWS] rows
    lower, since a negative subscript counts from the end of the list. *)
Theorem lock_piece_wraps (g : grid) (sh : shape) (col row color_idx : Z) :
  length g = Z.to_nat ROWS ->
  (forall y x, shape_cell sh y x -> - ROWS <= Z.of_nat y + row < 0) ->
  lock_piece g sh (col, row) color_idx =
  lock_piece g sh (col, row + ROWS) color_idx.
Proof.
  intros Hlen Hrow. unfold lock_piece. apply lock_rows_wrap.
  - rewrite Hlen. unfold ROWS. lia.
  - intros j i Hc. specialize (Hrow j i Hc). lia.
Qed.

Lemma lock_piece_wraps_witness :
  valid_move create_grid (SHAPES_BASE pO) (4, -2) = Ok true /\
  lock_piece create_grid (SHAPES_BASE pO) (4, -2) 1 =
  lock_piece create_grid (SHAPES_BASE pO) (4, -2 + ROWS) 1.
Proof.
  split; [reflexivity|].
  apply (lock_piece_wraps create_grid (SHAPES_BASE pO) 4 (-2) 1).
  - reflexivity.
  - intros y x Hc. apply shape_cell_cell_at in Hc.
    assert (Hy : (y < 2)%nat).
    { destruct y as [|[|y]]; [lia|lia|]. exfalso. apply Hc.
      unfold cell_at. destruct ((0 <=? _) && (0 <=? _)); [|reflexivity].
      rewrite Nat2Z.id. reflexivity. }
    unfold ROWS. lia.
Defined.

(** ** [hard_drop]: when it returns, and where the piece comes to rest *)

Lemma wf_board_with_T : wf_grid board_with_T.
Proof. split; [reflexivity|]. repeat constructor. Qed.

Lemma has_cellb_false (sh : shape) :
  has_cellb sh = false -> forall y x, ~ shape_cell sh y x.
Proof.
  intros Hb y x (r & v & Hr & Hv & Hne).
  assert (has_cellb sh = true) as Habs; [|congruence].
  unfold has_cellb. apply existsb_exists. exists r.
  split; [eapply list_elem_of_In, list_elem_of_lookup_2; exact Hr|].
  apply existsb_exists. exists v.
  split; [eapply list_elem_of_In, list_elem_of_lookup_2; exact Hv|].
  unfold truthy. now destruct (Z.eqb_spec v 0).
Qed.

(** X7. On every board, the loop of [hard_drop] ends exactly for the
    matrices with an occupied cell: for them one row is returned as soon
    as the fuel allows [ROWS] tests, and for a matrix with no occupied
    cell (every placement of which is valid) no fuel is enough. *)
Theorem hard_drop_returns_iff (g : grid) (sh : shape) (col : Z) :
  wf_grid g ->
  ((exists fuel r, hard_drop fuel g sh col = Ok r) <-> has_cell sh) /\
  (has_cell sh ->
   exists r, forall fuel, ROWS <= Z.of_nat fuel -> hard_drop fuel g sh col = Ok r) /\
  (~ has_cell sh ->
   (forall off, valid_move g sh off = Ok true) /\
   forall fuel, hard_drop fuel g sh col = Err OutOfFuel).
Proof.
  intros Hwf.
  assert (Hret : has_cell sh ->
    exists r, forall fuel, ROWS <= Z.of_nat fuel -> hard_drop fuel g sh col = Ok r).
  { intros Hcell.
    destruct (hard_drop_loop_spec g sh col Hwf Hcell (Z.to_nat ROWS) 0)
      as (r & Hr & _); [unfold ROWS; lia .. |].
    exists r. intros fuel Hfuel. rewrite <- Hr.
    apply hard_drop_fuel; auto. unfold ROWS. lia. }
  split; [|split; [exact Hret|]].
  - split.
    + intros (fuel & r & Hr). destruct (has_cellb sh) eqn:Hb.
      * now apply has_cellb_has_cell.
      * rewrite (hard_drop_no_cell g sh col fuel Hwf (has_cellb_false sh Hb)) in Hr.
        discriminate.
    + intros Hcell. destruct (Hret Hcell) as (r & Hr).
      exists (Z.to_nat ROWS), r. apply Hr. unfold ROWS. lia.
  - intros Hnone.
    assert (Hno : forall y x, ~ shape_cell sh y x).
    { intros y x Hyx. apply Hnone. now exists y, x. }
    split; [|intros fuel; now apply hard_drop_no_cell].
    intros [ox oy]. apply valid_move_true_iff; [exact Hwf|].
    intros y x Hyx. destruct (Hno y x Hyx).
Qed.

Lemma hard_drop_returns_iff_witness :
  ((exists fuel r, hard_drop fuel create_grid (SHAPES_BASE pT) 3 = Ok r) <->
   has_cell (SHAPES_BASE pT)) /\
  (has_cell (SHAPES_BASE pT) ->
   exists r, forall fuel, ROWS <= Z.of_nat fuel ->
     hard_drop fuel create_grid (SHAPES_BASE pT) 3 = Ok r) /\
  (~ has_cell (SHAPES_BASE pT) ->
   (forall off, valid_move create_grid (SHAPES_BASE pT) off = Ok true) /\
   forall fuel, hard_drop fuel create_grid (SHAPES_BASE pT) 3 = Err OutOfFuel).
Proof. apply (hard_drop_returns_iff create_grid (SHAPES_BASE pT) 3 wf_create_grid). Defined.

(** X8. A piece dropped from a valid spawn placement comes to rest: when
    the placement at row 0 is valid, every placement of the way down to
    the hard-drop row is valid, and at that row some occupied cell of the
    piece stands on the floor or on an occupied cell of the board. *)
Theorem hard_drop_rests (fuel : nat) (g : grid) (sh : shape) (col : Z) :
  wf_grid g -> has_cell sh -> ROWS <= Z.of_nat fuel ->
  valid_move g sh (col, 0) = Ok true ->
  exists r, hard_drop fuel g sh col = Ok r /\
    (forall r', 0 <= r' <= r -> valid_move g sh (col, r') = Ok true) /\
    exists y x, shape_cell sh y x /\
      (Z.of_nat y + r + 1 = ROWS \/
       cell_at g (Z.of_nat y + r + 1) (Z.of_nat x + col) <> 0).
Proof.
  intros Hwf Hcell Hfuel Hspawn.
  destruct (hard_drop_loop_spec g sh col Hwf Hcell fuel 0)
    as (r & Hr & Hbound & Hstop & Hbefore); [unfold ROWS; lia|lia|].
  exists r. split; [exact Hr|].
  assert (Hway : forall r', 0 <= r' <= r -> valid_move g sh (col, r') = Ok true).
  { intros r' Hr'. destruct (Z.eq_dec r' 0) as [->|Hne]; [exact Hspawn|].
    replace r' with (r' - 1 + 1) by lia. apply Hbefore. lia. }
  split; [exact Hway|].
  destruct (valid_move_spec g sh col (r + 1) Hwf) as (b & Hb & Hiff).
  rewrite Hstop in Hb. injection Hb as <-.
  destruct Hiff as [Hiff _]. destruct (Hiff eq_refl) as (y & x & Hyx & Href).
  exists y, x. split; [exact Hyx|].
  assert (Hlast : valid_move g sh (col, r) = Ok true) by (apply Hway; lia).
  pose proof (valid_move_true_cell g sh col r y x Hwf Hlast Hyx) as Hfree.
  unfold cell_refused in *. rewrite Z.add_assoc in Href.
  destruct Href as [Hx|[Hx|[Hy|[_ Hocc]]]].
  - exfalso. apply Hfree. now left.
  - exfalso. apply Hfree. right. now left.
  - left. destruct (Z.eq_dec (Z.of_nat y + r + 1) ROWS) as [Heq|Hne]; [exact Heq|].
    exfalso. apply Hfree. right. right. left. lia.
  - now right.
Qed.

Lemma hard_drop_rests_witness :
  exists r, hard_drop 20 board_with_T (SHAPES_BASE pO) 4 = Ok r /\
    (forall r', 0 <= r' <= r ->
       valid_move board_with_T (SHAPES_BASE pO) (4, r') = Ok true) /\
    exists y x, shape_cell (SHAPES_BASE pO) y x /\
      (Z.of_nat y + r + 1 = ROWS \/
       cell_at board_with_T (Z.of_nat y + r + 1) (Z.of_nat x + 4) <> 0).
Proof.
  apply (hard_drop_rests 20 board_with_T (SHAPES_BASE pO) 4 wf_board_with_T).
  - apply has_cellb_has_cell. reflexivity.
  - unfold ROWS. lia.
  - reflexivity.
Defined.

(** ** [get_heights_and_holes]: holes lie under the top of their column *)

Lemma filter_none {A : Type} (P : A -> bool) (l : list A) :
  (forall x, In x l -> P x = false) -> List.filter P l = [].
Proof.
  induction l as [|a l IH]; intros Hall; [reflexivity|].
  cbn [List.filter]. rewrite (Hall a) by now left.
  apply IH. intros x Hx. apply Hall. now right.
Qed.

(** The holes of a column are among the rows below its topmost occupied
    cell: one fewer than its height, at most. *)
Lemma column_holes_below_height (g : grid) (c : Z) :
  0 <= column_holes g c /\
  column_holes g c + (if column_height g c =? 0 then 0 else 1) <= column_height g c.
Proof.
  unfold column_holes. split; [lia|].
  destruct (column_height_spec g c) as [[-> Hempty]|(t & Ht & _ & _ & Htop & ->)].
  - rewrite filter_none; [cbn; lia|].
    intros r Hr. apply list_elem_of_In, elem_of_seqZ in Hr.
    destruct (is_hole g c r) eqn:E; [|reflexivity].
    apply is_hole_spec in E. destruct E as (_ & r' & Hr' & Hocc).
    destruct Hocc. apply Hempty. lia.
  - replace ROWS with ((t + 1) + (ROWS - t - 1)) at 1 by lia.
    rewrite seqZ_app by lia. rewrite List.filter_app, length_app.
    rewrite (filter_none _ (seqZ 0 (t + 1))).
    + pose proof (List.filter_length_le (is_hole g c) (seqZ (0 + (t + 1)) (ROWS - t - 1))) as Hle.
      rewrite length_seqZ in Hle. cbn [length].
      destruct (Z.eqb_spec (ROWS - t) 0); lia.
    + intros r Hr. apply list_elem_of_In, elem_of_seqZ in Hr.
      destruct (is_hole g c r) eqn:E; [|reflexivity].
      apply is_hole_below_topmost in E; [|lia].
      destruct E as (_ & t' & Ht' & Hlt). rewrite Htop in Ht'.
      injection Ht' as <-. lia.
Qed.

Lemma holes_sum_below_heights (g : grid) (cols : list Z) :
  0 <= fold_right Z.add 0 (map (column_holes g) cols) /\
  fold_right Z.add 0 (map (column_holes g) cols)
  + Z.of_nat (length (List.filter (fun h => negb (h =? 0)) (map (column_height g) cols)))
  <= fold_right Z.add 0 (map (column_height g) cols).
Proof.
  induction cols as [|c cols IH]; [cbn; lia|].
  cbn [map fold_right List.filter].
  pose proof (column_holes_below_height g c) as [H0 Hc].
  destruct (column_height g c =? 0); cbn [negb length]; lia.
Qed.

(** X9. On every board, [get_heights_and_holes] returns ten heights
    between 0 and [ROWS] and a count of holes that is at most the sum of
    the heights less the number of columns that are not empty: every hole
    lies below the topmost occupied cell of its column.  A board of
    height 0 has no hole. *)
Theorem get_heights_and_holes_bounds (g : grid) :
  wf_grid g ->
  exists heights holes,
    get_heights_and_holes g = Ok (heights, holes) /\
    Z.of_nat (length heights) = COLS /\
    (forall h, In h heights -> 0 <= h <= ROWS) /\
    0 <= holes /\
    holes + Z.of_nat (length (List.filter (fun h => negb (h =? 0)) heights))
    <= aggregate_height heights.
Proof.
  intros Hwf. exists (map (column_height g) (seqZ 0 COLS)), (hole_count g).
  split; [now apply get_heights_and_holes_eq|].
  split; [now rewrite length_map, length_seqZ|].
  split.
  { intros h Hh. apply in_map_iff in Hh. destruct Hh as (c & <- & _).
    apply column_height_range. }
  rewrite aggregate_height_eq. unfold heights_sum.
  rewrite <- holes_prefix_all. unfold holes_prefix.
  rewrite Z2Nat.id by (unfold COLS; lia).
  apply holes_sum_below_heights.
Qed.

Lemma get_heights_and_holes_bounds_witness :
  exists heights holes,
    get_heights_and_holes checker = Ok (heights, holes) /\
    Z.of_nat (length heights) = COLS /\
    (forall h, In h heights -> 0 <= h <= ROWS) /\
    0 <= holes /\
    holes + Z.of_nat (length (List.filter (fun h => negb (h =? 0)) heights))
    <= aggregate_height heights.
Proof. apply (get_heights_and_holes_bounds checker wf_checker). Defined.

(** ** [evaluate]: the score is a finite number *)

Lemma ordinary_below_infinity (s : float) :
  ordinary s -> (s <? infinity)%float = true.
Proof.
  unfold ordinary. rewrite ltb_spec.
  change (Prim2SF infinity) with (S754_infinity false).
  destruct (Prim2SF s) as [| | |[|] m e]; simpl; try contradiction; reflexivity.
Qed.

Lemma ordinary_eq_self (s : float) : ordinary s -> (s =? s)%float = true.
Proof.
  unfold ordinary. rewrite FloatAxioms.eqb_spec. unfold SFeqb.
  destruct (Prim2SF s) as [[|]| | |[|] m e]; cbn [SFcompare small];
    try contradiction; try reflexivity; intros _;
    rewrite Z.compare_refl, ?Pos.compare_cont_refl, ?Pos.compare_refl; reflexivity.
Qed.

(** X10. On every board, with a count of cleared lines from 0 to [ROWS],
    the score that [evaluate] returns is a finite number: it is equal to
    itself (no NaN) and lies strictly between the two infinities.  So the
    first scored candidate of [best_move] always beats the initial
    [-inf]. *)
Theorem evaluate_finite (g : grid) (lines : Z) :
  wf_grid g -> 0 <= lines <= ROWS ->
  exists s, evaluate g lines = Ok s /\
    (s =? s)%float = true /\
    (neg_infinity <? s)%float = true /\ (s <? infinity)%float = true.
Proof.
  intros Hwf Hl. destruct (evaluate_ordinary g lines Hwf Hl) as (s & Hs & Hord).
  exists s. split; [exact Hs|]. split; [|split].
  - now apply ordinary_eq_self.
  - now apply ordinary_above_neg_infinity.
  - now apply ordinary_below_infinity.
Qed.

Lemma evaluate_finite_witness :
  exists s, evaluate board_with_T 4 = Ok s /\
    (s =? s)%float = true /\
    (neg_infinity <? s)%float = true /\ (s <? infinity)%float = true.
Proof.
  apply (evaluate_finite board_with_T 4 wf_board_with_T). unfold ROWS. lia.
Defined.

(** ** [best_move] on the rotation cache *)

Lemma rotations_first_fits (p : piece) :
  exists sh, ROTATIONS p !! 0%nat = Some sh /\ 0 <= 0 <= COLS - width sh.
Proof. destruct p; eexists; (split; [reflexivity|]); vm_compute; split; discriminate. Qed.

(** X11. On every board and for every piece, [best_move] on the cached
    rotations of the piece returns a pair (column, rotation index) that the
    caller can use: the index is one of the list, so that
    [current_rotations[rot]] does not raise, and the column is one of the
    range of that rotation, 0 .. [COLS] - width. *)
Theorem best_move_in_range (fuel : nat) (g : grid) (p : piece) :
  wf_grid g -> ROWS <= Z.of_nat fuel ->
  exists col rot sh,
    best_move fuel g p (ROTATIONS p) = Ok (col, rot) /\
    ROTATIONS p !! rot = Some sh /\ 0 <= col <= COLS - width sh.
Proof.
  intros Hwf Hfuel.
  destruct (best_move_analysis fuel g p (ROTATIONS p) Hwf
              (rotations_have_cells p) Hfuel) as (scored & Hsc & _ & Hbest).
  destruct scored as [|c0 scored0].
  - destruct (rotations_first_fits p) as (sh & Hsh & Hcol).
    exists 0, 0%nat, sh. auto.
  - destruct Hbest as ([[s col] rot] & (k & Hk & _) & Hbm). cbn [fst snd] in *.
    assert (Hin : In (rot, col, s) (c0 :: scored0)).
    { eapply list_elem_of_In, list_elem_of_lookup_2. exact Hk. }
    apply (scored_candidates_in fuel g (PIECE_TO_IDX p) _ _ Hsc) in Hin.
    destruct Hin as (sh & Hin & _). apply in_candidates in Hin.
    exists col, rot, sh. split; [exact Hbm|exact Hin].
Qed.

Lemma best_move_in_range_witness :
  exists col rot sh,
    best_move 20 checker pL (ROTATIONS pL) = Ok (col, rot) /\
    ROTATIONS pL !! rot = Some sh /\ 0 <= col <= COLS - width sh.
Proof.
  apply (best_move_in_range 20 checker pL wf_checker). unfold ROWS. lia.
Defined.

(** ** [rotate]: a quarter turn *)

Lemma rect_row (h w : nat) (sh : shape) (i : nat) :
  rect h w sh -> (i < h)%nat -> length (nth i sh []) = w.
Proof.
  intros [Hlen Hall] Hi. rewrite Forall_forall in Hall. apply Hall.
  apply list_elem_of_In, nth_In. lia.
Qed.

Lemma rect_ext (h w : nat) (a b : shape) :
  rect h w a -> rect h w b ->
  (forall i j, (i < h)%nat -> (j < w)%nat -> entry a i j = entry b i j) ->
  a = b.
Proof.
  intros Ha Hb Hent. apply (nth_ext a b [] []); [destruct Ha, Hb; congruence|].
  intros i Hi. destruct Ha as [Hla Hra] eqn:Ea. rewrite Hla in Hi.
  apply (nth_ext _ _ 0 0).
  - rewrite (rect_row h w a i), (rect_row h w b i); auto.
  - intros j Hj. rewrite (rect_row h w a i) in Hj by auto. now apply Hent.
Qed.

Lemma zip_cons_length {A : Type} (r : list A) (cols : list (list A)) :
  length r = length cols -> length (zip_cons r cols) = length r.
Proof.
  revert cols. induction r as [|x r IH]; intros [|c cols] Hlen; simpl in *;
    try discriminate; [reflexivity|]. f_equal. apply IH. lia.
Qed.

Lemma zip_cons_nth {A : Type} (d : A) (r : list A) (cols : list (list A)) (i : nat) :
  length r = length cols -> (i < length r)%nat ->
  nth i (zip_cons r cols) [] = nth i r d :: nth i cols [].
Proof.
  revert cols i. induction r as [|x r IH]; intros [|c cols] i Hlen Hi; simpl in *;
    try discriminate; try lia.
  destruct i as [|i]; [reflexivity|]. apply IH; lia.
Qed.

(** The star call of [zip] on [n >= 1] rows of [w] entries each gives the
    [w] columns, of [n] entries each. *)
Lemma zip_star_rect (w : nat) (rows : list (list Z)) :
  rows <> [] -> Forall (fun r => length r = w) rows ->
  rect w (length rows) (zip_star rows) /\
  forall i j, (i < w)%nat -> (j < length rows)%nat ->
    entry (zip_star rows) i j = entry rows j i.
Proof.
  induction rows as [|r rest IH]; intros Hne Hall; [congruence|].
  apply Forall_cons in Hall. destruct Hall as [Hr Hrest].
  destruct rest as [|r2 rest].
  - cbn [zip_star length]. split; [split|].
    + now rewrite length_map.
    + apply Forall_forall. intros c Hc. apply list_elem_of_In, in_map_iff in Hc.
      destruct Hc as (x & <- & _). reflexivity.
    + intros i j Hi Hj. assert (j = 0%nat) as -> by lia. unfold entry.
      cbn [nth]. rewrite <- Hr in Hi.
      rewrite (nth_indep _ [] ((fun x : Z => [x]) 0)) by now rewrite length_map.
      rewrite (map_nth (fun x : Z => [x]) r 0 i). reflexivity.
  - destruct IH as [[Hlen Hcols] Hent]; [discriminate|exact Hrest|].
    change (zip_star (r :: r2 :: rest)) with (zip_cons r (zip_star (r2 :: rest))).
    set (cols := zip_star (r2 :: rest)) in *.
    assert (Hrc : length r = length cols) by congruence.
    split; [split|].
    + rewrite zip_cons_length; congruence.
    + apply Forall_forall. intros c Hc. apply list_elem_of_In in Hc.
      apply (In_nth _ _ []) in Hc. destruct Hc as (i & Hi & <-).
      rewrite zip_cons_length in Hi by exact Hrc.
      rewrite (zip_cons_nth 0) by auto. cbn [length]. f_equal.
      rewrite Forall_forall in Hcols. apply Hcols.
      apply list_elem_of_In, nth_In. lia.
    + intros i j Hi Hj. unfold entry in *.
      rewrite (zip_cons_nth 0) by (auto; lia).
      destruct j as [|j]; [reflexivity|]. cbn [nth].
      apply Hent; [exact Hi|]. cbn [length] in *. lia.
Qed.

Lemma rotate_rect (h w : nat) (sh : shape) :
  rect h w sh -> (0 < h)%nat ->
  rect w h (rotate sh) /\
  forall i j, (i < w)%nat -> (j < h)%nat ->
    entry (rotate sh) i j = entry sh (h - 1 - j) i.
Proof.
  intros [Hlen Hall] Hh. unfold rotate.
  destruct (zip_star_rect w (rev sh)) as [Hrect Hent].
  - intros Hnil. apply (f_equal (@length _)) in Hnil.
    rewrite length_rev in Hnil. cbn in Hnil. lia.
  - apply Forall_forall. intros r Hr. rewrite Forall_forall in Hall.
    apply Hall. apply list_elem_of_In. apply in_rev. now apply list_elem_of_In.
  - rewrite length_rev, Hlen in *. split; [exact Hrect|].
    intros i j Hi Hj. rewrite Hent by auto. unfold entry.
    rewrite rev_nth by lia. do 2 f_equal. lia.
Qed.

(** X12. [rotate] is a quarter turn clockwise: of a matrix of [h >= 1]
    rows of [w] entries each it makes a matrix of [w] rows of [h] entries
    each, whose entry (i, j) is the entry (h - 1 - j, i) of the
    argument. *)
Theorem rotate_quarter_turn (h w : nat) (sh : shape) :
  rect h w sh -> (0 < h)%nat ->
  rect w h (rotate sh) /\
  forall i j, (i < w)%nat -> (j < h)%nat ->
    entry (rotate sh) i j = entry sh (h - 1 - j) i.
Proof. apply rotate_rect. Qed.

Lemma rect_base (p : piece) :
  exists h w, rect h w (SHAPES_BASE p) /\ (0 < h)%nat /\ (0 < w)%nat.
Proof.
  destruct p; [exists 1%nat, 4%nat | exists 2%nat, 2%nat | exists 2%nat, 3%nat ..];
    (split; [split; [reflexivity | repeat constructor] | lia]).
Qed.

Lemma rotate_quarter_turn_witness :
  rect 3 2 (rotate (SHAPES_BASE pJ)) /\
  forall i j, (i < 3)%nat -> (j < 2)%nat ->
    entry (rotate (SHAPES_BASE pJ)) i j = entry (SHAPES_BASE pJ) (2 - 1 - j) i.
Proof.
  apply (rotate_quarter_turn 2 3 (SHAPES_BASE pJ)).
  - split; [reflexivity | repeat constructor].
  - lia.
Defined.

Lemma rotate_four (h w : nat) (sh : shape) :
  rect h w sh -> (0 < h)%nat -> (0 < w)%nat ->
  rotate (rotate (rotate (rotate sh))) = sh.
Proof.
  intros H0 Hh Hw.
  destruct (rotate_rect h w sh H0 Hh) as [H1 E1].
  destruct (rotate_rect w h _ H1 Hw) as [H2 E2].
  destruct (rotate_rect h w _ H2 Hh) as [H3 E3].
  destruct (rotate_rect w h _ H3 Hw) as [H4 E4].
  apply (rect_ext h w); [exact H4|exact H0|].
  intros i j Hi Hj.
  rewrite E4, E3, E2, E1 by lia. f_equal; lia.
Qed.

(** X13. Four quarter turns give back the matrix, for every matrix of
    [h >= 1] rows of [w >= 1] entries each; and two of them turn it
    upside down: entry (i, j) is the entry (h - 1 - i, w - 1 - j) of the
    argument. *)
Theorem rotate_four_times (h w : nat) (sh : shape) :
  rect h w sh -> (0 < h)%nat -> (0 < w)%nat ->
  rotate (rotate (rotate (rotate sh))) = sh /\
  rect h w (rotate (rotate sh)) /\
  forall i j, (i < h)%nat -> (j < w)%nat ->
    entry (rotate (rotate sh)) i j = entry sh (h - 1 - i) (w - 1 - j).
Proof.
  intros H0 Hh Hw. split; [now apply (rotate_four h w)|].
  destruct (rotate_rect h w sh H0 Hh) as [H1 E1].
  destruct (rotate_rect w h _ H1 Hw) as [H2 E2].
  split; [exact H2|]. intros i j Hi Hj. rewrite E2, E1 by lia. reflexivity.
Qed.

Lemma rotate_four_times_witness :
  rotate (rotate (rotate (rotate (SHAPES_BASE pS)))) = SHAPES_BASE pS /\
  rect 2 3 (rotate (rotate (SHAPES_BASE pS))) /\
  forall i j, (i < 2)%nat -> (j < 3)%nat ->
    entry (rotate (rotate (SHAPES_BASE pS))) i j =
    entry (SHAPES_BASE pS) (2 - 1 - i) (3 - 1 - j).
Proof.
  apply (rotate_four_times 2 3 (SHAPES_BASE pS)).
  - split; [reflexivity | repeat constructor].
  - lia.
  - lia.
Defined.

(** ** [build_rotations]: the quarter turns of the base, closed under [rotate] *)

Lemma shape_cell_entry (sh : shape) (y x : nat) :
  shape_cell sh y x <-> entry sh y x <> 0.
Proof.
  unfold shape_cell, entry. split.
  - intros (r & v & Hr & Hv & Hne).
    rewrite (nth_lookup_Some _ _ [] _ Hr), (nth_lookup_Some _ _ 0 _ Hv). exact Hne.
  - intros Hne.
    destruct (sh !! y) as [r|] eqn:Hr.
    + rewrite (nth_lookup_Some _ _ [] _ Hr) in Hne.
      destruct (r !! x) as [v|] eqn:Hv.
      * rewrite (nth_lookup_Some _ _ 0 _ Hv) in Hne. now exists r, v.
      * apply lookup_ge_None in Hv. rewrite nth_overflow in Hne by lia.
        now destruct Hne.
    + apply lookup_ge_None in Hr. rewrite (nth_overflow sh) in Hne by lia.
      destruct x; now destruct Hne.
Qed.

Lemma entry_inside (h w : nat) (sh : shape) (y x : nat) :
  rect h w sh -> entry sh y x <> 0 -> (y < h)%nat /\ (x < w)%nat.
Proof.
  intros Hrect Hne. unfold entry in Hne.
  destruct (Nat.lt_ge_cases y h) as [Hy|Hy].
  - split; [exact Hy|]. destruct (Nat.lt_ge_cases x w) as [Hx|Hx]; [exact Hx|].
    rewrite nth_overflow in Hne; [now destruct Hne|].
    rewrite (rect_row h w sh y Hrect Hy). exact Hx.
  - destruct Hrect as [Hlen _]. rewrite (nth_overflow sh) in Hne by lia.
    destruct x; now destruct Hne.
Qed.

Lemma rotate_has_cell (h w : nat) (sh : shape) :
  rect h w sh -> has_cell sh -> has_cell (rotate sh).
Proof.
  intros Hrect (y & x & Hyx). apply shape_cell_entry in Hyx.
  destruct (entry_inside h w sh y x Hrect Hyx) as [Hy Hx].
  destruct (rotate_rect h w sh Hrect) as [_ Hent]; [lia|].
  exists x, (h - 1 - y)%nat. apply shape_cell_entry.
  rewrite Hent by lia. replace (h - 1 - (h - 1 - y))%nat with y by lia. exact Hyx.
Qed.

Lemma turns_rect (h w : nat) (base : shape) (k : nat) :
  rect h w base -> (0 < h)%nat -> (0 < w)%nat ->
  rect h w (turns k base) \/ rect w h (turns k base).
Proof.
  intros Hrect Hh Hw. induction k as [|k IH]; [now left|].
  change (turns (S k) base) with (rotate (turns k base)).
  destruct IH as [IH|IH]; [right|left]; now apply rotate_rect.
Qed.

Lemma turns_has_cell (h w : nat) (base : shape) (k : nat) :
  rect h w base -> (0 < h)%nat -> (0 < w)%nat -> has_cell base ->
  has_cell (turns k base).
Proof.
  intros Hrect Hh Hw Hcell. induction k as [|k IH]; [exact Hcell|].
  change (turns (S k) base) with (rotate (turns k base)).
  destruct (turns_rect h w base k Hrect Hh Hw) as [Hk|Hk];
    eapply rotate_has_cell; eauto.
Qed.

(** The loop of [build_rotations], entered with the first [m] quarter
    turns of the base in [rots] and the next one in [cur]. *)
Lemma build_loop_turns (base : shape) (n : nat) :
  forall m : nat,
    exists m', (m <= m' <= m + n)%nat /\
      build_loop n (map (fun k => turns k base) (seq 0 m)) (turns m base) =
        map (fun k => turns k base) (seq 0 m') /\
      (m' = (m + n)%nat \/
       In (turns m' base) (map (fun k => turns k base) (seq 0 m'))).
Proof.
  induction n as [|n IH]; intros m.
  - exists m. cbn [build_loop]. repeat split; try lia.
  - cbn [build_loop].
    destruct (existsb (shape_eqb (turns m base))
                (map (fun k => turns k base) (seq 0 m))) eqn:Hex.
    + exists m. repeat split; try lia. right.
      apply existsb_exists in Hex. destruct Hex as (sh & Hin & Heq).
      unfold shape_eqb in Heq. apply bool_decide_eq_true in Heq.
      rewrite Heq. exact Hin.
    + destruct (IH (S m)) as (m' & Hm' & Hres & Hlast).
      exists m'. split; [lia|]. split; [|destruct Hlast; [left; lia | now right]].
      rewrite <- Hres. rewrite seq_S, map_app. reflexivity.
Qed.

(** X14. For every base matrix of [h >= 1] rows of [w >= 1] entries
    each, [build_rotations] returns the first [n] quarter turns of the
    base, in order, for some [n] from 1 to 4; the list is closed under
    [rotate], so that turning any of its entries gives one of its entries
    again; and when the base has an occupied cell, so has each entry. *)
Theorem build_rotations_closed (h w : nat) (base : shape) :
  rect h w base -> (0 < h)%nat -> (0 < w)%nat ->
  exists n, (1 <= n <= 4)%nat /\
    build_rotations base = map (fun k => turns k base) (seq 0 n) /\
    (forall sh, In sh (build_rotations base) ->
                In (rotate sh) (build_rotations base)) /\
    (has_cell base -> Forall has_cell (build_rotations base)).
Proof.
  intros Hrect Hh Hw. unfold build_rotations.
  change (build_loop 4 [] base) with
    (build_loop 3 (map (fun k => turns k base) (seq 0 1)) (turns 1 base)).
  destruct (build_loop_turns base 3 1) as (n & Hn & -> & Hlast).
  exists n. split; [lia|]. split; [reflexivity|]. split.
  - intros sh Hin. apply in_map_iff in Hin. destruct Hin as (k & <- & Hk).
    apply in_seq in Hk.
    change (rotate (turns k base)) with (turns (S k) base).
    destruct (Nat.eq_dec (S k) n) as [Heq|Hne].
    + rewrite Heq. destruct Hlast as [->|Hin]; [|exact Hin].
      change (turns (1 + 3) base) with (rotate (rotate (rotate (rotate base)))).
      rewrite (rotate_four h w) by assumption.
      apply in_map_iff. exists 0%nat. split; [reflexivity|]. apply in_seq. lia.
    + apply in_map_iff. exists (S k). split; [reflexivity|]. apply in_seq. lia.
  - intros Hcell. apply Forall_forall. intros sh Hin.
    apply list_elem_of_In, in_map_iff in Hin. destruct Hin as (k & <- & _).
    now apply (turns_has_cell h w).
Qed.

Lemma build_rotations_closed_witness :
  exists n, (1 <= n <= 4)%nat /\
    build_rotations (SHAPES_BASE pZ) =
      map (fun k => turns k (SHAPES_BASE pZ)) (seq 0 n) /\
    (forall sh, In sh (build_rotations (SHAPES_BASE pZ)) ->
                In (rotate sh) (build_rotations (SHAPES_BASE pZ))) /\
    (has_cell (SHAPES_BASE pZ) -> Forall has_cell (build_rotations (SHAPES_BASE pZ))).
Proof.
  apply (build_rotations_closed 2 3 (SHAPES_BASE pZ)).
  - split; [reflexivity | repeat constructor].
  - lia.
  - lia.
Defined.

(** ** [draw_grid] *)

(** A loop whose body fails on the elements that are not [good], whatever
    the state, and makes the step [step] on the others. *)
Lemma for_each_good {A St : Type} (good : A -> bool) (step : A -> St -> St)
    (body : A -> St -> res St) (e : error) (xs : list A) :
  (forall x st, In x xs -> good x = true -> body x st = Ok (step x st)) ->
  (forall x st, In x xs -> good x = false -> body x st = Err e) ->
  forall st,
    for_each xs body st =
    if forallb good xs then Ok (fold_left (fun st' x => step x st') xs st)
    else Err e.
Proof.
  induction xs as [|x xs IH]; intros Hgood Hbad st; [reflexivity|].
  cbn [for_each forallb fold_left].
  destruct (good x) eqn:Hx.
  - rewrite (Hgood x st) by (auto; now left). cbn [bind andb].
    apply IH; intros x' st' Hin; [apply Hgood | apply Hbad]; now right.
  - rewrite (Hbad x st) by (auto; now left). reflexivity.
Qed.

Lemma fold_left_app_flat_map {A B : Type} (f : A -> list B) (xs : list A) (st : list B) :
  fold_left (fun st' x => st' ++ f x) xs st = st ++ flat_map f xs.
Proof.
  revert st. induction xs as [|x xs IH]; intros st; cbn [fold_left flat_map].
  - now rewrite app_nil_r.
  - rewrite IH. now rewrite <- app_assoc.
Qed.

Lemma color_lookup_ok (v : Z) :
  drawableb v = true -> v <> 0 -> py_index COLOR_LIST (v - 1) = Ok (cell_color v).
Proof.
  unfold drawableb. intros Hd Hne.
  apply andb_true_iff in Hd. destruct Hd as [Hlo Hhi].
  apply Z.leb_le in Hlo, Hhi.
  assert (Hcases : v = -6 \/ v = -5 \/ v = -4 \/ v = -3 \/ v = -2 \/ v = -1 \/
                   v = 1 \/ v = 2 \/ v = 3 \/ v = 4 \/ v = 5 \/ v = 6 \/ v = 7) by lia.
  repeat (destruct Hcases as [->|Hcases]; [reflexivity|]).
  subst v. reflexivity.
Qed.

Lemma color_lookup_err (v : Z) :
  drawableb v = false -> py_index COLOR_LIST (v - 1) = Err IndexError.
Proof.
  unfold drawableb, py_index, py_pos. intros Hd.
  change (Z.of_nat (length COLOR_LIST)) with 7.
  apply andb_false_iff in Hd.
  destruct (Z.ltb_spec (v - 1) 0).
  - destruct (Z.leb_spec 0 (v - 1 + 7)); [|reflexivity].
    destruct Hd as [Hd|Hd]; [apply Z.leb_gt in Hd | apply Z.leb_gt in Hd]; lia.
  - destruct (Z.ltb_spec (v - 1) 7); [|now rewrite andb_false_r].
    destruct Hd as [Hd|Hd]; [apply Z.leb_gt in Hd | apply Z.leb_gt in Hd]; lia.
Qed.

Lemma drawableb_nonzero (v : Z) : drawableb v = false -> (v =? 0) = false.
Proof.
  unfold drawableb. intros Hd. destruct (Z.eqb_spec v 0) as [->|]; [discriminate|reflexivity].
Qed.

Lemma cell_at_lookup (g : grid) (r c : Z) (line : list Z) (v : Z) :
  0 <= r -> 0 <= c -> g !! Z.to_nat r = Some line -> line !! Z.to_nat c = Some v ->
  cell_at g r c = v.
Proof.
  intros Hr Hc Hl Hv. unfold cell_at.
  destruct (Z.leb_spec 0 r), (Z.leb_spec 0 c); try lia. cbn [andb].
  now rewrite Hl, Hv.
Qed.

(** One cell of [draw_grid], on a board. *)
Lemma draw_cell_spec (g : grid) (line : list Z) (y x : Z) (surface : list draw_rect) :
  wf_grid g -> 0 <= y -> g !! Z.to_nat y = Some line -> 0 <= x < COLS ->
  draw_cell line y x surface =
  if drawableb (cell_at g y x) then Ok (surface ++ cell_rects g y x)
  else Err IndexError.
Proof.
  intros Hwf Hy Hl Hx. unfold draw_cell.
  pose proof (wf_grid_row g _ line Hwf Hl) as Hlen.
  destruct (py_index_in_range line x) as (v & Hv & ->);
    [rewrite Hlen; unfold COLS in *; lia|].
  cbn [bind]. rewrite (cell_at_lookup g y x line v) by (auto; lia).
  destruct (drawableb v) eqn:Hd.
  - unfold cell_rects. rewrite (cell_at_lookup g y x line v) by (auto; lia).
    destruct (Z.eqb_spec v 0) as [->|Hne]; [reflexivity|].
    rewrite color_lookup_ok by auto. reflexivity.
  - rewrite drawableb_nonzero by exact Hd.
    rewrite color_lookup_err by exact Hd. reflexivity.
Qed.

(** One row of [draw_grid], on a board. *)
Lemma draw_row_spec (g : grid) (y : Z) (surface : list draw_rect) :
  wf_grid g -> 0 <= y < ROWS ->
  draw_row g y surface =
  if forallb (fun x => drawableb (cell_at g y x)) (seqZ 0 COLS)
  then Ok (surface ++ flat_map (cell_rects g y) (seqZ 0 COLS))
  else Err IndexError.
Proof.
  intros Hwf Hy. unfold draw_row.
  destruct (py_index_in_range g y) as (line & Hl & ->).
  { destruct Hwf as [Hlen _]. rewrite Hlen. unfold ROWS in *. lia. }
  cbn [bind].
  rewrite (for_each_good (fun x => drawableb (cell_at g y x))
             (fun x st => st ++ cell_rects g y x) _ IndexError).
  - now rewrite fold_left_app_flat_map.
  - intros x st Hin Hd. apply list_elem_of_In, elem_of_seqZ in Hin.
    rewrite (draw_cell_spec g line y x st Hwf) by (auto; lia). now rewrite Hd.
  - intros x st Hin Hd. apply list_elem_of_In, elem_of_seqZ in Hin.
    rewrite (draw_cell_spec g line y x st Hwf) by (auto; lia). now rewrite Hd.
Qed.

Lemma draw_grid_eq (surface : list draw_rect) (g : grid) :
  wf_grid g ->
  draw_grid surface g =
  if forallb (fun y => forallb (fun x => drawableb (cell_at g y x)) (seqZ 0 COLS))
       (seqZ 0 ROWS)
  then Ok (surface ++ painted g)
  else Err IndexError.
Proof.
  intros Hwf. unfold draw_grid, painted.
  rewrite (for_each_good
             (fun y => forallb (fun x => drawableb (cell_at g y x)) (seqZ 0 COLS))
             (fun y st => st ++ flat_map (cell_rects g y) (seqZ 0 COLS))
             _ IndexError).
  - now rewrite fold_left_app_flat_map.
  - intros y st Hin Hd. apply list_elem_of_In, elem_of_seqZ in Hin.
    rewrite draw_row_spec by (auto; lia). now rewrite Hd.
  - intros y st Hin Hd. apply list_elem_of_In, elem_of_seqZ in Hin.
    rewrite draw_row_spec by (auto; lia). now rewrite Hd.
Qed.

Lemma all_drawable_iff (g : grid) :
  forallb (fun y => forallb (fun x => drawableb (cell_at g y x)) (seqZ 0 COLS))
    (seqZ 0 ROWS) = true <->
  forall r c, 0 <= r < ROWS -> 0 <= c < COLS -> -6 <= cell_at g r c <= 7.
Proof.
  rewrite forallb_forall. split.
  - intros Hall r c Hr Hc.
    assert (Hrow : forallb (fun x => drawableb (cell_at g r x)) (seqZ 0 COLS) = true).
    { apply Hall. apply list_elem_of_In, elem_of_seqZ. lia. }
    rewrite forallb_forall in Hrow.
    assert (Hd : drawableb (cell_at g r c) = true).
    { apply Hrow. apply list_elem_of_In, elem_of_seqZ. lia. }
    unfold drawableb in Hd. apply andb_true_iff in Hd.
    destruct Hd as [Hlo Hhi]. apply Z.leb_le in Hlo, Hhi. lia.
  - intros Hall y Hy. apply list_elem_of_In, elem_of_seqZ in Hy.
    apply forallb_forall. intros x Hx. apply list_elem_of_In, elem_of_seqZ in Hx.
    unfold drawableb. apply andb_true_iff.
    rewrite !Z.leb_le. apply Hall; lia.
Qed.

Lemma forallb_false_ex {A : Type} (f : A -> bool) (l : list A) :
  forallb f l = false -> exists x, In x l /\ f x = false.
Proof.
  induction l as [|x l IH]; [discriminate|].
  cbn [forallb]. intros H. apply andb_false_iff in H. destruct H as [Hx|Hl].
  - exists x. split; [now left | exact Hx].
  - destruct (IH Hl) as (x' & Hin & Hx'). exists x'. split; [now right | exact Hx'].
Qed.

(** X15. On a board, [draw_grid] raises IndexError exactly when some cell
    holds a value below -6 or above 7, for which [val - 1] is no subscript
    of the seven colours; otherwise it adds to the surface the two
    rectangles of each cell, row by row, the first filled with black for
    0 and with the colour of subscript [val - 1] for the others (read from
    the end of the list for a negative value), the second a gray
    outline. *)
Theorem draw_grid_spec (surface : list draw_rect) (g : grid) :
  wf_grid g ->
  (draw_grid surface g = Err IndexError <->
   exists r c, 0 <= r < ROWS /\ 0 <= c < COLS /\
     (cell_at g r c < -6 \/ 7 < cell_at g r c)) /\
  ((forall r c, 0 <= r < ROWS -> 0 <= c < COLS -> -6 <= cell_at g r c <= 7) ->
   draw_grid surface g = Ok (surface ++ painted g)).
Proof.
  intros Hwf. rewrite (draw_grid_eq surface g Hwf).
  pose proof (all_drawable_iff g) as Hiff.
  destruct (forallb (fun y => forallb (fun x => drawableb (cell_at g y x)) (seqZ 0 COLS))
              (seqZ 0 ROWS)) eqn:Hall.
  - destruct Hiff as [Hiff _]. specialize (Hiff eq_refl).
    split; [|reflexivity]. split; [discriminate|].
    intros (r & c & Hr & Hc & Hbad). specialize (Hiff r c Hr Hc). lia.
  - split.
    + split; [intros _|reflexivity].
      apply forallb_false_ex in Hall. destruct Hall as (y & Hy & Hrow).
      apply forallb_false_ex in Hrow. destruct Hrow as (x & Hx & Hd).
      apply list_elem_of_In, elem_of_seqZ in Hy, Hx. exists y, x.
      split; [lia|]. split; [lia|]. unfold drawableb in Hd.
      apply andb_false_iff in Hd.
      destruct Hd as [Hd|Hd]; apply Z.leb_gt in Hd; lia.
    + intros Hok. destruct Hiff as [_ Hiff]. specialize (Hiff Hok). discriminate.
Qed.

Lemma draw_grid_spec_witness :
  (draw_grid [] checker = Err IndexError <->
   exists r c, 0 <= r < ROWS /\ 0 <= c < COLS /\
     (cell_at checker r c < -6 \/ 7 < cell_at checker r c)) /\
  ((forall r c, 0 <= r < ROWS -> 0 <= c < COLS -> -6 <= cell_at checker r c <= 7) ->
   draw_grid [] checker = Ok ([] ++ painted checker)).
Proof. apply (draw_grid_spec [] checker wf_checker). Defined.

(** ** The boards of the game *)

Lemma cells_ok_Forall (g : grid) :
  cells_ok g <-> Forall (Forall (fun v => 0 <= v <= 7)) g.
Proof.
  split.
  - intros Hc. apply Forall_lookup. intros i line Hl.
    apply Forall_lookup. intros j v Hv.
    rewrite <- (cell_at_lookup g (Z.of_nat i) (Z.of_nat j) line v);
      rewrite ?Nat2Z.id; auto; lia.
  - intros Hall r c. unfold cell_at.
    destruct ((0 <=? r) && (0 <=? c)); [|lia].
    destruct (g !! Z.to_nat r) as [line|] eqn:Hl; [|lia].
    destruct (line !! Z.to_nat c) as [v|] eqn:Hv; [|lia].
    pose proof (Forall_lookup_1 _ _ _ _ Hall Hl) as Hline.
    exact (Forall_lookup_1 _ _ _ _ Hline Hv).
Qed.

Lemma board_ok_create_grid : board_ok create_grid.
Proof.
  split; [exact wf_create_grid|]. split.
  - apply cells_ok_Forall. repeat constructor; lia.
  - repeat constructor.
Qed.

(** [remove_lines] on a board of piece numbers: a board of the game, and
    the count of the rows that were full. *)
Lemma remove_lines_board (g : grid) :
  wf_grid g -> cells_ok g ->
  board_ok (fst (remove_lines g)) /\
  snd (remove_lines g) = Z.of_nat (length (List.filter full_row g)).
Proof.
  intros Hwf Hc. destruct (remove_lines_wf g Hwf) as [Hwf' _].
  split; [split; [exact Hwf'|split]|].
  - apply cells_ok_Forall. apply cells_ok_Forall in Hc. unfold remove_lines.
    assert (Hk : Forall (Forall (fun v => 0 <= v <= 7)) (List.filter has_zero g)).
    { rewrite Forall_forall in *. intros r Hr. apply Hc.
      apply list_elem_of_In in Hr. apply List.filter_In in Hr.
      apply list_elem_of_In. tauto. }
    destruct (truthy _); cbn [fst]; [|exact Hk].
    apply Forall_app. split; [|exact Hk].
    apply Forall_replicate. apply Forall_replicate. lia.
  - unfold no_full_row, remove_lines.
    destruct (truthy _); cbn [fst]; [|apply filter_has_zero_full].
    apply Forall_app. split; [|apply filter_has_zero_full].
    apply Forall_replicate. reflexivity.
  - assert (Hsnd : snd (remove_lines g) =
                   ROWS - Z.of_nat (length (List.filter has_zero g))).
    { unfold remove_lines. now destruct (truthy _). }
    rewrite Hsnd. destruct Hwf as [Hlen _].
    pose proof (List.filter_length full_row g) as Hsum.
    assert (Heq : List.filter (fun x => negb (full_row x)) g = List.filter has_zero g).
    { apply List.filter_ext. intros r. now rewrite has_zero_not_full. }
    rewrite Heq in Hsum. unfold ROWS in *. lia.
Qed.

(** The elements that pass a test stand at [h] positions at most. *)
Lemma filter_within {A : Type} (P : A -> bool) (l : list A) (a h : nat) :
  (forall i x, l !! i = Some x -> P x = true -> (a <= i < a + h)%nat) ->
  (length (List.filter P l) <= h)%nat.
Proof.
  intros Hpos.
  rewrite <- (take_drop a l), <- (take_drop h (drop a l)).
  rewrite !List.filter_app, !length_app.
  rewrite (filter_none P (take a l)), (filter_none P (drop h (drop a l))).
  - pose proof (List.filter_length_le P (take h (drop a l))) as Hle.
    rewrite length_take in Hle. cbn [length]. lia.
  - intros x Hx. apply list_elem_of_In, list_elem_of_lookup in Hx.
    destruct Hx as (i & Hi). rewrite !lookup_drop in Hi.
    destruct (P x) eqn:HP; [|reflexivity].
    specialize (Hpos _ _ Hi HP). lia.
  - intros x Hx. apply list_elem_of_In, list_elem_of_lookup in Hx.
    destruct Hx as (i & Hi). apply lookup_take_Some in Hi.
    destruct Hi as [Hi Hlt].
    destruct (P x) eqn:HP; [|reflexivity].
    specialize (Hpos _ _ Hi HP). lia.
Qed.

Lemma cell_at_outside (sh : shape) (r c : Z) :
  r < 0 \/ Z.of_nat (length sh) <= r -> cell_at sh r c = 0.
Proof.
  intros Hr. unfold cell_at.
  destruct (Z.leb_spec 0 r); [|reflexivity].
  destruct (0 <=? c); [|reflexivity]. cbn [andb].
  rewrite (proj2 (lookup_ge_None sh (Z.to_nat r))) by lia. reflexivity.
Qed.

(** Rows of a board with the same cells are the same row. *)
Lemma row_ext (g g' : grid) (i : nat) (line line' : list Z) :
  wf_grid g -> wf_grid g' -> g !! i = Some line -> g' !! i = Some line' ->
  (forall c, cell_at g' (Z.of_nat i) c = cell_at g (Z.of_nat i) c) ->
  line' = line.
Proof.
  intros Hwf Hwf' Hl Hl' Hcells.
  pose proof (wf_grid_row g _ _ Hwf Hl) as Hlen.
  pose proof (wf_grid_row g' _ _ Hwf' Hl') as Hlen'.
  apply list_eq. intros j.
  destruct (line !! j) as [v|] eqn:Hv.
  - assert (Hj : (j < length line')%nat).
    { apply lookup_lt_Some in Hv. lia. }
    destruct (lookup_lt_is_Some_2 line' j Hj) as [v' Hv'].
    rewrite Hv'. f_equal.
    rewrite <- (cell_at_lookup g' (Z.of_nat i) (Z.of_nat j) line' v'),
            <- (cell_at_lookup g (Z.of_nat i) (Z.of_nat j) line v);
      rewrite ?Nat2Z.id; auto; lia.
  - apply lookup_ge_None in Hv. apply lookup_ge_None. lia.
Qed.

(** After [lock_piece] on a board with no full row, the full rows are
    among the rows of the piece. *)
Lemma lock_full_rows (g g' : grid) (sh : shape) (col row color_idx : Z) :
  wf_grid g -> no_full_row g -> inside sh col row -> 0 <= row ->
  lock_piece g sh (col, row) color_idx = Ok g' ->
  (length (List.filter full_row g') <= length sh)%nat.
Proof.
  intros Hwf Hnf Hin Hrow Hlock.
  destruct (lock_piece_cells_eq g sh col row color_idx Hwf Hin)
    as (g1 & Hg1 & Hwf' & Hcells).
  rewrite Hlock in Hg1. injection Hg1 as <-.
  apply (filter_within full_row g' (Z.to_nat row)).
  intros i line' Hl' Hfull.
  destruct (Nat.lt_ge_cases i (Z.to_nat row)) as [Hlo|Hlo];
    [|destruct (Nat.lt_ge_cases i (Z.to_nat row + length sh)) as [Hhi|Hhi]; [lia|]];
    exfalso.
  all: assert (Hi : (i < length g)%nat)
         by (apply lookup_lt_Some in Hl'; destruct Hwf, Hwf'; lia).
  all: destruct (lookup_lt_is_Some_2 g i Hi) as [line Hl].
  all: assert (line' = line) as ->
         by (apply (row_ext g g' i); auto; intros c; rewrite Hcells;
             unfold covers; rewrite cell_at_outside by lia; reflexivity).
  all: unfold no_full_row in Hnf; rewrite Forall_forall in Hnf.
  all: specialize (Hnf line (list_elem_of_lookup_2 _ _ _ Hl)); congruence.
Qed.

Lemma lock_cells_ok (g g' : grid) (sh : shape) (col row : Z) (p : piece) :
  wf_grid g -> cells_ok g -> inside sh col row ->
  lock_piece g sh (col, row) (PIECE_TO_IDX p) = Ok g' -> cells_ok g'.
Proof.
  intros Hwf Hc Hin Hlock.
  destruct (lock_piece_cells_eq g sh col row (PIECE_TO_IDX p) Hwf Hin)
    as (g1 & Hg1 & _ & Hcells).
  rewrite Hlock in Hg1. injection Hg1 as <-.
  intros r c. rewrite Hcells. destruct (covers sh col row r c); [|apply Hc].
  destruct p; cbn; lia.
Qed.

Lemma draw_grid_board (surface : list draw_rect) (g : grid) :
  wf_grid g -> cells_ok g -> draw_grid surface g = Ok (surface ++ painted g).
Proof.
  intros Hwf Hc. rewrite (draw_grid_eq surface g Hwf).
  rewrite (proj2 (all_drawable_iff g)); [reflexivity|].
  intros r c _ _. specialize (Hc r c). lia.
Qed.

(** ** The game loop *)

Lemma spawn_fits (p : piece) :
  exists sh, ROTATIONS p !! 0%nat = Some sh /\ 0 <= 3 <= COLS - width sh.
Proof. destruct p; eexists; (split; [reflexivity|]); vm_compute; split; discriminate. Qed.

Lemma rotations_short (p : piece) (sh : shape) :
  In sh (ROTATIONS p) -> (length sh <= 4)%nat.
Proof.
  intros Hin.
  assert (Hall : forallb (fun sh => (length sh <=? 4)%nat) (ROTATIONS p) = true)
    by (destruct p; reflexivity).
  rewrite forallb_forall in Hall. apply Nat.leb_le. now apply Hall.
Qed.

Lemma rotations_in_has_cell (p : piece) (sh : shape) :
  In sh (ROTATIONS p) -> has_cell sh.
Proof.
  intros Hin. pose proof (rotations_have_cells p) as Hall.
  rewrite Forall_forall in Hall. apply Hall. now apply list_elem_of_In.
Qed.

(** From a valid spawn placement the search has a feasible candidate, the
    first rotation at column 3, so that it returns a feasible one. *)
Lemma best_move_from_spawn (fuel : nat) (g : grid) (p : piece) (sh0 : shape) :
  wf_grid g -> ROWS <= Z.of_nat fuel ->
  ROTATIONS p !! 0%nat = Some sh0 -> valid_move g sh0 (3, 0) = Ok true ->
  exists col rot sh row,
    best_move fuel g p (ROTATIONS p) = Ok (col, rot) /\
    ROTATIONS p !! rot = Some sh /\
    hard_drop fuel g sh col = Ok row /\ 0 <= row /\
    valid_move g sh (col, row) = Ok true /\
    valid_move g sh (col, row + 1) = Ok false.
Proof.
  intros Hwf Hfuel Hsh0 Hspawn.
  assert (Hcells : forall r sh, ROTATIONS p !! r = Some sh -> has_cell sh).
  { intros r sh Hr. apply (rotations_in_has_cell p).
    eapply list_elem_of_In, list_elem_of_lookup_2. exact Hr. }
  destruct (best_move_analysis fuel g p (ROTATIONS p) Hwf
              (rotations_have_cells p) Hfuel) as (scored & Hsc & _ & Hbest).
  pose proof (scored_candidates_in fuel g (PIECE_TO_IDX p) _ scored Hsc) as Hin.
  assert (Hne : scored <> []).
  { destruct (hard_drop_valid_from_spawn fuel g sh0 3 Hwf (Hcells _ _ Hsh0)
                Hfuel Hspawn) as (row0 & Hrow0 & Hv0).
    destruct (proj1 (candidate_valid_iff fuel g (PIECE_TO_IDX p) Hwf Hfuel sh0 3
                       (Hcells _ _ Hsh0))) as (s & Hs); [eauto|].
    assert (In (0%nat, 3, s) scored) as Hmem.
    { apply Hin. exists sh0. split; [|exact Hs]. apply in_candidates.
      split; [exact Hsh0|]. destruct (spawn_fits p) as (sh & Hsh & Hfit).
      rewrite Hsh0 in Hsh. now injection Hsh as <-. }
    intros ->. destruct Hmem. }
  destruct scored as [|c0 scored0]; [congruence|].
  destruct Hbest as ([[bs bc] br] & (k & Hk & _) & Hbm). cbn [fst snd] in *.
  assert (Hmem : In (br, bc, bs) (c0 :: scored0)).
  { apply list_elem_of_In. eapply list_elem_of_lookup_2; eauto. }
  apply Hin in Hmem. destruct Hmem as (sh' & Hc & Hs).
  apply in_candidates in Hc. destruct Hc as [Hr' Hcol'].
  destruct (proj2 (candidate_valid_iff fuel g (PIECE_TO_IDX p) Hwf Hfuel sh' bc
                     (Hcells br sh' Hr'))) as (row' & Hrow' & Hv');
    [eauto|].
  destruct (hard_drop_loop_spec g sh' bc Hwf (Hcells br sh' Hr') fuel 0)
    as (r & Hr & Hbound & Hstop & _); [unfold ROWS; lia|lia|].
  assert (row' = r) as -> by (unfold hard_drop in Hrow'; congruence).
  exists bc, br, sh', r. repeat split; auto. lia.
Qed.

Lemma py_index_nat {A : Type} (l : list A) (i : nat) (a : A) :
  l !! i = Some a -> py_index l (Z.of_nat i) = Ok a.
Proof.
  intros Hl. destruct (py_index_in_range l (Z.of_nat i)) as (a' & Ha' & ->).
  - apply lookup_lt_Some in Hl. lia.
  - rewrite Nat2Z.id in Ha'. congruence.
Qed.

(** The placement that the loop aims at: one of the rotations of the
    piece, in a valid placement at row [target_y], not above the piece. *)
Lemma place_spec (fuel : nat) (s : Game.state) :
  game_ok s -> Game.running s = true -> ROWS <= Z.of_nat fuel ->
  exists px sh ty,
    Game.place fuel s = Ok (px, sh, ty) /\
    In sh (ROTATIONS (Game.current_piece s)) /\
    valid_move (Game.grid s) sh (px, ty) = Ok true /\
    valid_move (Game.grid s) sh (px, ty + 1) = Ok false /\
    0 <= Game.pos_y s <= ty.
Proof.
  intros ([Hwf _] & Hrots & _ & _ & Hphase) Hrun Hfuel.
  unfold Game.place.
  destruct (Hphase Hrun) as [(Hy & sh0 & Hsh0 & Hspawn)|(Hy & Hin & Hv & Hrest)].
  - rewrite Hy, Hrots. cbn [Z.eqb].
    destruct (best_move_from_spawn fuel _ _ sh0 Hwf Hfuel Hsh0 Hspawn)
      as (col & rot & sh & row & -> & Hsh & Hrow & Hrow0 & Hv & Hrest).
    cbn [bind]. rewrite (py_index_nat _ _ _ Hsh). cbn [bind].
    rewrite Hrow. cbn [bind]. exists col, sh, row.
    repeat split; auto; try lia.
    eapply list_elem_of_In, list_elem_of_lookup_2. exact Hsh.
  - destruct (Z.eqb_spec (Game.pos_y s) 0) as [H0|_]; [lia|].
    exists (Game.pos_x s), (Game.current_shape s), (Game.target_y s).
    repeat split; auto; lia.
Qed.

Lemma points_lookup (lines : Z) :
  0 <= lines <= 4 ->
  py_index [0; 100; 300; 500; 800] (Z.min lines 4) =
  Ok (nth (Z.to_nat lines) [0; 100; 300; 500; 800] 0) /\
  0 <= nth (Z.to_nat lines) [0; 100; 300; 500; 800] 0.
Proof.
  intros Hl.
  assert (Hcases : lines = 0 \/ lines = 1 \/ lines = 2 \/ lines = 3 \/ lines = 4) by lia.
  destruct Hcases as [->|[->|[->|[->| ->]]]]; (split; [reflexivity | vm_compute; discriminate]).
Qed.

Lemma next_piece_total (shuffled bag : list piece) :
  shuffled <> [] -> exists p bag', Game.next_piece shuffled bag = Ok (p, bag').
Proof.
  intros Hne. unfold Game.next_piece.
  destruct bag as [|p rest]; [|eauto].
  destruct shuffled as [|p rest]; [congruence|eauto].
Qed.

(** The two ways of a frame: the piece moves down one row, or it is
    locked at a valid placement, the full rows are cleared and the next
    piece is spawned. *)
Lemma loop_body_cases (fuel : nat) (quit : bool) (shuffled : list piece)
    (s : Game.state) :
  game_ok s -> Game.running s = true -> ROWS <= Z.of_nat fuel -> shuffled <> [] ->
  exists px sh ty,
    Game.place fuel s = Ok (px, sh, ty) /\
    In sh (ROTATIONS (Game.current_piece s)) /\
    valid_move (Game.grid s) sh (px, ty) = Ok true /\
    valid_move (Game.grid s) sh (px, ty + 1) = Ok false /\
    0 <= Game.pos_y s <= ty /\
    ((Game.pos_y s < ty /\
      Game.loop_body fuel quit shuffled s =
        Ok (Game.mk (Game.grid s) (Game.bag s) (Game.current_piece s)
              (Game.current_rotations s) sh px (Game.pos_y s + 1)
              (Game.score s) (Game.lines_total s) ty (negb quit))) \/
     (Game.pos_y s = ty /\
      exists locked g lines p bag' sh' ok,
        lock_piece (Game.grid s) sh (px, ty) (PIECE_TO_IDX (Game.current_piece s))
          = Ok locked /\
        remove_lines locked = (g, lines) /\ 0 <= lines <= 4 /\ board_ok g /\
        Game.next_piece shuffled (Game.bag s) = Ok (p, bag') /\
        ROTATIONS p !! 0%nat = Some sh' /\
        valid_move g sh' (3, 0) = Ok ok /\
        Game.loop_body fuel quit shuffled s =
          Ok (Game.mk g bag' p (ROTATIONS p) sh' 3 0
                (Game.score s
                 + nth (Z.to_nat lines) [0; 100; 300; 500; 800] 0
                   * ((Game.lines_total s + lines) / 10 + 1))
                (Game.lines_total s + lines) 0 (ok && negb quit)))).
Proof.
  intros Hok Hrun Hfuel Hne.
  destruct (place_spec fuel s Hok Hrun Hfuel)
    as (px & sh & ty & Hplace & Hin & Hv & Hrest & Hy).
  destruct Hok as ((Hwf & Hcells & Hnf) & Hrots & Hlt & Hsc & Hphase).
  exists px, sh, ty. repeat (split; [assumption|]).
  unfold Game.loop_body. rewrite Hplace. cbn [bind]. rewrite Hrun.
  destruct (Z.ltb_spec (Game.pos_y s) ty) as [Hfall|Hlock].
  - left. split; [exact Hfall|]. cbn [bind Game.grid].
    rewrite (draw_grid_board [] _ Hwf Hcells). cbn [bind].
    now destruct quit.
  - right. split; [lia|].
    assert (Hty : 0 <= ty) by lia.
    pose proof (valid_move_inside _ _ _ _ Hwf Hv Hty) as Hinside.
    destruct (lock_piece_wf _ _ _ _ (PIECE_TO_IDX (Game.current_piece s)) Hwf Hv Hty)
      as (locked & Hlocked & Hwfl).
    pose proof (lock_cells_ok _ _ _ _ _ _ Hwf Hcells Hinside Hlocked) as Hcl.
    pose proof (lock_full_rows _ _ _ _ _ _ Hwf Hnf Hinside Hty Hlocked) as Hfull.
    pose proof (rotations_short _ _ Hin) as Hshort.
    destruct (remove_lines_board locked Hwfl Hcl) as [Hboard Hlines].
    destruct (remove_lines locked) as [g lines] eqn:Hrem. cbn [fst snd] in *.
    assert (Hl4 : 0 <= lines <= 4) by lia.
    destruct (points_lookup lines Hl4) as [Hpts _].
    destruct (next_piece_total shuffled (Game.bag s) Hne) as (p & bag' & Hnext).
    destruct (spawn_fits p) as (sh' & Hsh' & _).
    destruct (valid_move_spec g sh' 3 0 (proj1 Hboard)) as (ok & Hvok & _).
    exists locked, g, lines, p, bag', sh', ok.
    repeat (split; [assumption || lia|]).
    rewrite Hlocked. cbn [bind]. rewrite Hrem. rewrite Hpts. cbn [bind]. rewrite Hnext. cbn [bind].
    rewrite (py_index_nat _ 0%nat _ Hsh' : py_index (ROTATIONS p) 0 = Ok sh').
    cbn [bind]. rewrite Hvok. cbn [bind Game.grid].
    destruct Hboard as (Hwfg & Hcg & _).
    rewrite (draw_grid_board [] _ Hwfg Hcg). cbn [bind].
    now destruct ok, quit.
Qed.

Lemma game_ok_first_state : game_ok first_state.
Proof.
  split; [exact board_ok_create_grid|]. split; [reflexivity|].
  split; [cbn; lia|]. split; [cbn; lia|].
  intros _. left. split; [reflexivity|]. eexists. split; reflexivity.
Qed.

Ltac game_fields :=
  cbn [Game.grid Game.bag Game.current_piece Game.current_rotations
       Game.current_shape Game.pos_x Game.pos_y Game.score Game.lines_total
       Game.target_y Game.running].

Lemma loop_body_ok (fuel : nat) (quit : bool) (shuffled : list piece)
    (s : Game.state) :
  game_ok s -> Game.running s = true -> ROWS <= Z.of_nat fuel -> shuffled <> [] ->
  exists s', Game.loop_body fuel quit shuffled s = Ok s' /\ game_ok s' /\
    Game.score s <= Game.score s' /\ Game.lines_total s <= Game.lines_total s'.
Proof.
  intros Hok Hrun Hfuel Hne.
  destruct (loop_body_cases fuel quit shuffled s Hok Hrun Hfuel Hne)
    as (px & sh & ty & _ & Hin & Hv & Hrest & Hy &
        [[Hfall ->]|(Hty & locked & g & lines & p & bag' & sh' & ok & _ & _ &
                     Hlines & Hboard & _ & Hsh' & Hvok & ->)]).
  - destruct Hok as (Hb & Hrots & Hlt & Hsc & _).
    eexists. split; [reflexivity|]. split; [|game_fields; lia].
    split; [exact Hb|]. split; [exact Hrots|]. split; [exact Hlt|].
    split; [exact Hsc|]. intros _. right. game_fields. repeat split; auto; lia.
  - destruct Hok as (_ & _ & Hlt & Hsc & _).
    destruct (points_lookup lines Hlines) as [_ Hpts].
    assert (Hlevel : 0 <= (Game.lines_total s + lines) / 10) by (apply Z.div_pos; lia).
    assert (Hgain : 0 <= nth (Z.to_nat lines) [0; 100; 300; 500; 800] 0
                         * ((Game.lines_total s + lines) / 10 + 1)) by nia.
    eexists. split; [reflexivity|]. split; [|game_fields; lia].
    split; [exact Hboard|]. split; [reflexivity|]. game_fields.
    split; [lia|]. split; [lia|].
    intros Hrun'. apply andb_true_iff in Hrun'. destruct Hrun' as [-> _].
    left. split; [reflexivity|]. exists sh'. auto.
Qed.

(** X16. A frame of the game never raises, and it keeps the game in
    order: from a state at the head of the loop with [running] true, with
    any order of the pieces for a refill of the bag, the body of the loop
    returns; the board is again a board of piece numbers with no full row,
    on which [draw_grid] has found a colour for every cell; the piece is
    just spawned in a valid placement or on its way to a valid resting
    placement, unless the loop is to stop; and neither the score nor
    the count of lines has gone down. *)
Theorem loop_body_safe (fuel : nat) (quit : bool) (shuffled : list piece)
    (s : Game.state) :
  game_ok s -> Game.running s = true -> ROWS <= Z.of_nat fuel -> shuffled <> [] ->
  exists s', Game.loop_body fuel quit shuffled s = Ok s' /\ game_ok s' /\
    Game.score s <= Game.score s' /\ Game.lines_total s <= Game.lines_total s'.
Proof. apply loop_body_ok. Qed.

Lemma loop_body_safe_witness :
  exists s', Game.loop_body 20 false PIECES first_state = Ok s' /\ game_ok s' /\
    Game.score first_state <= Game.score s' /\
    Game.lines_total first_state <= Game.lines_total s'.
Proof.
  apply (loop_body_safe 20 false PIECES first_state game_ok_first_state).
  - reflexivity.
  - unfold ROWS. lia.
  - discriminate.
Defined.

(** X17. What a frame does to the board.  Either the piece moves down
    one row, not below its target row, and the board, the bag, the score
    and the count of lines stay as they are; or one of the rotations of
    the current piece is locked at a placement that is valid and rests
    (the placement a row below is not valid), [remove_lines] clears at
    most 4 rows of it, so that the cap [min(lines, 4)] of the score table
    never cuts, the score grows by the entry of the table for that count
    times the level, the next piece is put at column 3, row 0 in its
    first rotation, and the loop goes on exactly when there was no QUIT
    event and that placement is valid. *)
Theorem loop_body_locks_resting (fuel : nat) (quit : bool) (shuffled : list piece)
    (s : Game.state) :
  game_ok s -> Game.running s = true -> ROWS <= Z.of_nat fuel -> shuffled <> [] ->
  exists s', Game.loop_body fuel quit shuffled s = Ok s' /\
    ((Game.grid s' = Game.grid s /\ Game.bag s' = Game.bag s /\
      Game.current_piece s' = Game.current_piece s /\
      Game.score s' = Game.score s /\ Game.lines_total s' = Game.lines_total s /\
      Game.pos_y s' = Game.pos_y s + 1 /\ Game.pos_y s' <= Game.target_y s' /\
      Game.running s' = negb quit) \/
     (exists sh col row locked lines,
        In sh (ROTATIONS (Game.current_piece s)) /\
        valid_move (Game.grid s) sh (col, row) = Ok true /\
        valid_move (Game.grid s) sh (col, row + 1) = Ok false /\
        lock_piece (Game.grid s) sh (col, row) (PIECE_TO_IDX (Game.current_piece s))
          = Ok locked /\
        remove_lines locked = (Game.grid s', lines) /\ 0 <= lines <= 4 /\
        Game.lines_total s' = Game.lines_total s + lines /\
        Game.score s' =
          Game.score s
          + nth (Z.to_nat lines) [0; 100; 300; 500; 800] 0
            * (Game.lines_total s' / 10 + 1) /\
        Game.pos_x s' = 3 /\ Game.pos_y s' = 0 /\
        ROTATIONS (Game.current_piece s') !! 0%nat = Some (Game.current_shape s') /\
        (Game.running s' = true <->
         quit = false /\
         valid_move (Game.grid s') (Game.current_shape s') (3, 0) = Ok true))).
Proof.
  intros Hok Hrun Hfuel Hne.
  destruct (loop_body_cases fuel quit shuffled s Hok Hrun Hfuel Hne)
    as (px & sh & ty & _ & Hin & Hv & Hrest & Hy &
        [[Hfall ->]|(Hty & locked & g & lines & p & bag' & sh' & ok & Hlock & Hrem &
                     Hlines & _ & _ & Hsh' & Hvok & ->)]).
  - eexists. split; [reflexivity|]. left. game_fields. repeat split; lia.
  - eexists. split; [reflexivity|]. right.
    exists sh, px, ty, locked, lines. game_fields.
    repeat (split; [assumption || lia || reflexivity|]).
    rewrite Hvok. destruct ok, quit; cbn; split; try tauto; try congruence;
      intros [? ?]; congruence.
Qed.

Lemma loop_body_locks_resting_witness :
  exists s', Game.loop_body 20 true (rev PIECES) first_state = Ok s' /\
    ((Game.grid s' = Game.grid first_state /\ Game.bag s' = Game.bag first_state /\
      Game.current_piece s' = Game.current_piece first_state /\
      Game.score s' = Game.score first_state /\
      Game.lines_total s' = Game.lines_total first_state /\
      Game.pos_y s' = Game.pos_y first_state + 1 /\
      Game.pos_y s' <= Game.target_y s' /\
      Game.running s' = negb true) \/
     (exists sh col row locked lines,
        In sh (ROTATIONS (Game.current_piece first_state)) /\
        valid_move (Game.grid first_state) sh (col, row) = Ok true /\
        valid_move (Game.grid first_state) sh (col, row + 1) = Ok false /\
        lock_piece (Game.grid first_state) sh (col, row)
          (PIECE_TO_IDX (Game.current_piece first_state)) = Ok locked /\
        remove_lines locked = (Game.grid s', lines) /\ 0 <= lines <= 4 /\
        Game.lines_total s' = Game.lines_total first_state + lines /\
        Game.score s' =
          Game.score first_state
          + nth (Z.to_nat lines) [0; 100; 300; 500; 800] 0
            * (Game.lines_total s' / 10 + 1) /\
        Game.pos_x s' = 3 /\ Game.pos_y s' = 0 /\
        ROTATIONS (Game.current_piece s') !! 0%nat = Some (Game.current_shape s') /\
        (Game.running s' = true <->
         true = false /\
         valid_move (Game.grid s') (Game.current_shape s') (3, 0) = Ok true))).
Proof.
  apply (loop_body_locks_resting 20 true (rev PIECES) first_state game_ok_first_state).
  - reflexivity.
  - unfold ROWS. lia.
  - discriminate.
Defined.

Lemma start_ok (shuffled refill : list piece) :
  shuffled <> [] ->
  exists s0, Game.start shuffled refill = Ok s0 /\ game_ok s0 /\
    Game.running s0 = true /\ Game.grid s0 = create_grid /\
    Game.score s0 = 0 /\ Game.lines_total s0 = 0.
Proof.
  intros Hne. destruct shuffled as [|p rest]; [congruence|].
  unfold Game.start. cbn [Game.next_piece bind].
  destruct (spawn_fits p) as (sh & Hsh & _).
  rewrite (py_index_nat _ 0%nat _ Hsh : py_index (ROTATIONS p) 0 = Ok sh).
  cbn [bind]. eexists. split; [reflexivity|]. game_fields.
  split; [|auto]. split; [exact board_ok_create_grid|]. game_fields.
  split; [reflexivity|]. split; [lia|]. split; [lia|].
  intros _. left. split; [reflexivity|]. exists sh. split; [exact Hsh|].
  destruct p; vm_compute in Hsh; injection Hsh as <-; reflexivity.
Qed.

Lemma main_loop_ok (fuel : nat) (frames : list (bool * list piece)) :
  ROWS <= Z.of_nat fuel -> Forall (fun f => snd f <> []) frames ->
  forall s, game_ok s ->
    exists s', Game.main_loop fuel frames s = Ok s' /\ game_ok s' /\
      Game.score s <= Game.score s' /\ Game.lines_total s <= Game.lines_total s'.
Proof.
  intros Hfuel Hall. induction Hall as [|[quit shuffled] frames Hne Hall IH];
    intros s Hok; cbn [Game.main_loop].
  - exists s. split; [reflexivity|]. split; [exact Hok|]. lia.
  - destruct (Game.running s) eqn:Hrun;
      [|exists s; split; [reflexivity|]; split; [exact Hok|]; lia].
    destruct (loop_body_ok fuel quit shuffled s Hok Hrun Hfuel Hne)
      as (s1 & -> & Hok1 & Hsc1 & Hlt1).
    cbn [bind]. destruct (IH s1 Hok1) as (s' & Hs' & Hok' & Hsc' & Hlt').
    exists s'. split; [exact Hs'|]. split; [exact Hok'|]. lia.
Qed.

(** X18. The game never raises.  Whatever the order of the first bag
    and of the refills (none of them empty) and whatever the frames with a
    QUIT event, the script up to the loop and any number of frames of the
    loop return: no subscript of the board, of the rotations, of the
    colours or of the score table is out of range and the bag is never
    popped empty.  The state reached is in order, and its score and count
    of lines are not negative. *)
Theorem main_loop_safe (fuel : nat) (shuffled refill : list piece)
    (frames : list (bool * list piece)) :
  ROWS <= Z.of_nat fuel -> shuffled <> [] ->
  Forall (fun f => snd f <> []) frames ->
  exists s0 s',
    Game.start shuffled refill = Ok s0 /\
    Game.main_loop fuel frames s0 = Ok s' /\
    game_ok s' /\ 0 <= Game.score s' /\ 0 <= Game.lines_total s'.
Proof.
  intros Hfuel Hne Hall.
  destruct (start_ok shuffled refill Hne) as (s0 & Hs0 & Hok0 & _ & _ & Hsc0 & Hlt0).
  destruct (main_loop_ok fuel frames Hfuel Hall s0 Hok0) as (s' & Hs' & Hok' & Hsc & Hlt).
  exists s0, s'. split; [exact Hs0|]. split; [exact Hs'|]. split; [exact Hok'|]. lia.
Qed.

Lemma main_loop_safe_witness :
  exists s0 s',
    Game.start (rev PIECES) [] = Ok s0 /\
    Game.main_loop 20 [(false, PIECES); (false, PIECES); (true, PIECES)] s0 = Ok s' /\
    game_ok s' /\ 0 <= Game.score s' /\ 0 <= Game.lines_total s'.
Proof.
  apply (main_loop_safe 20 (rev PIECES) []).
  - unfold ROWS. lia.
  - discriminate.
  - repeat constructor; discriminate.
Defined.

(** ** The bag *)

(** X19. The bag deals the seven pieces once each before any comes
    again: when the bag is empty, or holds a full shuffle, and the order
    of the shuffle is a permutation of [PIECES], the next seven calls of
    [next_piece] return the pieces of the shuffle in its order, and leave
    the bag empty. *)
Theorem seven_bag (shuffled refill : list piece) :
  Permutation PIECES shuffled ->
  draw_pieces 7 shuffled [] = Ok (shuffled, []) /\
  draw_pieces 7 refill shuffled = Ok (shuffled, []) /\
  forall p, In p shuffled /\ count_occ piece_eq_dec shuffled p = 1%nat.
Proof.
  intros Hperm. pose proof (Permutation_length Hperm) as Hlen.
  split; [|split].
  - do 8 (destruct shuffled as [|? shuffled]; try discriminate). reflexivity.
  - do 8 (destruct shuffled as [|? shuffled]; try discriminate). reflexivity.
  - intros p. split.
    + apply (Permutation_in p Hperm). destruct p; cbn; tauto.
    + rewrite <- (proj1 (Permutation_count_occ piece_eq_dec PIECES shuffled) Hperm p).
      destruct p; reflexivity.
Qed.

Lemma seven_bag_witness :
  draw_pieces 7 (rev PIECES) [] = Ok (rev PIECES, []) /\
  draw_pieces 7 [] (rev PIECES) = Ok (rev PIECES, []) /\
  forall p, In p (rev PIECES) /\ count_occ piece_eq_dec (rev PIECES) p = 1%nat.
Proof. apply (seven_bag (rev PIECES) [] (Permutation_rev PIECES)). Defined.

(** ** [draw_piece] *)

Lemma fold_left_same {A B : Type} (f f' : A -> B -> A) (xs : list B) (st : A) :
  (forall a b, f a b = f' a b) -> fold_left f xs st = fold_left f' xs st.
Proof.
  intros Hext. revert st. induction xs as [|x xs IH]; intros st; cbn [fold_left];
    [reflexivity|]. now rewrite Hext, IH.
Qed.

Lemma draw_piece_eq (surface : list draw_rect) (sh : shape) (ox oy : Z) (c : color) :
  draw_piece surface sh (ox, oy) c =
  surface ++
  flat_map
    (fun yr =>
       flat_map
         (fun xv => if truthy (snd xv) then piece_rects ox oy c (fst yr) (fst xv) else [])
         (enumerate (snd yr)))
    (enumerate sh).
Proof.
  unfold draw_piece. rewrite <- fold_left_app_flat_map.
  apply fold_left_same. intros surf yr.
  rewrite <- fold_left_app_flat_map.
  apply fold_left_same. intros surf' xv. unfold draw_piece_cell, piece_rects.
  destruct (truthy (snd xv)); [reflexivity | now rewrite app_nil_r].
Qed.

(** The rectangles that [draw_piece] adds are those of the occupied cells
    of the shape. *)
Lemma in_draw_piece (sh : shape) (ox oy : Z) (c : color) (r : draw_rect) :
  In r (draw_piece [] sh (ox, oy) c) <->
  exists y x, shape_cell sh y x /\ In r (piece_rects ox oy c y x).
Proof.
  rewrite draw_piece_eq. cbn [app]. rewrite in_flat_map. split.
  - intros ([y line] & Hy & Hr). apply in_enumerate_iff in Hy.
    cbn [fst snd] in Hr. apply in_flat_map in Hr.
    destruct Hr as ([x v] & Hx & Hr). apply in_enumerate_iff in Hx.
    cbn [fst snd] in Hr. unfold truthy in Hr.
    destruct (Z.eqb_spec v 0) as [->|Hne]; [destruct Hr|].
    exists y, x. split; [now exists line, v | exact Hr].
  - intros (y & x & (line & v & Hy & Hx & Hne) & Hr).
    exists (y, line). split; [now apply in_enumerate_iff|].
    cbn [fst snd]. apply in_flat_map. exists (x, v).
    split; [now apply in_enumerate_iff|]. cbn [fst snd]. unfold truthy.
    destruct (Z.eqb_spec v 0); [contradiction | exact Hr].
Qed.

(** X20. [draw_piece] draws two squares of [CELL_SIZE] pixels for each
    occupied cell of the shape and nothing else, and all of them lie in
    the board part of the window exactly when every occupied cell of the
    placement is a cell of the board. *)
Theorem draw_piece_within_board (sh : shape) (ox oy : Z) (c : color) :
  (forall r, In r (draw_piece [] sh (ox, oy) c) <->
     exists y x, shape_cell sh y x /\ In r (piece_rects ox oy c y x)) /\
  (Forall within_board (draw_piece [] sh (ox, oy) c) <-> inside sh ox oy).
Proof.
  split; [intros r; apply in_draw_piece|].
  rewrite Forall_forall. split.
  - intros Hall y x Hc.
    assert (Hin : In (Rect c ((ox + Z.of_nat x) * CELL_SIZE)
                        ((oy + Z.of_nat y) * CELL_SIZE) CELL_SIZE CELL_SIZE 0)
                   (draw_piece [] sh (ox, oy) c)).
    { apply in_draw_piece. exists y, x. split; [exact Hc | now left]. }
    apply list_elem_of_In, Hall in Hin. unfold within_board in Hin.
    cbn [rect_left rect_top rect_width rect_height] in Hin.
    unfold WIDTH, HEIGHT, CELL_SIZE, COLS, ROWS in *. lia.
  - intros Hin r Hr. apply list_elem_of_In, in_draw_piece in Hr.
    destruct Hr as (y & x & Hc & Hr). specialize (Hin y x Hc).
    unfold within_board.
    destruct Hr as [<-|[<-|[]]];
      cbn [rect_left rect_top rect_width rect_height];
      unfold WIDTH, HEIGHT, CELL_SIZE, COLS, ROWS in *; lia.
Qed.

(** ** The search does not see the colours *)

Lemma cell_at_occupancy (g : grid) (r c : Z) :
  cell_at (occupancy g) r c = if cell_at g r c =? 0 then 0 else 1.
Proof.
  unfold cell_at, occupancy. destruct ((0 <=? r) && (0 <=? c)); [|reflexivity].
  rewrite lookup_map. destruct (g !! Z.to_nat r) as [line|]; [|reflexivity].
  cbn [option_map]. rewrite lookup_map.
  destruct (line !! Z.to_nat c) as [v|]; reflexivity.
Qed.

Lemma occupied_at_occupancy (g : grid) (c r : Z) :
  occupied_at (occupancy g) c r = occupied_at g c r.
Proof.
  unfold occupied_at, truthy. rewrite cell_at_occupancy.
  now destruct (cell_at g r c =? 0).
Qed.

Lemma find_same {A : Type} (f f' : A -> bool) (l : list A) :
  (forall x, f x = f' x) -> List.find f l = List.find f' l.
Proof.
  intros Hext. induction l as [|a l IH]; cbn; [reflexivity|].
  now rewrite Hext, IH.
Qed.

Lemma existsb_same {A : Type} (f f' : A -> bool) (l : list A) :
  (forall x, f x = f' x) -> existsb f l = existsb f' l.
Proof.
  intros Hext. induction l as [|a l IH]; cbn; [reflexivity|].
  now rewrite Hext, IH.
Qed.

Lemma column_height_occupancy (g : grid) (c : Z) :
  column_height (occupancy g) c = column_height g c.
Proof.
  unfold column_height, topmost.
  rewrite (find_same _ (occupied_at g c)); [reflexivity|].
  intros r. apply occupied_at_occupancy.
Qed.

Lemma is_hole_occupancy (g : grid) (c r : Z) :
  is_hole (occupancy g) c r = is_hole g c r.
Proof.
  unfold is_hole. rewrite occupied_at_occupancy.
  rewrite (existsb_same _ (occupied_at g c)); [reflexivity|].
  intros r'. apply occupied_at_occupancy.
Qed.

Lemma wf_occupancy (g : grid) : wf_grid g -> wf_grid (occupancy g).
Proof.
  intros [Hlen Hall]. unfold occupancy. split; [now rewrite length_map|].
  apply Forall_forall. intros line Hin. apply list_elem_of_In, in_map_iff in Hin.
  destruct Hin as (line0 & <- & Hin0). rewrite length_map.
  rewrite Forall_forall in Hall. apply Hall. now apply list_elem_of_In.
Qed.

(** The score of a board is that of its occupancy. *)
Lemma evaluate_occupancy (g : grid) (lines : Z) :
  wf_grid g -> evaluate (occupancy g) lines = evaluate g lines.
Proof.
  intros Hwf. rewrite !evaluate_eq by auto using wf_occupancy.
  assert (Hh : heights_sum (occupancy g) = heights_sum g).
  { unfold heights_sum. f_equal. apply map_ext. intros c.
    apply column_height_occupancy. }
  assert (Hc : hole_count (occupancy g) = hole_count g).
  { unfold hole_count. do 2 f_equal. apply List.filter_ext.
    intros [c r]. apply is_hole_occupancy. }
  assert (Hb : bumpiness (occupancy g) = bumpiness g).
  { unfold bumpiness. f_equal. apply map_ext. intros i.
    now rewrite !column_height_occupancy. }
  now rewrite Hh, Hc, Hb.
Qed.

Lemma filter_map_comm {A B : Type} (f : B -> bool) (h : A -> B) (l : list A) :
  List.filter f (map h l) = map h (List.filter (fun x => f (h x)) l).
Proof.
  induction l as [|a l IH]; cbn; [reflexivity|].
  destruct (f (h a)); cbn; now rewrite IH.
Qed.

Lemma has_zero_occupancy (line : list Z) :
  has_zero (map (fun v => if v =? 0 then 0 else 1) line) = has_zero line.
Proof.
  unfold has_zero. induction line as [|v line IH]; cbn; [reflexivity|].
  rewrite IH. now destruct (v =? 0).
Qed.

Lemma map_replicate {A B : Type} (f : A -> B) (n : nat) (a : A) :
  map f (replicate n a) = replicate n (f a).
Proof. induction n as [|n IH]; cbn; [reflexivity|]. now rewrite IH. Qed.

(** [remove_lines] and the occupancy commute. *)
Lemma remove_lines_occupancy (g : grid) :
  remove_lines (occupancy g) =
  (occupancy (fst (remove_lines g)), snd (remove_lines g)).
Proof.
  unfold remove_lines, occupancy. rewrite filter_map_comm, length_map.
  rewrite (List.filter_ext _ has_zero) by apply has_zero_occupancy.
  destruct (truthy _); cbn [fst snd]; [|reflexivity].
  rewrite map_app. do 2 f_equal. now rewrite !map_replicate.
Qed.

(** Boards with the same occupied cells have the same occupancy. *)
Lemma occupancy_ext (g g' : grid) :
  wf_grid g -> wf_grid g' ->
  (forall r c, truthy (cell_at g r c) = truthy (cell_at g' r c)) ->
  occupancy g = occupancy g'.
Proof.
  intros Hwf Hwf' Hocc. unfold occupancy. apply list_eq. intros i.
  rewrite !lookup_map.
  destruct (g !! i) as [line|] eqn:Hl.
  - assert (Hi : (i < length g')%nat).
    { apply lookup_lt_Some in Hl. destruct Hwf, Hwf'. lia. }
    destruct (lookup_lt_is_Some_2 g' i Hi) as [line' Hl']. rewrite Hl'.
    cbn [option_map]. f_equal. apply list_eq. intros j. rewrite !lookup_map.
    pose proof (wf_grid_row g _ _ Hwf Hl) as Hlen.
    pose proof (wf_grid_row g' _ _ Hwf' Hl') as Hlen'.
    destruct (line !! j) as [v|] eqn:Hv.
    + assert (Hj : (j < length line')%nat).
      { apply lookup_lt_Some in Hv. lia. }
      destruct (lookup_lt_is_Some_2 line' j Hj) as [v' Hv']. rewrite Hv'.
      cbn [option_map]. f_equal. specialize (Hocc (Z.of_nat i) (Z.of_nat j)).
      rewrite (cell_at_lookup g _ _ line v) in Hocc by (rewrite ?Nat2Z.id; auto; lia).
      rewrite (cell_at_lookup g' _ _ line' v') in Hocc by (rewrite ?Nat2Z.id; auto; lia).
      unfold truthy in Hocc. destruct (v =? 0), (v' =? 0); cbn in Hocc; congruence.
    + apply lookup_ge_None in Hv.
      rewrite (proj2 (lookup_ge_None line' j)) by lia. reflexivity.
  - apply lookup_ge_None in Hl.
    rewrite (proj2 (lookup_ge_None g' i)); [reflexivity|].
    destruct Hwf, Hwf'. lia.
Qed.

Lemma hard_drop_loop_from (fuel : nat) (g : grid) (sh : shape) (col : Z) :
  forall row r, hard_drop_loop fuel g sh col row = Ok r -> row <= r.
Proof.
  induction fuel as [|fuel IH]; intros row r Hr; cbn [hard_drop_loop] in Hr;
    [discriminate|].
  destruct (valid_move g sh (col, row + 1)) as [[|]|]; cbn [bind] in Hr;
    try discriminate.
  - apply IH in Hr. lia.
  - injection Hr as <-. lia.
Qed.

(** The score of a candidate does not depend on the number written into
    the board, as long as it is not 0. *)
Lemma try_candidate_colour (fuel : nat) (g : grid) (c1 c2 : Z) (rot_idx : nat)
    (sh : shape) (col : Z) (best : best_state) :
  wf_grid g -> c1 + 1 <> 0 -> c2 + 1 <> 0 ->
  try_candidate fuel g c1 rot_idx sh col best =
  try_candidate fuel g c2 rot_idx sh col best.
Proof.
  intros Hwf Hc1 Hc2. unfold try_candidate.
  destruct (hard_drop fuel g sh col) as [row|e] eqn:Hrow; [|reflexivity].
  cbn [bind]. apply hard_drop_loop_from in Hrow.
  destruct (valid_move g sh (col, row)) as [[|]|e] eqn:Hv; [|reflexivity..].
  cbn [bind negb].
  pose proof (valid_move_inside g sh col row Hwf Hv Hrow) as Hin.
  destruct (lock_piece_cells_eq g sh col row c1 Hwf Hin) as (g1 & -> & Hwf1 & H1).
  destruct (lock_piece_cells_eq g sh col row c2 Hwf Hin) as (g2 & -> & Hwf2 & H2).
  cbn [bind].
  assert (Hocc : occupancy g1 = occupancy g2).
  { apply occupancy_ext; auto. intros r c. rewrite H1, H2.
    destruct (covers sh col row r c); [|reflexivity].
    unfold truthy. destruct (Z.eqb_spec (c1 + 1) 0), (Z.eqb_spec (c2 + 1) 0);
      congruence. }
  pose proof (remove_lines_occupancy g1) as R1.
  pose proof (remove_lines_occupancy g2) as R2.
  rewrite Hocc, R2 in R1. injection R1 as Hgrid Hlines.
  destruct (remove_lines_wf g1 Hwf1) as [Hwf1' _].
  destruct (remove_lines_wf g2 Hwf2) as [Hwf2' _].
  destruct (remove_lines g1) as [t1 l1], (remove_lines g2) as [t2 l2].
  cbn [fst snd] in *. subst l2.
  rewrite <- (evaluate_occupancy t1), <- (evaluate_occupancy t2) by assumption.
  now rewrite Hgrid.
Qed.

(** X21. The search does not see the colours.  On every board, for
    every list of rotation matrices and every fuel, [best_move] gives the
    same result whatever piece name it is given: the name only selects
    the number that [lock_piece] writes on the copy, and the score of the
    copy depends on which cells are occupied, not on what they hold. *)
Theorem best_move_colour_blind (fuel : nat) (g : grid) (p q : piece)
    (rots : list shape) :
  wf_grid g ->
  best_move fuel g p rots = best_move fuel g q rots.
Proof.
  intros Hwf. unfold best_move. f_equal.
  apply for_each_ext. intros [rot_idx sh] best _. unfold try_rotation.
  destruct (py_index sh 0) as [first_row|e]; [|reflexivity]. cbn [bind].
  apply for_each_ext. intros col best' _.
  apply try_candidate_colour; auto; destruct p, q; cbn; lia.
Qed.

Lemma best_move_colour_blind_witness :
  best_move 20 board_with_T pS (ROTATIONS pL) =
  best_move 20 board_with_T pI (ROTATIONS pL).
Proof. apply (best_move_colour_blind 20 board_with_T pS pI _ wf_board_with_T). Defined.

(** ** From [lock_piece] to [draw_grid]: the colour of a locked piece *)

Lemma piece_color (p : piece) : cell_color (PIECE_TO_IDX p + 1) = COLORS p.
Proof. destruct p; reflexivity. Qed.

Lemma in_painted (g : grid) (r c : Z) (d : draw_rect) :
  0 <= r < ROWS -> 0 <= c < COLS -> In d (cell_rects g r c) -> In d (painted g).
Proof.
  intros Hr Hc Hd. unfold painted. apply in_flat_map. exists r.
  split; [apply list_elem_of_In, elem_of_seqZ; lia|].
  apply in_flat_map. exists c.
  split; [apply list_elem_of_In, elem_of_seqZ; lia | exact Hd].
Qed.

(** X22. A locked piece is painted in its own colour.  After
    [lock_piece] of a placement inside the board with the index of the
    piece [p], [draw_grid] returns, and for every cell that the placement
    covers it fills the square of the cell with [COLORS p]: the number
    written, the index plus 1, is the one that [draw_grid] turns back into
    the subscript of the colour of [p]. *)
Theorem locked_piece_painted (surface : list draw_rect) (g : grid) (sh : shape)
    (col row : Z) (p : piece) :
  wf_grid g -> cells_ok g -> inside sh col row ->
  exists g',
    lock_piece g sh (col, row) (PIECE_TO_IDX p) = Ok g' /\
    draw_grid surface g' = Ok (surface ++ painted g') /\
    forall r c, covers sh col row r c = true ->
      cell_color (cell_at g' r c) = COLORS p /\
      In (Rect (COLORS p) (c * CELL_SIZE) (r * CELL_SIZE) CELL_SIZE CELL_SIZE 0)
         (painted g').
Proof.
  intros Hwf Hc Hin.
  destruct (lock_piece_cells_eq g sh col row (PIECE_TO_IDX p) Hwf Hin)
    as (g' & Hg' & Hwf' & Hcells).
  exists g'. split; [exact Hg'|]. split.
  - apply draw_grid_board; [exact Hwf'|].
    now apply (lock_cells_ok g g' sh col row p).
  - intros r c Hcov.
    assert (Hcol : cell_color (cell_at g' r c) = COLORS p).
    { rewrite Hcells, Hcov. apply piece_color. }
    split; [exact Hcol|].
    destruct (covers_shape_cell sh col row r c Hcov) as (y & x & Hyx & -> & ->).
    destruct (Hin y x Hyx) as [Hx Hy].
    apply (in_painted g' (Z.of_nat y + row) (Z.of_nat x + col)); [lia|lia|].
    unfold cell_rects. rewrite Hcol. now left.
Qed.

Lemma locked_piece_painted_witness :
  exists g',
    lock_piece create_grid (SHAPES_BASE pT) (3, 18) (PIECE_TO_IDX pT) = Ok g' /\
    draw_grid [] g' = Ok ([] ++ painted g') /\
    forall r c, covers (SHAPES_BASE pT) 3 18 r c = true ->
      cell_color (cell_at g' r c) = COLORS pT /\
      In (Rect (COLORS pT) (c * CELL_SIZE) (r * CELL_SIZE) CELL_SIZE CELL_SIZE 0)
         (painted g').
Proof.
  apply (locked_piece_painted [] create_grid (SHAPES_BASE pT) 3 18 pT wf_create_grid).
  - apply board_ok_create_grid.
  - exact inside_T_bottom.
Defined.

(** ** [bumpiness_from_heights], on any list *)

Lemma py_index_beyond {A : Type} (l : list A) (i : Z) :
  Z.of_nat (length l) <= i -> py_index l i = Err IndexError.
Proof.
  intros Hi. unfold py_index.
  rewrite (proj2 (py_pos_None l i)); [reflexivity | lia].
Qed.

Lemma py_index_nth (l : list Z) (i : Z) :
  0 <= i < Z.of_nat (length l) -> py_index l i = Ok (nth (Z.to_nat i) l 0).
Proof.
  intros Hi. destruct (py_index_in_range l i Hi) as (a & Ha & ->).
  now rewrite (nth_lookup_Some _ _ 0 _ Ha).
Qed.

Lemma bump_step_spec (heights : list Z) (i s : Z) :
  0 <= i ->
  bump_step heights i s =
  if i + 1 <? Z.of_nat (length heights)
  then Ok (s + Z.abs (nth (Z.to_nat i) heights 0 - nth (Z.to_nat (i + 1)) heights 0))
  else Err IndexError.
Proof.
  intros Hi. unfold bump_step.
  destruct (Z.ltb_spec (i + 1) (Z.of_nat (length heights))) as [Hlt|Hge].
  - rewrite !py_index_nth by lia. reflexivity.
  - destruct (Z.lt_ge_cases i (Z.of_nat (length heights))) as [Hin|Hout].
    + rewrite py_index_nth by lia. cbn [bind].
      rewrite py_index_beyond by lia. reflexivity.
    + rewrite py_index_beyond by lia. reflexivity.
Qed.

(** X23. On any list of heights, [bumpiness_from_heights] raises
    IndexError exactly when the list has fewer than [COLS] items.  On a
    list of [COLS] items or more it returns a sum that only the first
    [COLS] items enter, that is at least the difference of the first and
    the last of them, and that is 0 exactly when these items are all
    equal. *)
Theorem bumpiness_from_heights_any (heights : list Z) :
  (bumpiness_from_heights heights = Err IndexError <->
   (length heights < Z.to_nat COLS)%nat) /\
  ((Z.to_nat COLS <= length heights)%nat ->
   exists b,
     bumpiness_from_heights heights = Ok b /\
     bumpiness_from_heights (firstn (Z.to_nat COLS) heights) = Ok b /\
     Z.abs (nth 0 heights 0 - nth 9 heights 0) <= b /\
     (b = 0 <->
      forall i, (i < Z.to_nat COLS)%nat -> nth i heights 0 = nth 0 heights 0)).
Proof.
  assert (Heq : forall hs : list Z,
    bumpiness_from_heights hs =
    if forallb (fun i => i + 1 <? Z.of_nat (length hs)) (seqZ 0 (COLS - 1))
    then Ok (fold_left
               (fun s i => s + Z.abs (nth (Z.to_nat i) hs 0
                                      - nth (Z.to_nat (i + 1)) hs 0))
               (seqZ 0 (COLS - 1)) 0)
    else Err IndexError).
  { intros hs. unfold bumpiness_from_heights.
    apply (for_each_good (fun i => i + 1 <? Z.of_nat (length hs))
             (fun i s => s + Z.abs (nth (Z.to_nat i) hs 0
                                    - nth (Z.to_nat (i + 1)) hs 0))).
    - intros i s Hin Hg. apply list_elem_of_In, elem_of_seqZ in Hin.
      rewrite bump_step_spec by lia. now rewrite Hg.
    - intros i s Hin Hg. apply list_elem_of_In, elem_of_seqZ in Hin.
      rewrite bump_step_spec by lia. now rewrite Hg. }
  assert (Hall : forall hs : list Z,
    forallb (fun i => i + 1 <? Z.of_nat (length hs)) (seqZ 0 (COLS - 1)) = true <->
    (Z.to_nat COLS <= length hs)%nat).
  { intros hs. rewrite forallb_forall. split.
    - intros H. specialize (H 8).
      assert (H8 : In 8 (seqZ 0 (COLS - 1)))
        by (apply list_elem_of_In, elem_of_seqZ; unfold COLS; lia).
      apply H, Z.ltb_lt in H8. unfold COLS. lia.
    - intros Hlen i Hin. apply list_elem_of_In, elem_of_seqZ in Hin.
      apply Z.ltb_lt. unfold COLS in *. lia. }
  split.
  - rewrite Heq. specialize (Hall heights).
    destruct (forallb _ _).
    + split; [discriminate|]. destruct Hall as [Hall _].
      specialize (Hall eq_refl). lia.
    + split; [intros _|reflexivity].
      destruct (Nat.lt_ge_cases (length heights) (Z.to_nat COLS)) as [Hlt|Hge];
        [exact Hlt|]. destruct Hall as [_ Hall]. specialize (Hall Hge). discriminate.
  - intros Hlen. rewrite !Heq.
    rewrite (proj2 (Hall heights) Hlen).
    rewrite (proj2 (Hall (firstn (Z.to_nat COLS) heights)))
      by (rewrite length_firstn; lia).
    eexists. split; [reflexivity|].
    change (seqZ 0 (COLS - 1)) with [0; 1; 2; 3; 4; 5; 6; 7; 8].
    change (Z.to_nat COLS) with 10%nat in *.
    cbn [fold_left].
    repeat match goal with
           | |- context [Z.to_nat ?z] =>
               let n := eval vm_compute in (Z.to_nat z) in
               change (Z.to_nat z) with n
           end.
    do 10 (destruct heights as [|? heights]; [cbn [length] in Hlen; lia|]).
    cbn [firstn nth]. split; [reflexivity|]. split; [lia|]. split.
    + intros Hb i Hi.
      do 10 (destruct i as [|i]; [cbn [nth]; lia|]). lia.
    + intros Hflat.
      pose proof (Hflat 1%nat) as H1. pose proof (Hflat 2%nat) as H2.
      pose proof (Hflat 3%nat) as H3. pose proof (Hflat 4%nat) as H4.
      pose proof (Hflat 5%nat) as H5. pose proof (Hflat 6%nat) as H6.
      pose proof (Hflat 7%nat) as H7. pose proof (Hflat 8%nat) as H8.
      pose proof (Hflat 9%nat) as H9. cbn [nth] in *. lia.
Qed.
